(** * rocr_debug_agent: fault-wave aggregation and code-object introspection

    A shallow embedding of [src/HSAHandleMemoryFault.cpp] and
    [src/code_object.cpp], followed by the properties proved about it.

    Conventions.
    - [uint64_t], [size_t], [amd_dbgapi_global_address_t] and
      [amd_dbgapi_size_t] values are integers in [Z]; every C++ operation
      that can leave the 64-bit range is written with [wrap64].
    - [std::map<uint64_t, V>] whose order is observed ([upper_bound],
      [std::prev], [begin]) is a key-sorted association list with iterators as
      positions; the map of faulty waves, only probed with [find] and
      [insert], is a [gmap].
    - A [WaveStateInfo*] is the position of the wave in the agent's queue and
      wave lists. *)

From Stdlib Require Import ZArith List Ascii Strings.Byte Lia Bool.
From stdpp Require Import gmap strings list fin_maps sorting.

Local Open Scope Z_scope.

(* ===================================================================== *)
(** * Part I: definitions                                                 *)
(* ===================================================================== *)

(** ** Machine integers *)

Definition wrap64 (z : Z) : Z := z mod 2 ^ 64.

Definition add64 (a b : Z) : Z := wrap64 (a + b).

Definition sub64 (a b : Z) : Z := wrap64 (a - b).

(** ** Outcomes of a call

    Beside returning, a member function of the agent can let a C++ exception
    escape, end the process through [agent_assert] or [agent_error], read
    through a disengaged [std::optional] or a null pointer (undefined
    behaviour), or loop for ever. *)

Inductive outcome (A : Type) : Type :=
| Returns (a : A)
| Throws
| Aborts
| UndefinedBehaviour
| Diverges.

Arguments Returns {A} a.
Arguments Throws {A}.
Arguments Aborts {A}.
Arguments UndefinedBehaviour {A}.
Arguments Diverges {A}.

Definition bind {A B : Type} (c : outcome A) (k : A -> outcome B) : outcome B :=
  match c with
  | Returns a => k a
  | Throws => Throws
  | Aborts => Aborts
  | UndefinedBehaviour => UndefinedBehaviour
  | Diverges => Diverges
  end.

Notation "x <- c ;; k" := (bind c (fun x => k))
  (at level 100, c at next level, right associativity).

(** ** Text output *)

Definition nl : string := String (ascii_of_nat 10) EmptyString.

Definition dquote : string := String (ascii_of_nat 34) EmptyString.

Definition digit_upper (d : N) : ascii :=
  if (d <? 10)%N then ascii_of_N (48 + d) else ascii_of_N (55 + d).

(** [std::hex << std::uppercase] on an unsigned value; a 64-bit value has at
    most 16 hexadecimal digits, a value of any width is covered by
    [N.size_nat]. *)
Fixpoint hex_digits (fuel : nat) (n : N) (acc : string) : string :=
  match fuel with
  | O => acc
  | S fuel' =>
      let acc' := String (digit_upper (n mod 16)) acc in
      if (n / 16 =? 0)%N then acc' else hex_digits fuel' (n / 16) acc'
  end.

Definition hex_upper (z : Z) : string :=
  hex_digits (S (N.size_nat (Z.to_N z))) (Z.to_N z) EmptyString.

Fixpoint dec_digits (fuel : nat) (n : N) (acc : string) : string :=
  match fuel with
  | O => acc
  | S fuel' =>
      let acc' := String (digit_upper (n mod 10)) acc in
      if (n / 10 =? 0)%N then acc' else dec_digits fuel' (n / 10) acc'
  end.

Definition dec (z : Z) : string :=
  dec_digits (S (N.size_nat (Z.to_N z))) (Z.to_N z) EmptyString.

(** ** HSAHandleMemoryFault.cpp *)

Section MemoryFault.

(** The declarations of [HSADebugInfo.h] are not part of the sources at
    hand: the enumerations, the registers other than [pc] and [trapsts],
    and the macro that decodes [trapsts] are parameters. *)
Variable AgentStatus : Type.
Variable AGENT_STATUS_UNSUPPORTED : AgentStatus.
Context `{AgentStatusEq : EqDecision AgentStatus}.
Variable QueueStatus : Type.
Variable QUEUE_STATUS_FAILURE : QueueStatus.
Variable EventType : Type.
Variable DEBUG_AGENT_EVENT_MEMORY_FAULT : EventType.
Context `{EventTypeEq : EqDecision EventType}.
Variable OtherRegisters : Type.
Variable SQ_WAVE_TRAPSTS_XNACK_ERROR : Z -> bool.

Record WaveRegisters : Type := mkRegs {
  pc : Z;
  trapsts : Z;
  other_regs : OtherRegisters
}.

Record WaveStateInfo : Type := mkWave {
  regs : WaveRegisters
}.

Record QueueInfo : Type := mkQueue {
  queueId : Z;
  queueStatus : QueueStatus;
  pWaveList : list WaveStateInfo
}.

Record GPUAgentInfo : Type := mkAgent {
  nodeId : Z;
  agentName : string;
  agentStatus : AgentStatus;
  pQueueList : list QueueInfo
}.

(** A [WaveStateInfo*]: queue position, wave position. *)
Definition WavePtr : Type := (nat * nat)%type.

(** [pWave->regs.pc += 0x8] *)
Definition advance_pc (w : WaveStateInfo) : WaveStateInfo :=
  mkWave (mkRegs (add64 (pc (regs w)) 8) (trapsts (regs w))
                 (other_regs (regs w))).

Definition is_faulty (w : WaveStateInfo) : bool :=
  SQ_WAVE_TRAPSTS_XNACK_ERROR (trapsts (regs w)).

(** The [find] / [it->second.first ++] / [insert] step on [faultyWaves]. *)
Definition record_faulty (faultyWaves : gmap Z (Z * WavePtr))
    (key : Z) (pWave : WavePtr) : gmap Z (Z * WavePtr) :=
  match faultyWaves !! key with
  | Some (count, first) => <[key := (add64 count 1, first)]> faultyWaves
  | None => <[key := (1, pWave)]> faultyWaves
  end.

(** The inner [while (pWave != nullptr)] loop over one queue. The queue
    status and the map are threaded through; the wave list is rebuilt with
    the advanced program counters. *)
Fixpoint scan_waves (qi wi : nat) (waves : list WaveStateInfo)
    (status : QueueStatus) (faultyWaves : gmap Z (Z * WavePtr))
  : list WaveStateInfo * QueueStatus * gmap Z (Z * WavePtr) :=
  match waves with
  | [] => ([], status, faultyWaves)
  | pWave :: rest =>
      if is_faulty pWave then
        let pWave' := advance_pc pWave in
        let faultyWaves' :=
          record_faulty faultyWaves (pc (regs pWave')) (qi, wi) in
        let '(rest', status', out) :=
          scan_waves qi (S wi) rest QUEUE_STATUS_FAILURE faultyWaves' in
        (pWave' :: rest', status', out)
      else
        let '(rest', status', out) :=
          scan_waves qi (S wi) rest status faultyWaves in
        (pWave :: rest', status', out)
  end.

(** The outer [while (pQueue != nullptr)] loop. *)
Fixpoint scan_queues (qi : nat) (queues : list QueueInfo)
    (faultyWaves : gmap Z (Z * WavePtr))
  : list QueueInfo * gmap Z (Z * WavePtr) :=
  match queues with
  | [] => ([], faultyWaves)
  | pQueue :: rest =>
      let '(waves', status', faultyWaves') :=
        scan_waves qi 0 (pWaveList pQueue) (queueStatus pQueue) faultyWaves in
      let '(rest', out) := scan_queues (S qi) rest faultyWaves' in
      (mkQueue (queueId pQueue) status' waves' :: rest', out)
  end.

(** [FindFaultyWaves], on the agent that [GetAgentFromList] returns: the
    map and the agent as the call leaves it. *)
Definition FindFaultyWaves (pAgent : GPUAgentInfo)
  : gmap Z (Z * WavePtr) * GPUAgentInfo :=
  if decide (agentStatus pAgent = AGENT_STATUS_UNSUPPORTED) then
    (∅, pAgent)
  else
    let '(queues', faultyWaves) := scan_queues 0 (pQueueList pAgent) ∅ in
    (faultyWaves,
     mkAgent (nodeId pAgent) (agentName pAgent) (agentStatus pAgent) queues').

(** *** What the aggregation is compared with *)

Fixpoint number_from {A : Type} (i : nat) (l : list A) : list (nat * A) :=
  match l with
  | [] => []
  | x :: l' => (i, x) :: number_from (S i) l'
  end.

(** The faulty waves of a queue list in traversal order, each as its
    advanced program counter and its position. *)
Definition faulty_of_waves (qi wi : nat) (waves : list WaveStateInfo)
  : list (Z * WavePtr) :=
  map (fun iw => (add64 (pc (regs (snd iw))) 8, (qi, fst iw)))
      (filter (fun iw => is_faulty (snd iw) = true)
              (number_from wi waves)).

Definition faulty_of_queue (qi : nat) (q : QueueInfo) : list (Z * WavePtr) :=
  faulty_of_waves qi 0 (pWaveList q).

(** Recording a list of faulty waves, one after the other. *)
Definition record_all (l : list (Z * WavePtr)) (m : gmap Z (Z * WavePtr))
  : gmap Z (Z * WavePtr) :=
  fold_left (fun acc e => record_faulty acc (fst e) (snd e)) l m.

Definition faulty_from (qi : nat) (queues : list QueueInfo)
  : list (Z * WavePtr) :=
  concat (map (fun iq => faulty_of_queue (fst iq) (snd iq))
              (number_from qi queues)).

Definition faulty_waves (a : GPUAgentInfo) : list (Z * WavePtr) :=
  faulty_from 0 (pQueueList a).

(** The store as the scan leaves it, wave by wave and queue by queue. *)
Definition advance_wave (w : WaveStateInfo) : WaveStateInfo :=
  if is_faulty w then advance_pc w else w.

Definition advance_queue (q : QueueInfo) : QueueInfo :=
  mkQueue (queueId q)
          (if existsb is_faulty (pWaveList q) then QUEUE_STATUS_FAILURE
           else queueStatus q)
          (map advance_wave (pWaveList q)).

(** Traversal order on wave positions: queue first, then wave. *)
Definition ptr_lt (p p' : WavePtr) : Prop :=
  (fst p < fst p')%nat \/ (fst p = fst p' /\ (snd p < snd p')%nat).

Definition by_position (e e' : Z * WavePtr) : Prop :=
  ptr_lt (snd e) (snd e').

(** First wave recorded for a key, and how many there are. *)
Definition first_with (key : Z) (l : list (Z * WavePtr)) : option WavePtr :=
  snd <$> head (filter (fun e => fst e = key) l).

Definition count_with (key : Z) (l : list (Z * WavePtr)) : nat :=
  length (filter (fun e => fst e = key) l).

Definition total_count (m : gmap Z (Z * WavePtr)) : Z :=
  map_fold (fun _ e acc => fst e + acc) 0 m.

Definition number_of_faulty_waves (a : GPUAgentInfo) : nat :=
  length (filter (fun w => is_faulty w = true)
                 (concat (map pWaveList (pQueueList a)))).

Definition wave_at (a : GPUAgentInfo) (p : WavePtr) : option WaveStateInfo :=
  q ← pQueueList a !! fst p; pWaveList q !! snd p.

(** *** PrintVMFaultInfo *)

Record MemoryFaultInfo : Type := mkFault {
  fault_nodeId : Z;
  virtualAddress : Z;
  faultReasonMask : Z
}.

Record DebugAgentEventInfo : Type := mkEvent {
  eventType : EventType;
  memoryFault : MemoryFaultInfo
}.

Inductive log_line : Type :=
| AGENT_ERROR (msg : string)
| AGENT_PRINT (msg : string).

Definition when (b : bool) (s : string) : string :=
  if b then s else EmptyString.

Definition PrintVMFaultInfo (pDebugAgentEvent : option DebugAgentEventInfo)
  : log_line :=
  match pDebugAgentEvent with
  | None => AGENT_ERROR "Can not find memory fault info when print"
  | Some ev =>
      if decide (eventType ev = DEBUG_AGENT_EVENT_MEMORY_FAULT) then
        let memoryFaultInfo := memoryFault ev in
        let fault_page_idx := Z.shiftr (virtualAddress memoryFaultInfo) 12 in
        let mask := faultReasonMask memoryFaultInfo in
        AGENT_PRINT
          (nl +:+ "Memory access fault at GPU Node: "
           +:+ dec (fault_nodeId memoryFaultInfo) +:+ nl
           +:+ "Address: 0x" +:+ hex_upper fault_page_idx +:+ "xxx ("
           +:+ when (Z.land mask 0x00000001 >? 0) "page not present;"
           +:+ when (Z.land mask 0x00000010 >? 0)
                    "write access to a read-only page;"
           +:+ when (Z.land mask 0x00000100 >? 0)
                    "execute access to a non-executable page;"
           +:+ when (Z.land mask 0x00001000 >? 0)
                    "access to host access only;"
           +:+ when (Z.land mask 0x00010000 >? 0)
                    "uncorrectable ECC failure;"
           +:+ when (Z.land mask 0x00100000 >? 0)
                    "can't determine the exact fault address;"
           +:+ ")" +:+ nl +:+ nl)
      else AGENT_ERROR "Wrong event type when print memory fault info"
  end.

(** The reasons of the fault-reason mask, by bit number. *)
Definition fault_reasons : list (Z * string) :=
  [ (0, "page not present;");
    (4, "write access to a read-only page;");
    (8, "execute access to a non-executable page;");
    (12, "access to host access only;");
    (16, "uncorrectable ECC failure;");
    (20, "can't determine the exact fault address;") ].

Definition reasons_of (mask : Z) : string :=
  foldr String.append EmptyString
    (map snd (filter (fun r => Z.testbit mask (fst r) = true) fault_reasons)).

End MemoryFault.

(** ** The standard library as [code_object.cpp] uses it *)

(** [std::string]: positions are [size_t] values, [npos] is the largest. *)
Module Str.

Definition npos : Z := 2 ^ 64 - 1.

Definition size (s : string) : Z := Z.of_nat (String.length s).

(** [s.find (needle, pos)] for a needle that is not empty. *)
Definition find (s needle : string) (pos : Z) : Z :=
  if pos >? size s then npos
  else match String.index (Z.to_nat pos) needle s with
       | Some i => Z.of_nat i
       | None => npos
       end.

Fixpoint mem (c : ascii) (set : string) : bool :=
  match set with
  | EmptyString => false
  | String c' set' => if Ascii.eqb c c' then true else mem c set'
  end.

Fixpoint first_of (set : string) (s : string) : option nat :=
  match s with
  | EmptyString => None
  | String c s' =>
      if mem c set then Some O else S <$> first_of set s'
  end.

(** [s.find_first_of (set, pos)] *)
Definition find_first_of (s set : string) (pos : Z) : Z :=
  if pos >? size s then npos
  else match first_of set (String.substring (Z.to_nat pos)
                             (String.length s) s) with
       | Some i => pos + Z.of_nat i
       | None => npos
       end.

(** [s.substr (pos, count)]: [std::out_of_range] when [pos > size ()]. *)
Definition substr (s : string) (pos count : Z) : outcome string :=
  if pos >? size s then Throws
  else Returns (String.substring (Z.to_nat pos)
                  (Z.to_nat (Z.min count (size s - pos))) s).

(** [s[i]]; [s[size ()]] is the terminating null character. *)
Definition at_index (s : string) (i : Z) : ascii :=
  match String.get (Z.to_nat i) s with
  | Some c => c
  | None => Ascii.zero
  end.

Definition in_range (lo hi : ascii) (c : ascii) : bool :=
  (nat_of_ascii lo <=? nat_of_ascii c)%nat
  && (nat_of_ascii c <=? nat_of_ascii hi)%nat.

Definition tolower (c : ascii) : ascii :=
  if in_range "A" "Z" c then ascii_of_nat (nat_of_ascii c + 32) else c.

Fixpoint lower (s : string) : string :=
  match s with
  | EmptyString => EmptyString
  | String c s' => String (tolower c) (lower s')
  end.

Definition isspace (c : ascii) : bool :=
  Ascii.eqb c " " || in_range (ascii_of_nat 9) (ascii_of_nat 13) c.

(** The value of a digit in a base up to 16, if it is one. *)
Definition digit_value (base : Z) (c : ascii) : option Z :=
  let v :=
    if in_range "0" "9" c then Some (Z.of_nat (nat_of_ascii c) - 48)
    else if in_range "a" "f" c then Some (Z.of_nat (nat_of_ascii c) - 87)
    else if in_range "A" "F" c then Some (Z.of_nat (nat_of_ascii c) - 55)
    else None in
  match v with
  | Some d => if d <? base then Some d else None
  | None => None
  end.

Definition isxdigit (c : ascii) : bool :=
  match digit_value 16 c with Some _ => true | None => false end.

(** The digits at the head of [s], as a number and how many they are. *)
Fixpoint digits (base : Z) (s : string) (acc : Z) (n : nat) : Z * nat :=
  match s with
  | EmptyString => (acc, n)
  | String c s' =>
      match digit_value base c with
      | Some d => digits base s' (acc * base + d) (S n)
      | None => (acc, n)
      end
  end.

Fixpoint skip_space (s : string) : string :=
  match s with
  | String c s' => if isspace c then skip_space s' else s
  | EmptyString => s
  end.

(** [strtoul]-style conversion of the subject sequence: white space, a
    sign, the prefix that base 0 or 16 admits, digits. [None] when no
    digit is converted; otherwise the sign and the magnitude. *)
Definition convert (base : Z) (s : string) : option (bool * Z) :=
  let s1 := skip_space s in
  let '(negative, s2) :=
    match s1 with
    | String "-" r => (true, r)
    | String "+" r => (false, r)
    | _ => (false, s1)
    end in
  let hex_prefixed :=
    match s2 with
    | String "0" (String x (String d _)) =>
        (Ascii.eqb x "x" || Ascii.eqb x "X") && isxdigit d
    | _ => false
    end in
  let '(base', s3) :=
    if (base =? 0) || (base =? 16) then
      if hex_prefixed then (16, String.substring 2 (String.length s2) s2)
      else if base =? 16 then (16, s2)
      else match s2 with
           | String "0" _ => (8, s2)
           | _ => (10, s2)
           end
    else (base, s2) in
  let '(value, n) := digits base' s3 0 O in
  match n with
  | O => None
  | S _ => Some (negative, value)
  end.

(** [std::stoul (s, nullptr, base)]: [std::invalid_argument] without a
    digit, [std::out_of_range] beyond [ULONG_MAX]; a minus sign negates
    in [unsigned long]. *)
Definition stoul (s : string) (base : Z) : outcome Z :=
  match convert base s with
  | None => Throws
  | Some (negative, value) =>
      if value >? npos then Throws
      else Returns (if negative then wrap64 (- value) else value)
  end.

(** [std::stoi (s, nullptr, base)], with the range of [int]. *)
Definition stoi (s : string) (base : Z) : outcome Z :=
  match convert base s with
  | None => Throws
  | Some (negative, value) =>
      let v := if negative then - value else value in
      if (v <? - 2 ^ 31) || (v >? 2 ^ 31 - 1) then Throws else Returns v
  end.

(** [s += c] with an [int] operand: the character of its low byte. *)
Definition push_back (s : string) (c : Z) : string :=
  s +:+ String (ascii_of_N (Z.to_N (c mod 256))) EmptyString.

(** [s[pos] = c] for [pos] below the size. *)
Fixpoint assign_at (s : string) (pos : nat) (c : ascii) : string :=
  match s with
  | EmptyString => EmptyString
  | String c' s' =>
      match pos with
      | O => String c s'
      | S pos' => String c' (assign_at s' pos' c)
      end
  end.

End Str.

(** [std::map<uint64_t, V>] with its order: the entries by increasing key;
    an iterator is a position, [begin ()] is position 0 and [end ()] is the
    length. *)
Module StdMap.

Section Operations.

Context {V : Type}.

Definition keys (m : list (Z * V)) : list Z := map fst m.

Definition sorted (m : list (Z * V)) : Prop :=
  StronglySorted Z.lt (keys m).

(** [m.upper_bound (k)]: the first entry whose key is greater than [k]. *)
Fixpoint upper_bound (k : Z) (m : list (Z * V)) : nat :=
  match m with
  | [] => O
  | e :: m' => if k <? fst e then O else S (upper_bound k m')
  end.

(** [m.emplace (k, v)]: the position of the entry with key [k], whether
    it was inserted, and the map. *)
Fixpoint emplace (k : Z) (v : V) (m : list (Z * V))
  : nat * bool * list (Z * V) :=
  match m with
  | [] => (O, true, [(k, v)])
  | e :: m' =>
      if k <? fst e then (O, true, (k, v) :: m)
      else if k =? fst e then (O, false, m)
      else let '(it, inserted, m'') := emplace k v m' in
           (S it, inserted, e :: m'')
  end.

(** The value under a key, if there is one. *)
Fixpoint get (k : Z) (m : list (Z * V)) : option V :=
  match m with
  | [] => None
  | e :: m' => if k =? fst e then Some (snd e) else get k m'
  end.

(** [it->second = v] *)
Definition assign (it : nat) (v : V) (m : list (Z * V)) : list (Z * V) :=
  match m !! it with
  | Some e => <[it := (fst e, v)]> m
  | None => m
  end.

End Operations.

End StdMap.

(** *** libelf and libdw

    What the calls of [code_object.cpp] into libelf and libdw return for an
    image. A failed call is [None]. *)

Record GElf_Phdr : Type := mkPhdr {
  p_type : Z;
  p_vaddr : Z;
  p_memsz : Z
}.

Definition PT_LOAD : Z := 1.

(** A symbol as [gelf_getsym] gives it, with what [elf_strptr] returns for
    its [st_name]: the name, or a null pointer. *)
Record GElf_Sym : Type := mkSym {
  elf_strptr : option string;
  st_info : Z;
  st_shndx : Z;
  st_value : Z;
  st_size : Z
}.

Record GElf_Shdr : Type := mkShdr {
  sh_type : Z
}.

Definition GELF_ST_TYPE (info : Z) : Z := Z.land info 0xf.
Definition STT_FUNC : Z := 2.
Definition SHN_UNDEF : Z := 0.
Definition SHT_SYMTAB : Z := 2.
Definition SHT_DYNSYM : Z := 11.

(** A section: what [gelf_getshdr] returns for it, and, when [elf_getdata]
    returns data, what [gelf_getsym] returns for each of its symbols
    ([d_size] divided by the size of a symbol). A null pointer is [None]. *)
Record Elf_Scn : Type := mkScn {
  gelf_getshdr : option GElf_Shdr;
  elf_getdata : option (list (option GElf_Sym))
}.

Record Elf : Type := mkElf {
  elf_getphdrnum : option nat;
  gelf_getphdr : nat -> option GElf_Phdr;
  elf_sections : list Elf_Scn
}.

(** A line of the line-number program, with the file [dwarf_linesrc] names. *)
Record Dwarf_Line : Type := mkLine {
  dwarf_lineaddr : option Z;
  dwarf_linesrc : string;
  dwarf_lineno : option Z
}.

(** A compilation unit as [dwarf_nextcu] reaches it: whether [dwarf_offdie]
    finds its DIE, its bounds and its lines. *)
Record Dwarf_CU : Type := mkCU {
  dwarf_offdie : bool;
  dwarf_lowpc : option Z;
  dwarf_highpc : option Z;
  dwarf_getsrclines : option (list Dwarf_Line)
}.

Definition Dwarf : Type := list Dwarf_CU.

(** ** The environment of a code object *)

Inductive io_event : Type :=
| Warning (format : string)
| FileOpened (path : string)
| FileRead (path : string) (offset size : Z)
| MemoryRead (address size : Z)
| TemporaryCreated (fd : Z)
| Written (fd : Z) (count : Z)
| ElfOpened (fd : Z).

Record World : Type := mkWorld {
  (** The files [std::ifstream] can open, with their bytes. *)
  files : string -> option (list byte);
  (** [amd_dbgapi_read_memory] in the global address space: the bytes an
      access of the given address and size leaves in the buffer. *)
  read_memory : Z -> Z -> option (list byte);
  (** The open file descriptors of the process and what their files hold. *)
  descriptors : gmap Z (list byte);
  (** Whether [::open ("/tmp", O_TMPFILE | O_RDWR)] succeeds. *)
  tmpfile_available : bool;
  (** How many bytes a [::write] accepts. *)
  tmpfile_capacity : Z;
  (** The largest [std::vector<char>] that can be allocated. *)
  max_alloc : Z;
  libelf : list byte -> option Elf;
  libdw : list byte -> option Dwarf;
  cxa_demangle : string -> option string;
  (** Input and output so far, latest last. *)
  trace : list io_event
}.

Definition emit (e : io_event) (w : World) : World :=
  mkWorld (files w) (read_memory w) (descriptors w) (tmpfile_available w)
          (tmpfile_capacity w) (max_alloc w) (libelf w) (libdw w)
          (cxa_demangle w) (trace w ++ [e]).

Definition emit_all (events : list io_event) (w : World) : World :=
  fold_left (fun w e => emit e w) events w.

Definition set_descriptor (fd : Z) (bytes : list byte) (w : World) : World :=
  mkWorld (files w) (read_memory w) (<[fd := bytes]> (descriptors w))
          (tmpfile_available w) (tmpfile_capacity w) (max_alloc w) (libelf w)
          (libdw w) (cxa_demangle w) (trace w).

(** The lowest descriptor that is not open, as POSIX allocates them. *)
Fixpoint lowest_free (fuel : nat) (n : Z) (used : gset Z) : Z :=
  match fuel with
  | O => n
  | S fuel' =>
      if decide (n ∈ used) then lowest_free fuel' (n + 1) (used ∖ {[n]})
      else n
  end.

Definition fresh_descriptor (w : World) : Z :=
  lowest_free (size (dom (descriptors w))) 0 (dom (descriptors w)).

(** ** code_object.cpp *)

Abbreviation symbol_map := (list (Z * (string * Z))).
Abbreviation line_number_map := (list (Z * (string * Z))).
Abbreviation low_high_pc_map := (list (Z * Z)).

Record code_object_t : Type := mkCodeObject {
  m_load_address : Z;
  m_mem_size : Z;
  m_uri : string;
  m_code_object_id : Z;
  m_process_id : Z;
  m_fd : option Z;
  m_symbol_map : option symbol_map;
  m_line_number_map : option line_number_map;
  m_compilation_unit_low_high_pc_map : option low_high_pc_map
}.

(** Modelled from the spec: [is_open] is declared in [code_object.h], which
    is not among the sources. The handle to the materialized copy is valid
    only after a successful [open]; the object is open when it holds one, as
    the destructor's test of [m_fd] has it. *)
Definition is_open (co : code_object_t) : bool :=
  match m_fd co with Some _ => true | None => false end.

Definition set_mem_size (v : Z) (co : code_object_t) : code_object_t :=
  mkCodeObject (m_load_address co) v (m_uri co) (m_code_object_id co)
               (m_process_id co) (m_fd co) (m_symbol_map co)
               (m_line_number_map co) (m_compilation_unit_low_high_pc_map co).

Definition set_fd (fd : Z) (co : code_object_t) : code_object_t :=
  mkCodeObject (m_load_address co) (m_mem_size co) (m_uri co)
               (m_code_object_id co) (m_process_id co) (Some fd)
               (m_symbol_map co) (m_line_number_map co)
               (m_compilation_unit_low_high_pc_map co).

Definition set_symbol_map (m : symbol_map) (co : code_object_t)
  : code_object_t :=
  mkCodeObject (m_load_address co) (m_mem_size co) (m_uri co)
               (m_code_object_id co) (m_process_id co) (m_fd co) (Some m)
               (m_line_number_map co) (m_compilation_unit_low_high_pc_map co).

Definition set_debug_maps (lines : line_number_map) (units : low_high_pc_map)
    (co : code_object_t) : code_object_t :=
  mkCodeObject (m_load_address co) (m_mem_size co) (m_uri co)
               (m_code_object_id co) (m_process_id co) (m_fd co)
               (m_symbol_map co) (Some lines) (Some units).

(** *** open: the URI *)

Record uri_parts : Type := mkUri {
  protocol : string;
  decoded_path : string;
  params : gmap string string
}.

(** The loop that %-decodes [path], from position [i]. *)
Fixpoint percent_decode (fuel : nat) (path : string) (i : Z) (decoded : string)
  : outcome string :=
  match fuel with
  | O => Returns decoded
  | S fuel' =>
      if i <? Str.size path then
        if Ascii.eqb (Str.at_index path i) "%"
           && Str.isxdigit (Str.at_index path (i + 1))
           && Str.isxdigit (Str.at_index path (i + 2))
        then
          hex <- Str.substr path (i + 1) 2;;
          c <- Str.stoi hex 16;;
          percent_decode fuel' path (i + 2 + 1) (Str.push_back decoded c)
        else
          percent_decode fuel' path (i + 1)
            (decoded +:+ String (Str.at_index path i) EmptyString)
      else Returns decoded
  end.

(** The loop that cuts the query at the ampersands, from position [last]. *)
Fixpoint tokenize (fuel : nat) (m_uri : string) (last : Z)
    (tokens : list string) : outcome (list string) :=
  match fuel with
  | O => Returns tokens
  | S fuel' =>
      let pos := Str.find m_uri "&" last in
      if pos =? Str.npos then
        if last =? Str.npos then Returns tokens
        else
          token <- Str.substr m_uri last Str.npos;;
          Returns (tokens ++ [token])
      else
        token <- Str.substr m_uri last (pos - last);;
        tokenize fuel' m_uri (pos + 1) (tokens ++ [token])
  end.

(** [params.emplace (tag, value)] for a token with an equal sign. *)
Definition add_param (params : gmap string string) (token : string)
  : outcome (gmap string string) :=
  let delim := Str.find token "=" 0 in
  if delim =? Str.npos then Returns params
  else
    tag <- Str.substr token 0 delim;;
    value <- Str.substr token (delim + 1) Str.npos;;
    Returns (match params !! tag with
             | Some _ => params
             | None => <[tag := value]> params
             end).

Fixpoint add_params (params : gmap string string) (tokens : list string)
  : outcome (gmap string string) :=
  match tokens with
  | [] => Returns params
  | token :: rest =>
      params' <- add_param params token;;
      add_params params' rest
  end.

(** Lines 135 to 181 of [open]: everything before the [try] block. Both
    loops advance by at least one character a turn, so the length of the
    URI, plus one, bounds their turns. *)
Definition parse_uri (m_uri : string) : outcome uri_parts :=
  let protocol_delim := "://" in
  let protocol_end := Str.find m_uri protocol_delim 0 in
  protocol <- Str.substr m_uri 0 protocol_end;;
  let protocol_end := add64 protocol_end (Str.size protocol_delim) in
  let protocol := Str.lower protocol in
  let path_end := Str.find_first_of m_uri "#?" protocol_end in
  path <- (if negb (path_end =? Str.npos)
           then Str.substr m_uri protocol_end (sub64 path_end protocol_end)
           else Str.substr m_uri protocol_end Str.npos);;
  let path_end := if negb (path_end =? Str.npos) then path_end + 1
                  else path_end in
  decoded_path <- percent_decode (S (String.length path)) path 0 EmptyString;;
  tokens <- tokenize (S (String.length m_uri)) m_uri path_end [];;
  params <- add_params ∅ tokens;;
  Returns (mkUri protocol decoded_path params).

(** *** open: the bytes *)

(** How the [try] block of [open] ends: with a [return], or by reaching its
    end (or its empty [catch (...)] handler) with the buffer as it is. *)
Inductive acquired : Type :=
| GaveUp
| Acquired (buffer : list byte).

(** [file.seekg (offset)], [buffer.resize (size)], [file.read (&buffer[0],
    size)]: what the file has from [offset] on, zeros where it ends early. *)
Definition read_file (content : list byte) (offset size : Z) : list byte :=
  let got := take (Z.to_nat size) (drop (Z.to_nat offset) content) in
  got ++ replicate (Z.to_nat size - length got) x00.

Definition read_from_file (w : World) (path : string) (content : list byte)
    (offset size : Z) : list io_event * acquired :=
  if size >? max_alloc w then ([], Acquired [])
  else ([FileRead path offset size], Acquired (read_file content offset size)).

Definition acquire_from (w : World) (u : uri_parts) (offset size : Z)
  : list io_event * acquired :=
  if String.eqb (protocol u) "file" then
    match files w (decoded_path u) with
    | None => ([Warning "could not open `%s'"], GaveUp)
    | Some content =>
        let opened := FileOpened (decoded_path u) in
        if size =? 0 then
          let bytes := Z.of_nat (length content) in
          if bytes <? offset then
            ([opened; Warning "invalid uri `%s' (file size < offset)"], GaveUp)
          else
            let '(events, got) :=
              read_from_file w (decoded_path u) content offset (bytes - offset)
            in (opened :: events, got)
        else
          let '(events, got) :=
            read_from_file w (decoded_path u) content offset size
          in (opened :: events, got)
    end
  else if String.eqb (protocol u) "memory" then
    if (offset =? 0) || (size =? 0) then
      ([Warning "invalid uri `%s' (offset and size must be != 0"], GaveUp)
    else if size >? max_alloc w then ([], Acquired [])
    else match read_memory w offset size with
         | Some buffer => ([MemoryRead offset size], Acquired buffer)
         | None =>
             ([MemoryRead offset size;
               Warning "could not read memory at 0x%lx"], GaveUp)
         end
  else ([Warning (dquote +:+ "%s" +:+ dquote +:+ " protocol not supported")],
        GaveUp).

(** The [offset] of lines 186 to 189. *)
Definition parse_offset (u : uri_parts) : outcome Z :=
  match params u !! "offset" with
  | Some value => Str.stoul value 0
  | None => Returns 0
  end.

(** Lines 183 to 250 of [open]: what is read and reported, and how the
    block ends. The files and the memory are only read. *)
Definition acquire (w : World) (u : uri_parts) : list io_event * acquired :=
  match parse_offset u with
  | Returns offset =>
      match params u !! "size" with
      | Some value =>
          match Str.stoul value 0 with
          | Returns size =>
              if size =? 0 then ([], GaveUp)
              else acquire_from w u offset size
          | _ => ([], Acquired [])
          end
      | None => acquire_from w u offset 0
      end
  | _ => ([], Acquired [])
  end.

(** *** open: the temporary file and the size in memory *)

(** The loop over the program headers, from header [i] with [n] to go: the
    size reached, and whether every header could be read. *)
Fixpoint scan_program_headers (elf : Elf) (n i : nat) (mem_size : Z)
  : Z * bool :=
  match n with
  | O => (mem_size, true)
  | S n' =>
      match gelf_getphdr elf i with
      | None => (mem_size, false)
      | Some phdr =>
          scan_program_headers elf n' (S i)
            (if p_type phdr =? PT_LOAD
             then Z.max mem_size (add64 (p_vaddr phdr) (p_memsz phdr))
             else mem_size)
      end
  end.

(** Lines 252 to 299 of [open]. *)
Definition materialize (w : World) (co : code_object_t) (buffer : list byte)
  : World * code_object_t :=
  if negb (tmpfile_available w) then
    (emit (Warning "could not create a temporary file for code object") w, co)
  else
    let fd := fresh_descriptor w in
    let w := emit (TemporaryCreated fd) (set_descriptor fd [] w) in
    let size := Z.min (Z.of_nat (length buffer)) (tmpfile_capacity w) in
    let w := emit (Written fd size)
                  (set_descriptor fd (take (Z.to_nat size) buffer) w) in
    if negb (size =? Z.of_nat (length buffer)) then
      (emit (Warning "could not write to the temporary file") w, co)
    else
      match content ← descriptors w !! fd; libelf w content with
      | None => (emit (Warning "elf_begin failed for `%s'") w, co)
      | Some elf =>
          let w := emit (ElfOpened fd) w in
          match elf_getphdrnum elf with
          | None => (emit (Warning "elf_getphdrnum failed for `%s'") w, co)
          | Some phnum =>
              match scan_program_headers elf phnum 0 (m_mem_size co) with
              | (mem_size, false) =>
                  (emit (Warning "gelf_getphdr failed for `%s'") w,
                   set_mem_size mem_size co)
              | (mem_size, true) => (w, set_fd fd (set_mem_size mem_size co))
              end
          end
      end.

(** [code_object_t::open] *)
Definition open (w : World) (co : code_object_t)
  : outcome (World * code_object_t) :=
  u <- parse_uri (m_uri co);;
  let '(events, got) := acquire w u in
  let w := emit_all events w in
  match got with
  | GaveUp => Returns (w, co)
  | Acquired buffer => Returns (materialize w co buffer)
  end.

(** The world once a buffer is in a new temporary file under [fd]. *)
Definition store_temporary (w : World) (fd : Z) (buffer : list byte) : World :=
  emit (Written fd (Z.of_nat (length buffer)))
       (set_descriptor fd buffer
          (emit (TemporaryCreated fd) (set_descriptor fd [] w))).

(** Two states of the world with the same files, memory and libraries. *)
Definition same_environment (w w' : World) : Prop :=
  files w' = files w /\ read_memory w' = read_memory w /\
  tmpfile_available w' = tmpfile_available w /\
  tmpfile_capacity w' = tmpfile_capacity w /\ max_alloc w' = max_alloc w /\
  libelf w' = libelf w /\ libdw w' = libdw w /\
  cxa_demangle w' = cxa_demangle w.

(** The end of the highest loadable segment among the first [n] program
    headers, or [mem_size] if that is larger. *)
Definition segment_step (elf : Elf) (acc : Z) (i : nat) : Z :=
  match gelf_getphdr elf i with
  | Some phdr =>
      if p_type phdr =? PT_LOAD
      then Z.max acc (add64 (p_vaddr phdr) (p_memsz phdr))
      else acc
  | None => acc
  end.

Definition load_segments_end (elf : Elf) (n : nat) (mem_size : Z) : Z :=
  fold_left (segment_step elf) (seq 0 n) mem_size.

(** *** load_symbol_map and find_symbol *)

(** A loop over a list whose body may not return: it ends where the body
    does. *)
Fixpoint for_each {A B : Type} (body : B -> A -> outcome B) (l : list A)
    (b : B) : outcome B :=
  match l with
  | [] => Returns b
  | a :: l' => b' <- body b a;; for_each body l' b'
  end.

(** The body of the loop over the symbols of a section, lines 366 to 384,
    for what [gelf_getsym] returns. The result of [gelf_getsym] is read and
    that of [elf_strptr] made a [std::string] without a test: on a null
    pointer neither has a defined behaviour. *)
Definition add_symbol (load_address : Z) (m : symbol_map)
    (sym : option GElf_Sym) : outcome symbol_map :=
  match sym with
  | None => UndefinedBehaviour
  | Some sym =>
      if negb (GELF_ST_TYPE (st_info sym) =? STT_FUNC)
         || (st_shndx sym =? SHN_UNDEF)
      then Returns m
      else
        match elf_strptr sym with
        | None => UndefinedBehaviour
        | Some symbol_name =>
            let '(it, success, m) :=
              StdMap.emplace (add64 load_address (st_value sym))
                             (symbol_name, st_size sym) m in
            Returns
              match m !! it with
              | Some (_, (_, size)) =>
                  if negb success && (st_size sym >? size)
                  then StdMap.assign it (symbol_name, st_size sym) m
                  else m
              | None => m
              end
        end
  end.

(** The body of the loop over the sections, lines 353 to 385; the result of
    [gelf_getshdr] is read without a test. *)
Definition add_section (load_address : Z) (m : symbol_map) (scn : Elf_Scn)
  : outcome symbol_map :=
  match gelf_getshdr scn with
  | None => UndefinedBehaviour
  | Some shdr =>
      if negb (sh_type shdr =? SHT_SYMTAB) && negb (sh_type shdr =? SHT_DYNSYM)
      then Returns m
      else match elf_getdata scn with
           | None => Returns m
           | Some symbols => for_each (add_symbol load_address) symbols m
           end
  end.

(** [elf_begin] on the descriptor [m_fd] holds. *)
Definition elf_begin (w : World) (co : code_object_t) : option Elf :=
  fd ← m_fd co; content ← descriptors w !! fd; libelf w content.

(** [code_object_t::load_symbol_map] *)
Definition load_symbol_map (w : World) (co : code_object_t)
  : outcome code_object_t :=
  if negb (is_open co) then Aborts
  else match m_symbol_map co with
       | Some _ => Returns co
       | None =>
           match elf_begin w co with
           | None => Returns co
           | Some elf =>
               m <- for_each (add_section (m_load_address co))
                             (elf_sections elf) [];;
               Returns (set_symbol_map m co)
           end
       end.

Record symbol_info_t : Type := mkSymbolInfo {
  m_name : string;
  m_value : Z;
  m_size : Z
}.

(** Lines 109 to 129: the search in a symbol map that is there. *)
Definition lookup_symbol (w : World) (m : symbol_map) (address : Z)
  : option symbol_info_t :=
  match StdMap.upper_bound address m with
  | O => None
  | S prev =>
      match m !! prev with
      | Some (symbol_value, symbol) =>
          if address <? add64 symbol_value (snd symbol) then
            let symbol_name :=
              match cxa_demangle w (fst symbol) with
              | Some demangled_name => demangled_name
              | None => fst symbol
              end in
            Some (mkSymbolInfo symbol_name symbol_value (snd symbol))
          else None
      | None => None
      end
  end.

(** [code_object_t::find_symbol]; [m_symbol_map->] on a map that was not
    built has no defined behaviour. *)
Definition find_symbol (w : World) (co : code_object_t) (address : Z)
  : outcome (option symbol_info_t * code_object_t) :=
  co <- load_symbol_map w co;;
  match m_symbol_map co with
  | None => UndefinedBehaviour
  | Some m => Returns (lookup_symbol w m address, co)
  end.

(** *** What the symbol index is compared with *)

Definition defined_function (sym : GElf_Sym) : Prop :=
  GELF_ST_TYPE (st_info sym) = STT_FUNC /\ st_shndx sym <> SHN_UNDEF.

(** What [gelf_getsym] returns for the symbols of a section that is a symbol
    table with data, in the order of the scan. *)
Definition symbols_of_section (scn : Elf_Scn) : list (option GElf_Sym) :=
  match gelf_getshdr scn, elf_getdata scn with
  | Some shdr, Some symbols =>
      if decide (sh_type shdr = SHT_SYMTAB \/ sh_type shdr = SHT_DYNSYM)
      then symbols else []
  | _, _ => []
  end.

Definition symbol_key (load_address : Z) (sym : GElf_Sym) : Z :=
  add64 load_address (st_value sym).

(** A defined function symbol with its name: the address, the name and the
    size it is scanned with. *)
Definition scanned_entry (load_address : Z) (sym : option GElf_Sym)
  : option (Z * (string * Z)) :=
  sym ← sym;
  if decide (defined_function sym)
  then name ← elf_strptr sym;
       Some (symbol_key load_address sym, (name, st_size sym))
  else None.

(** The defined function symbols of an image in the order of the scan. *)
Definition scanned_symbols (load_address : Z) (elf : Elf)
  : list (Z * (string * Z)) :=
  omap (scanned_entry load_address)
       (concat (map symbols_of_section (elf_sections elf))).

(** The names and sizes scanned for an address, in the order of the scan. *)
Definition symbols_at (k : Z) (l : list (Z * (string * Z)))
  : list (string * Z) :=
  map snd (filter (fun e => fst e = k) l).

(** What an entry becomes when one more symbol of its address is seen. *)
Definition keep_larger (entry : option (string * Z)) (seen : string * Z)
  : option (string * Z) :=
  match entry with
  | Some (name, size) =>
      if snd seen >? size then Some seen else Some (name, size)
  | None => Some seen
  end.

(** What the scan needs of libelf to go through: [gelf_getshdr] returns a
    header for every section, and in the symbol tables [gelf_getsym] returns
    every symbol and [elf_strptr] the name of every defined function. *)
Definition symbol_readable (sym : option GElf_Sym) : Prop :=
  match sym with
  | None => False
  | Some sym => defined_function sym -> is_Some (elf_strptr sym)
  end.

Definition section_readable (scn : Elf_Scn) : Prop :=
  is_Some (gelf_getshdr scn) /\
  Forall symbol_readable (symbols_of_section scn).

Definition scan_readable (elf : Elf) : Prop :=
  Forall section_readable (elf_sections elf).

(** What a loop of the scan over [items] comes to, from the index [m]: it
    returns a sorted index that holds, under each address, what
    [keep_larger] makes of the entries scanned for it, or, where libelf
    returns a null pointer, it has no defined behaviour. *)
Definition scan_result {A : Type} (readable : A -> Prop)
    (entries : list A -> list (Z * (string * Z))) (items : list A)
    (m : symbol_map) (result : outcome symbol_map) : Prop :=
  (Forall readable items /\
   exists m' : symbol_map,
     result = Returns m' /\ StdMap.sorted m' /\
     forall k, StdMap.get k m' =
               fold_left keep_larger (symbols_at k (entries items))
                         (StdMap.get k m)) \/
  (~ Forall readable items /\ result = UndefinedBehaviour).

(** *** load_debug_info *)

(** The body of the loop over the lines of a unit, lines 432 to 447. *)
Definition add_line (load_address : Z) (m : line_number_map)
    (line : Dwarf_Line) : line_number_map :=
  let addr := match dwarf_lineaddr line with Some a => a | None => 0 end in
  let file := dwarf_linesrc line in
  let line_number :=
    match dwarf_lineno line with Some n => n | None => 0 end in
  if negb (addr =? 0) && negb (line_number =? 0)
  then snd (StdMap.emplace (add64 load_address addr) (file, line_number) m)
  else m.

(** The loop over the compilation units. A [continue] leaves [cu_offset]
    where it is, so that [dwarf_nextcu] finds the same unit again, for
    ever. *)
Fixpoint load_units (load_address : Z) (units : list Dwarf_CU)
    (lines : line_number_map) (ranges : low_high_pc_map)
  : outcome (line_number_map * low_high_pc_map) :=
  match units with
  | [] => Returns (lines, ranges)
  | cu :: rest =>
      if negb (dwarf_offdie cu) then Diverges
      else
        let ranges :=
          match dwarf_lowpc cu, dwarf_highpc cu with
          | Some lowpc, Some highpc =>
              snd (StdMap.emplace (add64 load_address lowpc)
                                  (add64 load_address highpc) ranges)
          | _, _ => ranges
          end in
        match dwarf_getsrclines cu with
        | None => Diverges
        | Some cu_lines =>
            load_units load_address rest
                       (fold_left (add_line load_address) cu_lines lines)
                       ranges
        end
  end.

(** [dwarf_begin] on the descriptor [m_fd] holds. *)
Definition dwarf_begin (w : World) (co : code_object_t) : option Dwarf :=
  fd ← m_fd co; content ← descriptors w !! fd; libdw w content.

(** [code_object_t::load_debug_info] *)
Definition load_debug_info (w : World) (co : code_object_t)
  : outcome code_object_t :=
  if negb (is_open co) then Aborts
  else
    match m_line_number_map co, m_compilation_unit_low_high_pc_map co with
    | Some _, Some _ => Returns co
    | _, _ =>
        match dwarf_begin w co with
        | None => Returns co
        | Some dbg =>
            maps <- load_units (m_load_address co) dbg [] [];;
            Returns (set_debug_maps (fst maps) (snd maps) co)
        end
    end.

(** *** disassemble *)

Definition context_byte_size : Z := 32.

(** The [do ... while] of lines 480 to 486, entered with [it] past
    [begin ()]: the position it stops at. *)
Fixpoint walk_back (m : line_number_map) (pc : Z) (it : nat) : nat :=
  match it with
  | O => O
  | S it' =>
      match m !! it' with
      | Some entry =>
          if sub64 pc (fst entry) >=? context_byte_size then it'
          else match it' with
               | O => it'
               | S _ => walk_back m pc it'
               end
      | None => it'
      end
  end.

(** Lines 477 to 496. *)
Definition window_start (m : line_number_map) (pc : Z) : Z :=
  match StdMap.upper_bound pc m with
  | O => pc
  | S _ as it =>
      match m !! walk_back m pc it with
      | Some entry => fst entry
      | None => pc
      end
  end.

(** Lines 498 to 511. *)
Definition clamp_window (m : low_high_pc_map) (pc start_pc end_pc : Z)
  : Z * Z :=
  match StdMap.upper_bound pc m with
  | O => (start_pc, end_pc)
  | S prev =>
      match m !! prev with
      | Some (low_pc, high_pc) =>
          if pc <? high_pc
          then (Z.max start_pc low_pc, Z.min end_pc high_pc)
          else (start_pc, end_pc)
      | None => (start_pc, end_pc)
      end
  end.

(** Lines 466 to 511 of [disassemble]: the debug information is loaded and
    the window chosen. Both maps are read through [->] whether they were
    built or not. *)
Definition disassembly_window (w : World) (co : code_object_t) (pc : Z)
  : outcome (Z * Z * code_object_t) :=
  co <- load_debug_info w co;;
  match m_line_number_map co with
  | None => UndefinedBehaviour
  | Some lines =>
      let start_pc := window_start lines pc in
      let end_pc := add64 pc context_byte_size in
      match m_compilation_unit_low_high_pc_map co with
      | None => UndefinedBehaviour
      | Some units =>
          let '(start_pc, end_pc) := clamp_window units pc start_pc end_pc in
          Returns (start_pc, end_pc, co)
      end
  end.

(** What the instruction loop prints for an address. *)
Inductive listing_line : Type :=
| Instruction (addr : Z) (current : bool) (text : string)
| CannotAccess (addr : Z).

(** The debugger library as [disassemble] calls it: the largest
    instruction size of the architecture, whether
    [amd_dbgapi_read_memory] can read the instruction bytes at an address,
    and the size and the text [amd_dbgapi_disassemble_instruction] gives for
    the instruction there. A query that fails is [None]; [agent_error] then
    ends the process. *)
Record Decoder : Type := mkDecoder {
  largest_instruction_size : option Z;
  readable : Z -> bool;
  disassemble_instruction : Z -> option (Z * string)
}.

(** The loop of lines 529 to 650 for [turns] turns at most, without the
    source lines it interleaves: the instruction lines printed, and whether
    the loop is over. *)
Fixpoint instruction_loop (d : Decoder) (turns : nat) (pc addr end_pc : Z)
  : outcome (list listing_line * bool) :=
  match turns with
  | O => Returns ([], negb (addr <? end_pc))
  | S turns' =>
      if addr <? end_pc then
        if negb (readable d addr) then Returns ([CannotAccess addr], true)
        else match disassemble_instruction d addr with
             | None => Aborts
             | Some (size, instruction) =>
                 rest <- instruction_loop d turns' pc (add64 addr size) end_pc;;
                 Returns (Instruction addr (addr =? pc) instruction :: fst rest,
                          snd rest)
             end
      else Returns ([], true)
  end.

(** [code_object_t::disassemble], up to [turns] instructions. *)
Definition disassemble (w : World) (d : Decoder) (turns : nat)
    (co : code_object_t) (pc : Z)
  : outcome (list listing_line * bool * code_object_t) :=
  match largest_instruction_size d with
  | None => Aborts
  | Some _ =>
      window <- disassembly_window w co pc;;
      let '(start_pc, end_pc, co) := window in
      found <- find_symbol w co pc;;
      listing <- instruction_loop d turns pc start_pc end_pc;;
      Returns (fst listing, snd listing, snd found)
  end.

Definition printed_addresses (l : list listing_line) : list Z :=
  omap (fun line => match line with
                    | Instruction addr _ _ => Some addr
                    | CannotAccess _ => None
                    end) l.

(** *** An instance of the parameters

    Statuses and event types are booleans ([true] is the unsupported agent,
    the failed queue, the memory-fault event), there is no register beside
    [pc] and [trapsts], and the XNACK error is bit 28 of [trapsts]. *)

Definition example_xnack (trapsts : Z) : bool := Z.testbit trapsts 28.

Definition example_wave (pc trapsts : Z) : WaveStateInfo unit :=
  mkWave unit (mkRegs unit pc trapsts tt).

Definition example_queues : list (QueueInfo bool unit) :=
  [ mkQueue bool unit 1 false
      [ example_wave 0x1000 (2 ^ 28); example_wave 0x2000 0;
        example_wave 0x1000 (2 ^ 28) ];
    mkQueue bool unit 2 false [ example_wave 0x2000 0 ];
    mkQueue bool unit 3 false [ example_wave 0x3000 (2 ^ 28) ] ].

Definition example_agent (status : bool) : GPUAgentInfo bool bool unit :=
  mkAgent bool bool unit 1 "gfx900" status example_queues.

Definition example_FindFaultyWaves
  : GPUAgentInfo bool bool unit ->
    gmap Z (Z * WavePtr) * GPUAgentInfo bool bool unit :=
  FindFaultyWaves bool true bool true unit example_xnack.

Definition example_event (mask : Z) : DebugAgentEventInfo bool :=
  mkEvent bool true (mkFault 1 0x7F00DEADB000 mask).

(** *** A code object in a file

    The file [/tmp/a.co] holds an image with two loadable segments and a
    symbol table: [f] of size 0x10 at 0x100, two symbols of sizes 4 and 8 at
    0x400, two symbols of size 8 at 0x500, an undefined function and an
    object. *)

Definition example_image : list byte := [x7f; x45; x4c; x46].

Definition example_symbols : list (option GElf_Sym) :=
  [ Some (mkSym (Some "f") 2 1 0x100 0x10);
    Some (mkSym (Some "small") 2 1 0x400 4);
    Some (mkSym (Some "big") 2 1 0x400 8);
    Some (mkSym (Some "first") 2 1 0x500 8);
    Some (mkSym (Some "second") 18 1 0x500 8);
    Some (mkSym (Some "extern") 2 0 0x600 8);
    Some (mkSym None 1 1 0x700 64) ].

Definition example_elf : Elf :=
  mkElf (Some 2%nat)
        (fun i => match i with
                  | O => Some (mkPhdr PT_LOAD 0 0x1000)
                  | S O => Some (mkPhdr PT_LOAD 0x1000 0x2000)
                  | _ => None
                  end)
        [ mkScn (Some (mkShdr 1)) None;
          mkScn (Some (mkShdr SHT_SYMTAB)) (Some example_symbols) ].

(** A second image, [/tmp/cut.co], announces two program headers and lets
    only the first be read; the bytes of [/tmp/bad.co] are no ELF image. *)
Definition example_cut_elf : Elf :=
  mkElf (Some 2%nat)
        (fun i => match i with
                  | O => Some (mkPhdr PT_LOAD 0 0x1000)
                  | _ => None
                  end)
        [].

Definition example_world : World :=
  mkWorld (fun path =>
             if String.eqb path "/tmp/a.co" then Some example_image
             else if String.eqb path "/tmp/cut.co" then Some [x7f; x00]
             else if String.eqb path "/tmp/bad.co" then Some [x00; x01]
             else None)
          (fun _ _ => None)
          ∅ true (2 ^ 32) (2 ^ 32)
          (fun bytes => match bytes with
                        | x7f :: x45 :: _ => Some example_elf
                        | x7f :: _ => Some example_cut_elf
                        | _ => None
                        end)
          (fun _ => None)
          (fun _ => None)
          [].

Definition example_code_object (uri : string) : code_object_t :=
  mkCodeObject 0 0 uri 1 1 None None None None.

(** What [open] makes of the URI [file:///tmp/a.co?offset=0&size=0]. *)
Definition example_zero_size_uri : uri_parts :=
  mkUri "file" "/tmp/a.co" (<["size" := "0"]> (<["offset" := "0"]> ∅)).

(** The world and the object as [open] leaves them for [/tmp/a.co], with
    the image under descriptor 0. *)
Definition example_opened_world : World :=
  emit (ElfOpened 0)
       (store_temporary
          (emit_all [FileOpened "/tmp/a.co"; FileRead "/tmp/a.co" 0 4]
                    example_world)
          0 example_image).

Definition example_opened : code_object_t :=
  mkCodeObject 0 0x3000 "file:///tmp/a.co" 1 1 (Some 0) None None None.

(** An image whose only symbol, [f] of size 16, starts 8 bytes before the
    end of the 64-bit address space, and the world of the opened object with
    libelf reading that image. *)
Definition example_wrap_elf : Elf :=
  mkElf (Some 0%nat) (fun _ => None)
        [ mkScn (Some (mkShdr SHT_SYMTAB))
                (Some [ Some (mkSym (Some "f") 2 1 0xFFFFFFFFFFFFFFF8 16) ]) ].

Definition example_wrap_world : World :=
  mkWorld (files example_opened_world) (read_memory example_opened_world)
          (descriptors example_opened_world)
          (tmpfile_available example_opened_world)
          (tmpfile_capacity example_opened_world)
          (max_alloc example_opened_world)
          (fun _ => Some example_wrap_elf)
          (libdw example_opened_world) (cxa_demangle example_opened_world)
          (trace example_opened_world).

(** The same object with its symbol index and debug maps built: no line
    entry and one compilation unit. *)
Definition example_one_unit : code_object_t :=
  mkCodeObject 0 0x3000 "file:///tmp/a.co" 1 1 (Some 0) (Some []) (Some [])
               (Some [(0x100, 0x310)]).

(** Debug information with two compilation units, the second inside the
    address interval of the first, and no line entry. *)
Definition example_nested_dwarf : Dwarf :=
  [ mkCU true (Some 0x100) (Some 0x310) (Some []);
    mkCU true (Some 0x200) (Some 0x210) (Some []) ].

Definition example_nested_world : World :=
  mkWorld (files example_opened_world) (read_memory example_opened_world)
          (descriptors example_opened_world) true (2 ^ 32) (2 ^ 32)
          (libelf example_opened_world)
          (fun _ => Some example_nested_dwarf)
          (fun _ => None) [].

(** A decoder for which every address is readable and every instruction
    takes four bytes. *)
Definition example_decoder : Decoder :=
  mkDecoder (Some 8) (fun _ => true) (fun _ => Some (4, "s_nop 0")).

(** An agent none of whose waves reports an XNACK error. *)
Definition example_quiet_agent : GPUAgentInfo bool bool unit :=
  mkAgent bool bool unit 2 "gfx906" false
    [ mkQueue bool unit 7 false [ example_wave 0x2000 0; example_wave 0x2008 1 ];
      mkQueue bool unit 8 false [] ].

(** An entry of the aggregation under its key plus 8. *)
Definition shift_key (e : Z * WavePtr) : Z * WavePtr :=
  (add64 (fst e) 8, snd e).

(** ** HSADebugAgentHandleMemoryFault

    The handler around [PrintVMFaultInfo] and [FindFaultyWaves]. Its
    collaborators are parameters: [CleanUpQueueWaveState] and
    [ProcessQueueWaveStates], taken to act on the queue their arguments
    name, and the event types of the runtime. [GetAgentFromList] is taken
    to find the agent of the event, the same one for the handle and for
    the node id. *)

Section MemoryFaultHandler.

Variable AgentStatus : Type.
Variable AGENT_STATUS_UNSUPPORTED : AgentStatus.
Context `{AgentStatusEq : EqDecision AgentStatus}.
Variable QueueStatus : Type.
Variable QUEUE_STATUS_FAILURE : QueueStatus.
Variable EventType : Type.
Variable DEBUG_AGENT_EVENT_MEMORY_FAULT : EventType.
Context `{EventTypeEq : EqDecision EventType}.
Variable OtherRegisters : Type.
Variable SQ_WAVE_TRAPSTS_XNACK_ERROR : Z -> bool.
Variable HsaEventType : Type.
Variable GPU_MEMORY_FAULT_EVENT : HsaEventType.
Context `{HsaEventTypeEq : EqDecision HsaEventType}.
Variable CleanUpQueueWaveState :
  Z -> QueueInfo QueueStatus OtherRegisters -> QueueInfo QueueStatus OtherRegisters.
Variable ProcessQueueWaveStates :
  Z -> QueueInfo QueueStatus OtherRegisters ->
  bool * QueueInfo QueueStatus OtherRegisters.

Record hsa_amd_event_t : Type := mkHsaEvent {
  event_type : HsaEventType;
  memory_fault_virtual_address : Z;
  memory_fault_reason_mask : Z
}.

Inductive hsa_status_t : Type :=
| HSA_STATUS_SUCCESS
| HSA_STATUS_ERROR.

Inductive agent_output : Type :=
| Logged (line : log_line)
| GPUEventTriggered
| WavesPrinted (waves : gmap Z (Z * WavePtr)).

(** The globals the handler reads and writes, with the agent of the event
    and what has been printed. The lock is [true] while it is held. *)
Record DebugAgent : Type := mkDebugAgent {
  g_debugAgentInitialSuccess : bool;
  g_gdbAttached : bool;
  debugAgentAccessLock : bool;
  pDebugAgentEvent : option (DebugAgentEventInfo EventType);
  faulting_agent : GPUAgentInfo AgentStatus QueueStatus OtherRegisters;
  printed : list agent_output
}.

(** The loop of lines 95 to 106: the queues as it leaves them, and whether
    every [ProcessQueueWaveStates] succeeded. *)
Fixpoint process_queues (node : Z)
    (queues : list (QueueInfo QueueStatus OtherRegisters))
  : bool * list (QueueInfo QueueStatus OtherRegisters) :=
  match queues with
  | [] => (true, [])
  | pQueue :: rest =>
      let '(ok, pQueue) :=
        ProcessQueueWaveStates node (CleanUpQueueWaveState node pQueue) in
      if ok then
        let '(ok, rest) := process_queues node rest in (ok, pQueue :: rest)
      else (false, pQueue :: rest)
  end.

(** [HSADebugAgentHandleMemoryFault]. Taking a lock that is held does not
    return. *)
Definition HSADebugAgentHandleMemoryFault (event : hsa_amd_event_t)
    (g : DebugAgent) : outcome (hsa_status_t * DebugAgent) :=
  if negb (g_debugAgentInitialSuccess g) then Returns (HSA_STATUS_ERROR, g)
  else if decide (event_type event <> GPU_MEMORY_FAULT_EVENT)
  then Returns (HSA_STATUS_ERROR, g)
  else if debugAgentAccessLock g then Diverges
  else
    let pAgent := faulting_agent g in
    match pDebugAgentEvent g with
    | None =>
        Returns
          (HSA_STATUS_ERROR,
           mkDebugAgent (g_debugAgentInitialSuccess g) (g_gdbAttached g) true
             None pAgent
             (printed g ++
              [Logged (AGENT_ERROR
                         "Can not locate event info in _r_rocm_debug_info")]))
    | Some _ =>
        let pEventInfo :=
          mkEvent EventType DEBUG_AGENT_EVENT_MEMORY_FAULT
            (mkFault (nodeId _ _ _ pAgent)
                     (memory_fault_virtual_address event)
                     (memory_fault_reason_mask event)) in
        if g_gdbAttached g then
          Returns
            (HSA_STATUS_SUCCESS,
             mkDebugAgent (g_debugAgentInitialSuccess g) (g_gdbAttached g)
               false (Some pEventInfo) pAgent
               (printed g ++ [GPUEventTriggered]))
        else
          let '(ok, queues) :=
            process_queues (nodeId _ _ _ pAgent) (pQueueList _ _ _ pAgent) in
          let pAgent :=
            mkAgent _ _ _ (nodeId _ _ _ pAgent) (agentName _ _ _ pAgent)
                    (agentStatus _ _ _ pAgent) queues in
          if negb ok then
            Returns
              (HSA_STATUS_ERROR,
               mkDebugAgent (g_debugAgentInitialSuccess g) (g_gdbAttached g)
                 false (Some pEventInfo) pAgent (printed g))
          else
            let report :=
              PrintVMFaultInfo EventType DEBUG_AGENT_EVENT_MEMORY_FAULT
                               (Some pEventInfo) in
            let '(waves, pAgent) :=
              FindFaultyWaves AgentStatus AGENT_STATUS_UNSUPPORTED QueueStatus
                QUEUE_STATUS_FAILURE OtherRegisters
                SQ_WAVE_TRAPSTS_XNACK_ERROR pAgent in
            Returns
              (HSA_STATUS_SUCCESS,
               mkDebugAgent (g_debugAgentInitialSuccess g) (g_gdbAttached g)
                 false (Some pEventInfo) pAgent
                 (printed g ++ [Logged report; WavesPrinted waves]))
    end.

End MemoryFaultHandler.

(** The handler for the example instance: event types are booleans, the
    wave states of a queue are taken as they are. *)
Definition example_handler
  : hsa_amd_event_t bool -> DebugAgent bool bool bool unit ->
    outcome (hsa_status_t * DebugAgent bool bool bool unit) :=
  HSADebugAgentHandleMemoryFault bool true bool true bool true unit
    example_xnack bool true (fun _ q => q) (fun _ q => (true, q)).

Definition example_debug_agent (event : option (DebugAgentEventInfo bool))
  : DebugAgent bool bool bool unit :=
  mkDebugAgent bool bool bool unit true false false event
               (example_agent false) [].

(** ** code_object.cpp, continued *)

(** The value of [size] the body of the [try] block of [open] goes on with:
    zero without a size parameter, otherwise what the parameter converts to,
    which is then not zero. *)
Definition size_request (u : uri_parts) (size : Z) : Prop :=
  (params u !! "size" = None /\ size = 0) \/
  (exists value, params u !! "size" = Some value /\
                 Str.stoul value 0 = Returns size /\ size <> 0).

Definition unsupported_protocol_warning : string :=
  dquote +:+ "%s" +:+ dquote +:+ " protocol not supported".

(** *** Construction, move and destruction *)

(** [code_object_t::code_object_t (process_id, code_object_id)]: the two
    queries of [amd_dbgapi_code_object_get_info], each [None] when it fails,
    and the object with its warning. The members the constructor does not
    reach keep their initial values: [initial] stands for those of
    [m_load_address] and [m_mem_size], which the header gives; the URI is an
    empty string and the optional members are disengaged. *)
Definition construct (initial_load_address initial_mem_size : Z)
    (process_id code_object_id : Z)
    (load_address : option Z) (uri_name : option string)
  : code_object_t * list io_event :=
  let co := mkCodeObject initial_load_address initial_mem_size EmptyString
                         code_object_id process_id None None None None in
  match load_address with
  | None => (co, [Warning "could not get the code object's load address"])
  | Some address =>
      let co := mkCodeObject address initial_mem_size EmptyString
                             code_object_id process_id None None None None in
      match uri_name with
      | None => (co, [Warning "could not get the code object's URI"])
      | Some value =>
          (mkCodeObject address initial_mem_size value code_object_id
                        process_id None None None None, [])
      end
  end.

(** [code_object_t::code_object_t (code_object_t &&rhs)]: the new object and
    [rhs] as the move leaves it, [moved_from] being what is left of its
    URI. The maps are not among the members copied. *)
Definition move_construct (rhs : code_object_t) (moved_from : string)
  : code_object_t * code_object_t :=
  (mkCodeObject (m_load_address rhs) (m_mem_size rhs) (m_uri rhs)
                (m_code_object_id rhs) (m_process_id rhs) (m_fd rhs)
                None None None,
   mkCodeObject (m_load_address rhs) (m_mem_size rhs) moved_from
                (m_code_object_id rhs) (m_process_id rhs) None
                (m_symbol_map rhs) (m_line_number_map rhs)
                (m_compilation_unit_low_high_pc_map rhs)).

Definition close_descriptor (fd : Z) (w : World) : World :=
  mkWorld (files w) (read_memory w) (delete fd (descriptors w))
          (tmpfile_available w) (tmpfile_capacity w) (max_alloc w) (libelf w)
          (libdw w) (cxa_demangle w) (trace w).

(** [code_object_t::~code_object_t] *)
Definition destroy (co : code_object_t) (w : World) : World :=
  match m_fd co with
  | Some fd => close_descriptor fd w
  | None => w
  end.

(** *** What the debug maps are compared with *)

(** The entry a line of the line-number program is recorded as: its address
    and its line number are known and not zero. *)
Definition line_entry (load_address : Z) (line : Dwarf_Line)
    (k : Z) (v : string * Z) : Prop :=
  exists addr line_number,
    dwarf_lineaddr line = Some addr /\ addr <> 0 /\
    dwarf_lineno line = Some line_number /\ line_number <> 0 /\
    k = add64 load_address addr /\ v = (dwarf_linesrc line, line_number).

(** A unit [load_debug_info] gets past: its DIE and its lines are found. *)
Definition unit_readable (cu : Dwarf_CU) : Prop :=
  dwarf_offdie cu = true /\ is_Some (dwarf_getsrclines cu).

(** Debug information with one unit and three lines, of which the second
    has no line number and the third repeats the address of the first. *)
Definition example_dwarf : Dwarf :=
  [ mkCU true (Some 0x100) (Some 0x200)
         (Some [ mkLine (Some 0x100) "kernel.cpp" (Some 10);
                 mkLine (Some 0x104) "kernel.cpp" None;
                 mkLine (Some 0x100) "kernel.cpp" (Some 11) ]) ].

Definition example_dwarf_world (dbg : Dwarf) : World :=
  mkWorld (files example_opened_world) (read_memory example_opened_world)
          (descriptors example_opened_world) true (2 ^ 32) (2 ^ 32)
          (libelf example_opened_world)
          (fun _ => Some dbg)
          (fun _ => None) [].

(** The address a line of the listing is printed for. *)
Definition line_address (line : listing_line) : Z :=
  match line with
  | Instruction addr _ _ => addr
  | CannotAccess addr => addr
  end.

(** A line map with an entry far below and an entry just below 0x1004. *)
Definition example_sparse_lines : line_number_map :=
  [ (0x100, ("kernel.cpp", 3)); (0x1000, ("kernel.cpp", 9)) ].

(** A decoder that cannot read memory from 0x108 on. *)
Definition example_partial_decoder : Decoder :=
  mkDecoder (Some 8) (fun addr => addr <? 0x108)
            (fun _ => Some (4, "s_nop 0")).

(** ** save *)

(** The characters [save] takes out of the URI. *)
Definition reserved : string := ":/#?&=".

(** The loop of lines 662 and 663 for [turns] turns at most: the name, and
    whether the loop is over. *)
Fixpoint replace_reserved (turns : nat) (name : string) : string * bool :=
  let pos := Str.find_first_of name reserved 0 in
  match turns with
  | O => (name, pos =? Str.npos)
  | S turns' =>
      if negb (pos =? Str.npos)
      then replace_reserved turns' (Str.assign_at name (Z.to_nat pos) "_")
      else (name, true)
  end.

(** What the loop is compared with: the name with an underscore for each of
    the characters. *)
Fixpoint underscored (s : string) : string :=
  match s with
  | EmptyString => EmptyString
  | String c s' =>
      String (if Str.mem c reserved then "_"%char else c) (underscored s')
  end.

(** What [save] asks of the file system beside the temporary file: whether a
    [std::ofstream] on a path is good once the bytes are written and it is
    closed, and how many bytes a [::read] of so many gives. *)
Record Storage : Type := mkStorage {
  ofstream_good : string -> list byte -> bool;
  read_gives : Z -> Z
}.

(** [code_object_t::save]. The loop over the name ends within as many turns
    as the name has characters. [lseek] on a descriptor that is not open
    gives -1, and a vector of that many elements cannot be made. *)
Definition save (w : World) (st : Storage) (co : code_object_t)
    (directory : string) : outcome bool :=
  if negb (is_open co) then Aborts
  else
    let name := fst (replace_reserved (String.length (m_uri co)) (m_uri co)) in
    let file_path := (directory ++ "/" ++ name)%string in
    match fd ← m_fd co; descriptors w !! fd with
    | None => Throws
    | Some content =>
        let size := Z.of_nat (length content) in
        if size >? max_alloc w then Throws
        else if negb (read_gives st size =? size) then Returns false
        else Returns (ofstream_good st file_path content)
    end.

(** A file system that stores what is written under [/tmp/dump]. *)
Definition example_storage : Storage :=
  mkStorage (fun path _ => String.prefix "/tmp/dump/" path) (fun size => size).

(** ** get_source_file_index *)

(** The lines of a source file, each as its bytes. *)
Abbreviation source_lines := (list (list byte)).

(** The static [file_map]. *)
Abbreviation file_map_t := (gmap string source_lines).

(** The loop [while (std::getline (file, line))] of lines 323 and 324 over
    what is left of the file, [line] being what the current call has
    extracted so far: a newline ends a line and is dropped, and at the end
    of the file a call that extracts nothing fails. *)
Fixpoint getlines (content line : list byte) : source_lines :=
  match content with
  | [] => match line with
          | [] => []
          | _ :: _ => [line]
          end
  | b :: rest =>
      if Byte.eqb b x0a then line :: getlines rest []
      else getlines rest (line ++ [b])
  end.

(** [get_source_file_index]: the lines, or nothing for the null pointer, and
    the map as the call leaves it. The assertion on [emplace] cannot fail
    after the [find]. *)
Definition get_source_file_index (w : World) (file_map : file_map_t)
    (file_name : string) : option source_lines * file_map_t :=
  match file_map !! file_name with
  | Some lines => (Some lines, file_map)
  | None =>
      match files w file_name with
      | None => (None, file_map)
      | Some content =>
          let lines := getlines content [] in
          (Some lines, <[file_name := lines]> file_map)
      end
  end.

(** The map after a sequence of calls, each in a world of its own. *)
Definition lookup_all (file_map : file_map_t) (calls : list (World * string))
  : file_map_t :=
  fold_left (fun file_map call =>
               snd (get_source_file_index (fst call) file_map (snd call)))
            calls file_map.

(** What a file is compared with its lines: the file with a newline at its
    end, if it is not empty and does not have one. *)
Definition newline_terminated (content : list byte) : list byte :=
  match last content with
  | None => []
  | Some b => if Byte.eqb b x0a then content else content ++ [x0a]
  end.

(** ** The source lines of a listing *)

(** What lines 531 to 590 print: an empty line, the name of a file, a line
    number with the text of the line where the file has it, a line number
    with the message that there is no such file. *)
Inductive source_output : Type :=
| Blank
| FileName (file_name : string)
| Numbered (line : Z) (text : option (list byte))
| NoSuchFile (line : Z) (file_name : string).

Definition printed_line (o : source_output) : option Z :=
  match o with
  | Numbered line _ => Some line
  | NoSuchFile line _ => Some line
  | Blank | FileName _ => None
  end.

(** The locals [prev_file_name] and [prev_line_number] of [disassemble] and
    the static map of [get_source_file_index]. *)
Record source_state : Type := mkSourceState {
  prev_file_name : string;
  prev_line_number : Z;
  file_map : file_map_t
}.

(** The [std::find_if] of lines 556 to 566: whether an address has the line
    of the file. *)
Definition has_line (m : line_number_map) (file_name : string)
    (first_line : Z) : bool :=
  existsb (fun value => String.eqb file_name (fst (snd value))
                        && (first_line =? snd (snd value))) m.

(** The loop of lines 554 to 568 for [turns] turns at most: [first_line]
    when it ends. *)
Fixpoint search_first_line (turns : nat) (m : line_number_map)
    (file_name : string) (prev_line_number first_line : Z) : Z :=
  match turns with
  | O => first_line
  | S turns' =>
      let first_line := sub64 first_line 1 in
      if first_line >? prev_line_number then
        if has_line m file_name first_line then first_line
        else search_first_line turns' m file_name prev_line_number first_line
      else first_line
  end.

(** The body of the loop of lines 574 to 585; [lines->at (line - 1)] throws
    out of range. *)
Definition print_line (w : World) (file_map : file_map_t)
    (file_name : string) (line : Z) : outcome (source_output * file_map_t) :=
  match get_source_file_index w file_map file_name with
  | (None, file_map) => Returns (NoSuchFile line file_name, file_map)
  | (Some lines, file_map) =>
      if line <=? Z.of_nat (length lines) then
        match lines !! Z.to_nat (sub64 line 1) with
        | Some text => Returns (Numbered line (Some text), file_map)
        | None => Throws
        end
      else Returns (Numbered line None, file_map)
  end.

(** The loop of lines 574 to 585 from [line] for [count] lines. *)
Fixpoint print_lines (w : World) (file_map : file_map_t)
    (file_name : string) (line : Z) (count : nat)
  : outcome (list source_output * file_map_t) :=
  match count with
  | O => Returns ([], file_map)
  | S count' =>
      printed <- print_line w file_map file_name line;;
      rest <- print_lines w (snd printed) file_name (line + 1) count';;
      Returns (fst printed :: fst rest, snd rest)
  end.

(** Lines 531 to 590: what is printed before the instruction at [addr]. The
    search for the first line ends within as many turns as there are lines
    after the previous one, and the lines from [first_line] to [last_line],
    below the largest [size_t], are [last_line - first_line + 1]. *)
Definition source_block (w : World) (m : line_number_map)
    (st : source_state) (addr : Z)
  : outcome (list source_output * source_state) :=
  match StdMap.get addr m with
  | None => Returns ([], st)
  | Some (file_name, line_number) =>
      let same_file := String.eqb file_name (prev_file_name st) in
      let same_line := line_number =? prev_line_number st in
      let blank := if negb same_file || negb same_line then [Blank] else [] in
      let header := if negb same_file then [FileName file_name] else [] in
      if negb same_line then
        let last_line := line_number in
        let first_line :=
          if same_file && (line_number >? prev_line_number st) then
            add64 (search_first_line
                     (Z.to_nat (line_number - prev_line_number st)) m
                     file_name (prev_line_number st) line_number) 1
          else line_number in
        printed <- print_lines w (file_map st) file_name first_line
                     (Z.to_nat (last_line - first_line + 1));;
        Returns (blank ++ header ++ fst printed,
                 mkSourceState file_name line_number (snd printed))
      else
        Returns (blank ++ header,
                 mkSourceState file_name line_number (file_map st))
  end.

(** A source file of three lines, the last without a newline, and a line
    map with the lines 2 and 5 of it. *)
Definition example_source : list byte :=
  [x61; x0a; x0a; x62].

Definition example_source_world : World :=
  mkWorld (fun path => if String.eqb path "kernel.cpp"
                       then Some example_source else None)
          (fun _ _ => None) ∅ true (2 ^ 32) (2 ^ 32) (fun _ => None)
          (fun _ => None) (fun _ => None) [].

Definition example_source_map : line_number_map :=
  [ (0x100, ("kernel.cpp", 2)); (0x108, ("kernel.cpp", 5)) ].

(* ===================================================================== *)
(** * Part II: properties                                                 *)
(* ===================================================================== *)

(** ** Machine integers *)

Lemma wrap64_small z : 0 <= z < 2 ^ 64 -> wrap64 z = z.
Proof. intros H. unfold wrap64. apply Z.mod_small. exact H. Qed.

Lemma add64_wrap_l a b : add64 (wrap64 a) b = wrap64 (a + b).
Proof. unfold add64, wrap64. rewrite Zplus_mod_idemp_l. reflexivity. Qed.

(** ** Fault-wave aggregation *)

Section MemoryFaultProperties.

Context {AgentStatus : Type} (UNSUPPORTED : AgentStatus).
Context `{AgentStatusEq : EqDecision AgentStatus}.
Context {QueueStatus : Type} (FAILURE : QueueStatus).
Context {OtherRegisters : Type} (xnack : Z -> bool).

Local Abbreviation Wave := (WaveStateInfo OtherRegisters).
Local Abbreviation Queue := (QueueInfo QueueStatus OtherRegisters).
Local Abbreviation Agent := (GPUAgentInfo AgentStatus QueueStatus OtherRegisters).
Local Abbreviation faulty := (is_faulty OtherRegisters xnack).
Local Abbreviation advance := (advance_pc OtherRegisters).
Local Abbreviation adv_wave := (advance_wave OtherRegisters xnack).
Local Abbreviation adv_queue := (advance_queue QueueStatus FAILURE OtherRegisters xnack).
Local Abbreviation scanw := (scan_waves QueueStatus FAILURE OtherRegisters xnack).
Local Abbreviation scanq := (scan_queues QueueStatus FAILURE OtherRegisters xnack).
Local Abbreviation find_faulty :=
  (FindFaultyWaves AgentStatus UNSUPPORTED QueueStatus FAILURE OtherRegisters xnack).
Local Abbreviation faulty_q := (faulty_of_queue QueueStatus OtherRegisters xnack).
Local Abbreviation faulty_qs := (faulty_from QueueStatus OtherRegisters xnack).
Local Abbreviation faulty_all :=
  (faulty_waves AgentStatus QueueStatus OtherRegisters xnack).
Local Abbreviation wave_of := (wave_at AgentStatus QueueStatus OtherRegisters).
Local Abbreviation faulty_ws := (faulty_of_waves OtherRegisters xnack).

Lemma scan_waves_spec qi waves : forall wi status m,
  scanw qi wi waves status m =
    (map adv_wave waves,
     if existsb faulty waves then FAILURE else status,
     record_all (faulty_ws qi wi waves) m).
Proof.
  induction waves as [|w waves IH]; intros wi status m; [reflexivity|].
  cbn [scan_waves map existsb]. unfold advance_wave at 1.
  unfold faulty_of_waves. cbn [number_from]. rewrite filter_cons. cbn [snd].
  destruct (faulty w) eqn:Hw.
  - rewrite IH. rewrite decide_True by reflexivity.
    cbn [orb map fst snd record_all fold_left].
    destruct (existsb faulty waves); reflexivity.
  - rewrite IH. rewrite decide_False by discriminate.
    cbn [orb]. reflexivity.
Qed.

Lemma record_all_app l1 l2 m :
  record_all (l1 ++ l2) m = record_all l2 (record_all l1 m).
Proof. unfold record_all. apply fold_left_app. Qed.

Lemma scan_queues_spec queues : forall qi m,
  scanq qi queues m =
    (map adv_queue queues, record_all (faulty_qs qi queues) m).
Proof.
  induction queues as [|q queues IH]; intros qi m; [reflexivity|].
  cbn [scan_queues]. rewrite scan_waves_spec, IH.
  unfold faulty_from, faulty_of_queue. cbn [number_from map concat fst snd].
  rewrite record_all_app. reflexivity.
Qed.

(** *** The map after a list of faulty waves has been recorded *)

Lemma first_with_snoc k l e :
  first_with k (l ++ [e]) =
    match first_with k l with
    | Some p => Some p
    | None => if decide (fst e = k) then Some (snd e) else None
    end.
Proof.
  unfold first_with. rewrite filter_app.
  destruct (filter (fun e0 : Z * WavePtr => fst e0 = k) l) as [|x xs] eqn:Hf.
  - cbn [app]. rewrite filter_cons, filter_nil.
    destruct (decide (fst e = k)); reflexivity.
  - reflexivity.
Qed.

Lemma count_with_snoc k l e :
  count_with k (l ++ [e]) =
    (count_with k l + if decide (fst e = k) then 1 else 0)%nat.
Proof.
  unfold count_with. rewrite filter_app, length_app.
  rewrite filter_cons, filter_nil.
  destruct (decide (fst e = k)); reflexivity.
Qed.

Lemma first_with_None_count k l :
  first_with k l = None -> count_with k l = 0%nat.
Proof.
  unfold first_with, count_with.
  destruct (filter (fun e0 : Z * WavePtr => fst e0 = k) l); [reflexivity|discriminate].
Qed.

Lemma count_with_le k l : (count_with k l <= length l)%nat.
Proof. unfold count_with. apply length_filter. Qed.

Lemma record_all_lookup l : forall k,
  record_all l ∅ !! k =
    (fun p => (wrap64 (Z.of_nat (count_with k l)), p)) <$> first_with k l.
Proof.
  induction l as [|e l IH] using rev_ind; intros k.
  - cbn. apply lookup_empty.
  - rewrite record_all_app. cbn [record_all fold_left].
    rewrite first_with_snoc, count_with_snoc.
    unfold record_faulty. rewrite (IH (fst e)).
    destruct (decide (fst e = k)) as [->|Hne].
    + destruct (first_with k l) as [p|] eqn:Hfirst; cbn [fmap option_fmap option_map].
      * rewrite lookup_insert_eq. cbn. f_equal. f_equal.
        rewrite add64_wrap_l. f_equal. lia.
      * rewrite lookup_insert_eq. cbn.
        rewrite (first_with_None_count _ _ Hfirst). reflexivity.
    + rewrite Nat.add_0_r.
      destruct (first_with (fst e) l) as [p|]; cbn [fmap option_fmap option_map];
        rewrite lookup_insert_ne by exact Hne; rewrite IH;
        destruct (first_with k l); reflexivity.
Qed.

(** *** The sum of the counts *)

Lemma total_count_insert_fresh (m : gmap Z (Z * WavePtr)) k v :
  m !! k = None -> total_count (<[k := v]> m) = fst v + total_count m.
Proof.
  intros Hk. unfold total_count.
  rewrite map_fold_insert_L; [reflexivity| |exact Hk].
  intros. lia.
Qed.

Lemma total_count_insert_present (m : gmap Z (Z * WavePtr)) k v v' :
  m !! k = Some v ->
  total_count (<[k := v']> m) = total_count m - fst v + fst v'.
Proof.
  intros Hk.
  rewrite <- (insert_delete_eq m k v').
  rewrite total_count_insert_fresh by apply lookup_delete_eq.
  unfold total_count at 2.
  rewrite (map_fold_delete_L _ _ k v m); [|intros; lia|exact Hk].
  fold (total_count (delete k m)). lia.
Qed.

Lemma record_all_total l :
  Z.of_nat (length l) < 2 ^ 64 ->
  total_count (record_all l ∅) = Z.of_nat (length l).
Proof.
  induction l as [|e l IH] using rev_ind; intros Hlen.
  - reflexivity.
  - rewrite length_app in Hlen. cbn [length] in Hlen.
    rewrite record_all_app. cbn [record_all fold_left].
    unfold record_faulty.
    pose proof (record_all_lookup l (fst e)) as Hlk.
    pose proof (count_with_le (fst e) l) as Hle.
    destruct (first_with (fst e) l) as [p|] eqn:Hfirst;
      cbn [fmap option_fmap option_map] in Hlk; rewrite Hlk.
    + rewrite (total_count_insert_present _ _ _ _ Hlk). cbn [fst].
      rewrite IH by lia. rewrite add64_wrap_l.
      rewrite !wrap64_small by lia. rewrite length_app. cbn [length]. lia.
    + rewrite (total_count_insert_fresh _ _ _ Hlk). cbn [fst].
      rewrite IH by lia. rewrite length_app. cbn [length]. lia.
Qed.

(** *** The faulty waves, by position *)

Lemma elem_number_from {A : Type} (l : list A) : forall n i x,
  (i, x) ∈ number_from n l <-> (n <= i)%nat /\ l !! (i - n)%nat = Some x.
Proof.
  induction l as [|y l IH]; intros n i x; cbn [number_from].
  - rewrite elem_of_nil. split; [tauto|]. intros [_ H]. discriminate.
  - rewrite elem_of_cons, IH. split.
    + intros [Heq|[Hle Hl]].
      * inversion Heq; subst. split; [lia|]. rewrite Nat.sub_diag. reflexivity.
      * split; [lia|]. replace (i - n)%nat with (S (i - S n)) by lia. exact Hl.
    + intros [Hle Hl]. destruct (decide (i = n)) as [->|Hne].
      * left. rewrite Nat.sub_diag in Hl. cbn in Hl. congruence.
      * right. split; [lia|].
        replace (i - n)%nat with (S (i - S n)) in Hl by lia. exact Hl.
Qed.

Lemma elem_faulty_of_waves qi wi waves k p :
  (k, p) ∈ faulty_ws qi wi waves <->
  fst p = qi /\ (wi <= snd p)%nat /\
  exists w, waves !! (snd p - wi)%nat = Some w /\ faulty w = true /\
            k = add64 (pc _ (regs _ w)) 8.
Proof.
  unfold faulty_of_waves. rewrite list_elem_of_In, in_map_iff. split.
  - intros [[i w] [Heq Hin]]. cbn [fst snd] in Heq. inversion Heq; subst.
    apply list_elem_of_In, list_elem_of_filter in Hin as [Hf Hin].
    apply elem_number_from in Hin as [Hle Hl]. cbn [fst snd] in *. eauto 6.
  - intros (Hq & Hle & w & Hl & Hf & ->). exists (snd p, w). cbn [fst snd].
    split; [destruct p; cbn in *; congruence|].
    apply list_elem_of_In, list_elem_of_filter. split; [exact Hf|].
    apply elem_number_from. auto.
Qed.

Lemma faulty_from_cons qi q queues :
  faulty_qs qi (q :: queues) = faulty_q qi q ++ faulty_qs (S qi) queues.
Proof. reflexivity. Qed.

Lemma elem_faulty_from queues : forall qi k p,
  (k, p) ∈ faulty_qs qi queues <->
  (qi <= fst p)%nat /\
  exists q w, queues !! (fst p - qi)%nat = Some q /\
              pWaveList _ _ q !! snd p = Some w /\ faulty w = true /\
              k = add64 (pc _ (regs _ w)) 8.
Proof.
  induction queues as [|q queues IH]; intros qi k p.
  - unfold faulty_from. cbn. rewrite elem_of_nil. split; [tauto|].
    intros (_ & q & w & H & _). discriminate.
  - rewrite faulty_from_cons, elem_of_app, IH.
    unfold faulty_of_queue. rewrite elem_faulty_of_waves. split.
    + intros [(Hq & _ & w & Hl & Hf & Hk)|(Hle & q' & w & Hq & Hl & Hf & Hk)].
      * split; [lia|]. exists q, w. rewrite Hq, Nat.sub_diag.
        rewrite Nat.sub_0_r in Hl. auto.
      * split; [lia|]. exists q', w.
        replace (fst p - qi)%nat with (S (fst p - S qi)) by lia. auto.
    + intros (Hle & q' & w & Hq & Hl & Hf & Hk).
      destruct (decide (fst p = qi)) as [Heq|Hne].
      * left. rewrite Heq, Nat.sub_diag in Hq. cbn in Hq. inversion Hq; subst q'.
        rewrite Nat.sub_0_r. split; [exact Heq|]. split; [lia|]. eauto.
      * right. split; [lia|]. exists q', w.
        replace (fst p - qi)%nat with (S (fst p - S qi)) in Hq by lia. auto.
Qed.

Lemma elem_faulty_waves (a : Agent) k p :
  (k, p) ∈ faulty_all a <->
  exists w, wave_of a p = Some w /\ faulty w = true /\
            k = add64 (pc _ (regs _ w)) 8.
Proof.
  unfold faulty_waves, wave_at. rewrite elem_faulty_from, Nat.sub_0_r. split.
  - intros (_ & q & w & Hq & Hl & Hf & Hk). exists w. rewrite Hq. cbn. auto.
  - intros (w & Hw & Hf & Hk). split; [lia|].
    destruct (pQueueList _ _ _ a !! fst p) as [q|] eqn:Hq; [|discriminate].
    cbn in Hw. eauto 6.
Qed.

(** *** Traversal order *)

Lemma faulty_of_waves_sorted qi waves : forall wi,
  StronglySorted by_position (faulty_ws qi wi waves).
Proof.
  induction waves as [|w waves IH]; intros wi; [constructor|].
  unfold faulty_of_waves. cbn [number_from]. rewrite filter_cons. cbn [snd].
  destruct (decide (faulty w = true)) as [Hf|Hf]; [|apply IH].
  cbn [map]. constructor; [apply IH|].
  apply Forall_forall. intros [k p] Hin.
  apply (elem_faulty_of_waves qi (S wi) waves k p) in Hin as (Hq & Hle & _).
  right. cbn in *. split; [congruence|lia].
Qed.

Lemma faulty_from_sorted queues : forall qi,
  StronglySorted by_position (faulty_qs qi queues).
Proof.
  induction queues as [|q queues IH]; intros qi; [constructor|].
  rewrite faulty_from_cons. apply StronglySorted_app_2.
  - intros [k1 p1] [k2 p2] H1 H2.
    apply elem_faulty_of_waves in H1 as (Hq & _).
    apply elem_faulty_from in H2 as (Hle & _).
    left. cbn in *. lia.
  - apply faulty_of_waves_sorted.
  - apply IH.
Qed.

Lemma first_with_earliest k (l : list (Z * WavePtr)) p :
  StronglySorted by_position l ->
  first_with k l = Some p ->
  (k, p) ∈ l /\ forall p', (k, p') ∈ l -> p' = p \/ ptr_lt p p'.
Proof.
  intros Hs. unfold first_with.
  induction Hs as [|e l Hs IH Hall]; [discriminate|].
  rewrite filter_cons. destruct (decide (fst e = k)) as [Hk|Hk].
  - destruct e as [k' p0]. cbn in Hk. subst k'. cbn. intros [= <-].
    split; [left|]. intros p'' Hin. apply elem_of_cons in Hin as [Heq|Hin].
    + left. congruence.
    + right. rewrite Forall_forall in Hall. apply (Hall _ Hin).
  - intros Hh. destruct (IH Hh) as [Hin Hmin]. split; [right; exact Hin|].
    intros p' Hin'. apply elem_of_cons in Hin' as [Heq|Hin'].
    + subst e. cbn in Hk. congruence.
    + apply Hmin, Hin'.
Qed.

Lemma first_with_is_Some k (l : list (Z * WavePtr)) :
  is_Some (first_with k l) <-> exists p, (k, p) ∈ l.
Proof.
  unfold first_with. split.
  - intros [p Hp].
    destruct (filter (fun e : Z * WavePtr => fst e = k) l) as [|[k' p'] r] eqn:Hf;
      [discriminate|].
    assert (Hin : (k', p') ∈ filter (fun e : Z * WavePtr => fst e = k) l)
      by (rewrite Hf; left).
    apply list_elem_of_filter in Hin as [Hk Hin]. cbn in Hk. subst k'. eauto.
  - intros [p Hin].
    assert (Hin' : (k, p) ∈ filter (fun e : Z * WavePtr => fst e = k) l)
      by (apply list_elem_of_filter; auto).
    destruct (filter (fun e : Z * WavePtr => fst e = k) l); [inversion Hin'|].
    cbn. eauto.
Qed.

Lemma faulty_of_waves_length qi waves : forall wi,
  length (faulty_ws qi wi waves) =
  length (filter (fun w : Wave => faulty w = true) waves).
Proof.
  induction waves as [|w waves IH]; intros wi; [reflexivity|].
  unfold faulty_of_waves. cbn [number_from]. rewrite !filter_cons. cbn [snd].
  destruct (decide (faulty w = true)); cbn [map length]; [f_equal|]; apply IH.
Qed.

Lemma faulty_waves_length (a : Agent) :
  length (faulty_all a) =
  number_of_faulty_waves AgentStatus QueueStatus OtherRegisters xnack a.
Proof.
  unfold faulty_waves, number_of_faulty_waves.
  generalize 0%nat. induction (pQueueList _ _ _ a) as [|q queues IH]; intros qi.
  - reflexivity.
  - rewrite faulty_from_cons. cbn [map concat].
    rewrite filter_app, !length_app, IH. f_equal.
    apply faulty_of_waves_length.
Qed.

(** *** The call as a whole *)

Lemma FindFaultyWaves_supported (a : Agent) :
  agentStatus _ _ _ a <> UNSUPPORTED ->
  find_faulty a =
    (record_all (faulty_all a) ∅,
     mkAgent _ _ _ (nodeId _ _ _ a) (agentName _ _ _ a) (agentStatus _ _ _ a)
             (map adv_queue (pQueueList _ _ _ a))).
Proof.
  intros Hs. unfold FindFaultyWaves. rewrite decide_False by exact Hs.
  rewrite scan_queues_spec. reflexivity.
Qed.

Lemma FindFaultyWaves_unsupported (a : Agent) :
  agentStatus _ _ _ a = UNSUPPORTED -> find_faulty a = (∅, a).
Proof.
  intros Hs. unfold FindFaultyWaves. rewrite decide_True by exact Hs.
  reflexivity.
Qed.

Lemma lookup_map {A B : Type} (f : A -> B) (l : list A) i :
  map f l !! i = f <$> l !! i.
Proof.
  revert i. induction l as [|x l IH]; intros [|i]; cbn; auto.
Qed.

Lemma existsb_elem {A : Type} (f : A -> bool) (l : list A) :
  existsb f l = true <-> exists x, x ∈ l /\ f x = true.
Proof.
  rewrite existsb_exists. split; intros [x [H1 H2]]; exists x;
    split; auto; apply list_elem_of_In; exact H1.
Qed.

(** C1: for an agent that is not unsupported, the keys of the map returned
    by [FindFaultyWaves] are exactly the advanced program counters (old pc
    plus 8, on 64 bits) of the waves whose trap status reports an XNACK
    error; the counts add up to the number of those waves; and every key
    carries how many faulty waves advanced to it together with the first of
    them in traversal order, which after the call holds the key as its
    program counter. *)
Theorem FindFaultyWaves_aggregates (a : Agent) :
  agentStatus _ _ _ a <> UNSUPPORTED ->
  Z.of_nat (number_of_faulty_waves AgentStatus QueueStatus OtherRegisters xnack a)
    < 2 ^ 64 ->
  let m := fst (find_faulty a) in
  let a' := snd (find_faulty a) in
  (forall k, is_Some (m !! k) <->
     exists p w, wave_of a p = Some w /\ faulty w = true /\
                 k = add64 (pc _ (regs _ w)) 8) /\
  total_count m =
    Z.of_nat (number_of_faulty_waves AgentStatus QueueStatus OtherRegisters xnack a) /\
  (forall k c p, m !! k = Some (c, p) ->
     (exists w, wave_of a p = Some w /\ faulty w = true /\
                add64 (pc _ (regs _ w)) 8 = k) /\
     (forall p' w', wave_of a p' = Some w' -> faulty w' = true ->
                    add64 (pc _ (regs _ w')) 8 = k -> p' = p \/ ptr_lt p p') /\
     c = Z.of_nat (count_with k (faulty_all a)) /\
     (exists w', wave_of a' p = Some w' /\ pc _ (regs _ w') = k)).
Proof.
  intros Hs Hlen m a'. subst m a'.
  rewrite FindFaultyWaves_supported by exact Hs. cbn [fst snd].
  rewrite <- faulty_waves_length in *.
  split; [|split].
  - intros k. rewrite record_all_lookup, fmap_is_Some, first_with_is_Some.
    split.
    + intros [p Hin]. apply elem_faulty_waves in Hin. eauto.
    + intros (p & w & H). exists p. apply elem_faulty_waves. eauto.
  - apply record_all_total. exact Hlen.
  - intros k c p Hlk. rewrite record_all_lookup in Hlk.
    destruct (first_with k (faulty_all a)) as [p0|] eqn:Hfirst; [|discriminate].
    cbn in Hlk. inversion Hlk; subst c p0; clear Hlk.
    destruct (first_with_earliest _ _ _ (faulty_from_sorted _ _) Hfirst)
      as [Hin Hmin].
    apply elem_faulty_waves in Hin as (w & Hw & Hf & Hk).
    split; [eauto|]. split; [|split].
    + intros p' w' Hw' Hf' Hk'. apply Hmin, elem_faulty_waves. eauto.
    + pose proof (count_with_le k (faulty_all a)).
      apply wrap64_small. lia.
    + unfold wave_at in *. cbn [pQueueList]. rewrite lookup_map.
      destruct (pQueueList _ _ _ a !! fst p) as [q|]; [|discriminate].
      cbn in *. rewrite lookup_map, Hw. cbn.
      exists (adv_wave w). split; [reflexivity|].
      unfold advance_wave. rewrite Hf. cbn. congruence.
Qed.

(** C8: the scan keeps the agent's fields, the number and identity of its
    queues and the number of waves in each; a queue status either stays or
    becomes the failure status, the latter only for a queue that holds a
    faulty wave; a wave keeps its trap status and other registers, a wave
    that is not faulty is unchanged, and a program counter either stays or
    has moved by 8, the latter only for a faulty wave. When the agent is
    not unsupported, every faulty wave has moved and every queue holding
    one is marked. *)
Theorem FindFaultyWaves_frame (a : Agent) :
  let a' := snd (find_faulty a) in
  nodeId _ _ _ a' = nodeId _ _ _ a /\
  agentName _ _ _ a' = agentName _ _ _ a /\
  agentStatus _ _ _ a' = agentStatus _ _ _ a /\
  length (pQueueList _ _ _ a') = length (pQueueList _ _ _ a) /\
  forall qi (q : Queue), pQueueList _ _ _ a !! qi = Some q ->
    exists q' : Queue, pQueueList _ _ _ a' !! qi = Some q' /\
      queueId _ _ q' = queueId _ _ q /\
      length (pWaveList _ _ q') = length (pWaveList _ _ q) /\
      (queueStatus _ _ q' = queueStatus _ _ q \/
       (queueStatus _ _ q' = FAILURE /\
        exists w, w ∈ pWaveList _ _ q /\ faulty w = true)) /\
      (agentStatus _ _ _ a <> UNSUPPORTED ->
       (exists w, w ∈ pWaveList _ _ q /\ faulty w = true) ->
       queueStatus _ _ q' = FAILURE) /\
      forall wi (w : Wave), pWaveList _ _ q !! wi = Some w ->
        exists w' : Wave, pWaveList _ _ q' !! wi = Some w' /\
          trapsts _ (regs _ w') = trapsts _ (regs _ w) /\
          other_regs _ (regs _ w') = other_regs _ (regs _ w) /\
          (faulty w = false -> w' = w) /\
          (pc _ (regs _ w') = pc _ (regs _ w) \/
           (faulty w = true /\
            pc _ (regs _ w') = add64 (pc _ (regs _ w)) 8)) /\
          (agentStatus _ _ _ a <> UNSUPPORTED -> faulty w = true ->
           pc _ (regs _ w') = add64 (pc _ (regs _ w)) 8).
Proof.
  intros a'. subst a'.
  destruct (decide (agentStatus _ _ _ a = UNSUPPORTED)) as [Hu|Hs].
  - rewrite FindFaultyWaves_unsupported by exact Hu. cbn [snd].
    repeat (split; [reflexivity|]).
    intros qi q Hq. exists q. split; [exact Hq|].
    repeat (split; [reflexivity|]). split; [left; reflexivity|].
    split; [contradiction|].
    intros wi w Hw. exists w. split; [exact Hw|].
    split; [reflexivity|]. split; [reflexivity|]. split; [reflexivity|].
    split; [left; reflexivity|contradiction].
  - rewrite FindFaultyWaves_supported by exact Hs. cbn [snd nodeId agentName agentStatus pQueueList].
    repeat (split; [reflexivity|]).
    split; [apply length_map|].
    intros qi q Hq. exists (adv_queue q).
    rewrite lookup_map, Hq. split; [reflexivity|].
    unfold advance_queue. cbn [queueId queueStatus pWaveList].
    split; [reflexivity|]. split; [apply length_map|].
    split; [|split].
    + destruct (existsb faulty (pWaveList _ _ q)) eqn:He; [right|left; reflexivity].
      split; [reflexivity|]. apply existsb_elem. exact He.
    + intros _ He. apply existsb_elem in He. rewrite He. reflexivity.
    + intros wi w Hw. exists (adv_wave w).
      rewrite lookup_map, Hw.
      split; [reflexivity|]. unfold advance_wave.
      destruct (faulty w) eqn:Hf; cbn.
      * split; [reflexivity|]. split; [reflexivity|]. split; [discriminate|].
        split; [right; split; reflexivity|reflexivity].
      * split; [reflexivity|]. split; [reflexivity|]. split; [reflexivity|].
        split; [left; reflexivity|discriminate].
Qed.

End MemoryFaultProperties.

(** C1, as stated for every store, fails on an unsupported agent: the wave
    at position (0, 0) of [example_agent true] is faulty and would advance to
    0x1008, and the map returned is empty. *)
Lemma FindFaultyWaves_unsupported_counterexample :
  ~ (forall k,
       is_Some (fst (example_FindFaultyWaves (example_agent true)) !! k) <->
       exists p w, wave_at bool bool unit (example_agent true) p = Some w /\
                   is_faulty unit example_xnack w = true /\
                   k = add64 (pc unit (regs unit w)) 8).
Proof.
  intros H. destruct (H 0x1008) as [_ Hk].
  destruct Hk as [v Hv].
  - exists (0%nat, 0%nat), (example_wave 0x1000 (2 ^ 28)).
    split; [reflexivity|]. split; reflexivity.
  - vm_compute in Hv. discriminate.
Qed.

Lemma FindFaultyWaves_aggregates_witness :
  agentStatus bool bool unit (example_agent false) <> true /\
  total_count (fst (example_FindFaultyWaves (example_agent false))) = 3.
Proof.
  assert (Hs : agentStatus bool bool unit (example_agent false) <> true)
    by discriminate.
  split; [exact Hs|].
  refine (proj1 (proj2 (FindFaultyWaves_aggregates true true example_xnack
                          (example_agent false) Hs _))).
  vm_compute. reflexivity.
Defined.

(** ** The memory-fault report *)

Lemma land_pow2 m k :
  0 <= k -> Z.land m (2 ^ k) = if Z.testbit m k then 2 ^ k else 0.
Proof.
  intros Hk. apply Z.bits_inj'. intros i Hi.
  rewrite Z.land_spec, Z.pow2_bits_eqb by exact Hk.
  destruct (Z.eqb_spec k i) as [->|Hne].
  - rewrite andb_true_r. destruct (Z.testbit m i) eqn:Hb.
    + rewrite Z.pow2_bits_true by exact Hi. reflexivity.
    + rewrite Z.bits_0. reflexivity.
  - rewrite andb_false_r. destruct (Z.testbit m k).
    + rewrite Z.pow2_bits_false by exact Hne. reflexivity.
    + rewrite Z.bits_0. reflexivity.
Qed.

Lemma mask_test m k : 0 <= k -> (Z.land m (2 ^ k) >? 0) = Z.testbit m k.
Proof.
  intros Hk. rewrite land_pow2 by exact Hk.
  destruct (Z.testbit m k); [|reflexivity].
  apply Z.gtb_lt. apply Z.pow_pos_nonneg; lia.
Qed.

Section ReportProperties.

Context {EventType : Type} (MEMORY_FAULT : EventType).
Context `{EventTypeEq : EqDecision EventType}.

(** C9: on a memory-fault event the line printed is the node, then the
    page index of the faulting address (the address shifted right by 12
    bits) in upper-case hexadecimal, then, in the order of the bits 0, 4,
    8, 12, 16 and 20, the description of each of them that is set in the
    reason mask. *)
Theorem PrintVMFaultInfo_reports (ev : DebugAgentEventInfo EventType) :
  eventType _ ev = MEMORY_FAULT ->
  PrintVMFaultInfo EventType MEMORY_FAULT (Some ev) =
    AGENT_PRINT
      (nl +:+ "Memory access fault at GPU Node: "
       +:+ dec (fault_nodeId (memoryFault _ ev)) +:+ nl
       +:+ "Address: 0x"
       +:+ hex_upper (Z.shiftr (virtualAddress (memoryFault _ ev)) 12)
       +:+ "xxx ("
       +:+ reasons_of (faultReasonMask (memoryFault _ ev))
       +:+ ")" +:+ nl +:+ nl).
Proof.
  intros Hty. unfold PrintVMFaultInfo. rewrite decide_True by exact Hty.
  cbv zeta. do 7 f_equal.
  change 0x00000001 with (2 ^ 0). change 0x00000010 with (2 ^ 4).
  change 0x00000100 with (2 ^ 8). change 0x00001000 with (2 ^ 12).
  change 0x00010000 with (2 ^ 16). change 0x00100000 with (2 ^ 20).
  rewrite !mask_test by lia.
  unfold reasons_of, fault_reasons. rewrite !filter_cons, filter_nil.
  cbn [fst snd].
  destruct (Z.testbit _ 0), (Z.testbit _ 4), (Z.testbit _ 8),
    (Z.testbit _ 12), (Z.testbit _ 16), (Z.testbit _ 20); reflexivity.
Qed.

End ReportProperties.

Lemma PrintVMFaultInfo_reports_witness :
  PrintVMFaultInfo bool true (Some (example_event 0x00010011)) =
    AGENT_PRINT
      (nl +:+ "Memory access fault at GPU Node: 1" +:+ nl
       +:+ "Address: 0x7F00DEADBxxx ("
       +:+ "page not present;write access to a read-only page;"
       +:+ "uncorrectable ECC failure;)" +:+ nl +:+ nl).
Proof.
  rewrite (PrintVMFaultInfo_reports true (example_event 0x00010011) eq_refl).
  vm_compute. reflexivity.
Defined.

(** ** Ordered maps *)

Section StdMapFacts.

Context {V : Type}.
Implicit Types (m : list (Z * V)) (k : Z) (v : V).

Lemma sorted_nil : StdMap.sorted (@nil (Z * V)).
Proof. constructor. Qed.

Lemma sorted_cons e m :
  StdMap.sorted (e :: m) <->
  (forall e', e' ∈ m -> fst e < fst e') /\ StdMap.sorted m.
Proof.
  unfold StdMap.sorted, StdMap.keys. cbn [map].
  rewrite StronglySorted_cons, Forall_forall. split.
  - intros [Hall Hs]. split; [|exact Hs]. intros e' Hin.
    apply Hall, list_elem_of_In, in_map, list_elem_of_In, Hin.
  - intros [Hall Hs]. split; [|exact Hs]. intros x Hin.
    apply list_elem_of_In, in_map_iff in Hin as [e' [<- Hin]].
    apply Hall, list_elem_of_In, Hin.
Qed.

Lemma get_elem m k v :
  StdMap.sorted m -> (StdMap.get k m = Some v <-> (k, v) ∈ m).
Proof.
  induction m as [|e m IH]; intros Hs; cbn [StdMap.get].
  - rewrite elem_of_nil. split; [discriminate|tauto].
  - apply sorted_cons in Hs as [Hlt Hs]. rewrite elem_of_cons.
    destruct (Z.eqb_spec k (fst e)) as [->|Hne].
    + split.
      * intros [= <-]. left. destruct e; reflexivity.
      * intros [Heq|Hin]; [rewrite <- Heq; reflexivity|].
        specialize (Hlt _ Hin). cbn in Hlt. lia.
    + rewrite (IH Hs). split; [tauto|]. intros [Heq|Hin]; [|exact Hin].
      subst e. cbn in Hne. congruence.
Qed.

Lemma get_keys m k : is_Some (StdMap.get k m) <-> k ∈ StdMap.keys m.
Proof.
  unfold StdMap.keys. induction m as [|e m IH]; cbn [StdMap.get map].
  - rewrite elem_of_nil. split; [intros [? ?]; discriminate|tauto].
  - rewrite elem_of_cons. destruct (Z.eqb_spec k (fst e)) as [->|Hne].
    + split; [auto|eauto].
    + rewrite IH. split; [tauto|]. intros [?|?]; [congruence|assumption].
Qed.

Lemma lookup_get m it k v :
  StdMap.sorted m -> m !! it = Some (k, v) -> StdMap.get k m = Some v.
Proof.
  intros Hs Hit. apply get_elem; [exact Hs|].
  apply list_elem_of_lookup. eauto.
Qed.

(** [upper_bound] and [std::prev]: nothing at or below [k], or the entry
    with the greatest key at or below [k]. *)
Lemma upper_bound_begin m k :
  StdMap.sorted m -> StdMap.upper_bound k m = O ->
  forall e, e ∈ m -> k < fst e.
Proof.
  destruct m as [|e m]; intros Hs Hub e' Hin.
  - inversion Hin.
  - cbn in Hub. destruct (Z.ltb_spec k (fst e)) as [Hlt|Hge]; [|discriminate].
    apply sorted_cons in Hs as [Hall _].
    apply elem_of_cons in Hin as [->|Hin]; [exact Hlt|].
    specialize (Hall _ Hin). lia.
Qed.

Lemma upper_bound_prev m k : forall prev,
  StdMap.sorted m -> StdMap.upper_bound k m = S prev ->
  exists e, m !! prev = Some e /\ fst e <= k /\
            forall e', e' ∈ m -> fst e' <= k -> fst e' <= fst e.
Proof.
  induction m as [|e m IH]; intros prev Hs Hub; [discriminate|].
  cbn in Hub. destruct (Z.ltb_spec k (fst e)) as [Hlt|Hge]; [discriminate|].
  apply sorted_cons in Hs as [Hall Hs]. injection Hub as Hub.
  destruct prev as [|prev].
  - exists e. split; [reflexivity|]. split; [exact Hge|].
    intros e' Hin Hle. apply elem_of_cons in Hin as [->|Hin]; [lia|].
    pose proof (upper_bound_begin m k Hs Hub e' Hin). lia.
  - destruct (IH prev Hs Hub) as (e0 & Hl & Hle & Hmax).
    exists e0. split; [exact Hl|]. split; [exact Hle|].
    intros e' Hin Hle'. apply elem_of_cons in Hin as [->|Hin].
    + assert (e0 ∈ m) by (apply list_elem_of_lookup; eauto).
      specialize (Hall e0 ltac:(assumption)). lia.
    + apply Hmax; assumption.
Qed.

(** A converse: the entry with the greatest key at or below [k] is the one
    before [upper_bound]. *)
Lemma upper_bound_greatest m k e :
  StdMap.sorted m -> e ∈ m -> fst e <= k ->
  (forall e', e' ∈ m -> fst e' <= k -> fst e' <= fst e) ->
  exists prev, StdMap.upper_bound k m = S prev /\ m !! prev = Some e.
Proof.
  intros Hs Hin Hle Hmax.
  destruct (StdMap.upper_bound k m) as [|prev] eqn:Hub.
  - pose proof (upper_bound_begin m k Hs Hub e Hin). lia.
  - exists prev. split; [reflexivity|].
    destruct (upper_bound_prev m k prev Hs Hub) as (e0 & Hl & Hle0 & Hmax0).
    assert (Hin0 : e0 ∈ m) by (apply list_elem_of_lookup; eauto).
    assert (Hk : fst e0 = fst e).
    { specialize (Hmax _ Hin0 Hle0). specialize (Hmax0 _ Hin Hle). lia. }
    destruct e as [k1 v1], e0 as [k0 v0]. cbn in Hk. subst k0.
    apply (get_elem m k1 v0 Hs) in Hin0. apply (get_elem m k1 v1 Hs) in Hin.
    congruence.
Qed.

Lemma emplace_spec m k v :
  StdMap.sorted m ->
  let '(it, inserted, m') := StdMap.emplace k v m in
  StdMap.sorted m' /\
  inserted = (if StdMap.get k m is Some _ then false else true) /\
  m' !! it = Some (k, default v (StdMap.get k m)) /\
  forall k', StdMap.get k' m' =
             if decide (k' = k) then Some (default v (StdMap.get k m))
             else StdMap.get k' m.
Proof.
  induction m as [|e m IH]; intros Hs.
  - cbn. split; [apply sorted_cons; split; [intros ? H; inversion H|constructor]|].
    split; [reflexivity|]. split; [reflexivity|].
    intros k'. destruct (decide (k' = k)) as [->|Hne].
    + rewrite Z.eqb_refl. reflexivity.
    + destruct (Z.eqb_spec k' k); [contradiction|reflexivity].
  - pose proof Hs as Hs0. apply sorted_cons in Hs as [Hall Hs].
    cbn [StdMap.emplace StdMap.get].
    destruct (Z.ltb_spec k (fst e)) as [Hlt|Hge].
    + assert (Hnone : StdMap.get k (e :: m) = None).
      { destruct (StdMap.get k (e :: m)) as [v0|] eqn:Hg; [|reflexivity].
        apply (get_elem _ _ _ Hs0) in Hg.
        apply elem_of_cons in Hg as [<-|Hin]; [cbn in Hlt; lia|].
        specialize (Hall _ Hin). cbn in Hall. lia. }
      cbn [StdMap.get] in Hnone. rewrite Hnone.
      split.
      { apply sorted_cons. split; [|exact Hs0].
        intros e' Hin. apply elem_of_cons in Hin as [->|Hin]; [exact Hlt|].
        specialize (Hall _ Hin). cbn. lia. }
      split; [reflexivity|]. split; [reflexivity|].
      intros k'. cbn [StdMap.get fst snd default].
      destruct (decide (k' = k)) as [->|Hne].
      * rewrite Z.eqb_refl. reflexivity.
      * destruct (Z.eqb_spec k' k); [contradiction|reflexivity].
    + destruct (Z.eqb_spec k (fst e)) as [Heq|Hne].
      * split; [exact Hs0|]. split; [reflexivity|]. cbn [default].
        split; [destruct e; cbn in *; congruence|].
        intros k'. cbn [StdMap.get]. destruct (decide (k' = k)) as [->|Hne'].
        -- rewrite Heq, Z.eqb_refl. reflexivity.
        -- reflexivity.
      * specialize (IH Hs).
        destruct (StdMap.emplace k v m) as [[it inserted] m'].
        destruct IH as (Hs' & Hins & Hit & Hget).
        split.
        { apply sorted_cons. split; [|exact Hs'].
          intros [k1 v1] Hin. cbn.
          assert (Hg : StdMap.get k1 m' = Some v1)
            by (apply get_elem; assumption).
          rewrite Hget in Hg. destruct (decide (k1 = k)) as [->|Hne1]; [lia|].
          apply (get_elem _ _ _ Hs) in Hg. apply (Hall _ Hg). }
        split; [exact Hins|]. split; [exact Hit|].
        intros k'. cbn [StdMap.get]. rewrite Hget.
        destruct (decide (k' = k)) as [->|Hne'].
        -- destruct (Z.eqb_spec k (fst e)); [contradiction|reflexivity].
        -- reflexivity.
Qed.

Lemma assign_spec m it k v0 v :
  StdMap.sorted m -> m !! it = Some (k, v0) ->
  StdMap.sorted (StdMap.assign it v m) /\
  forall k', StdMap.get k' (StdMap.assign it v m) =
             if decide (k' = k) then Some v else StdMap.get k' m.
Proof.
  intros Hs Hit. unfold StdMap.assign. rewrite Hit. cbn [fst].
  revert it Hit. induction m as [|e m IH]; intros it Hit; [discriminate|].
  apply sorted_cons in Hs as [Hall Hs].
  destruct it as [|it]; cbn in Hit.
  - inversion Hit; subst e; clear Hit. cbn. split.
    + apply sorted_cons. split; [exact Hall|exact Hs].
    + intros k'. cbn. destruct (decide (k' = k)) as [->|Hne].
      * rewrite Z.eqb_refl. reflexivity.
      * destruct (Z.eqb_spec k' k); [contradiction|reflexivity].
  - destruct (IH Hs it Hit) as [Hs' Hget]. cbn [insert list_insert]. split.
    + apply sorted_cons. split; [|exact Hs'].
      intros [k1 v1] Hin. cbn.
      assert (Hg : StdMap.get k1 (<[it:=(k, v)]> m) = Some v1)
        by (apply get_elem; assumption).
      rewrite Hget in Hg. destruct (decide (k1 = k)) as [->|Hne1].
      * assert ((k, v0) ∈ m) by (apply list_elem_of_lookup; eauto).
        apply (Hall (k, v0)). assumption.
      * apply (get_elem _ _ _ Hs) in Hg. apply (Hall _ Hg).
    + intros k'. cbn [StdMap.get]. rewrite Hget.
      assert (Hin : (k, v0) ∈ m) by (apply list_elem_of_lookup; eauto).
      specialize (Hall _ Hin). cbn in Hall.
      destruct (decide (k' = k)) as [->|Hne]; [|reflexivity].
      destruct (Z.eqb_spec k (fst e)); [lia|reflexivity].
Qed.

End StdMapFacts.

(** ** The symbol index *)

Lemma defined_function_test sym :
  negb (GELF_ST_TYPE (st_info sym) =? STT_FUNC) || (st_shndx sym =? SHN_UNDEF)
  = false <-> defined_function sym.
Proof.
  unfold defined_function. rewrite orb_false_iff, negb_false_iff.
  rewrite Z.eqb_eq, Z.eqb_neq. reflexivity.
Qed.

Lemma add_symbol_skip load m sym :
  ~ defined_function sym -> add_symbol load m (Some sym) = Returns m.
Proof.
  intros Hn. unfold add_symbol.
  destruct (negb (GELF_ST_TYPE (st_info sym) =? STT_FUNC)
            || (st_shndx sym =? SHN_UNDEF)) eqn:Ht; [reflexivity|].
  apply defined_function_test in Ht. contradiction.
Qed.

Lemma add_symbol_unnamed load m sym :
  defined_function sym -> elf_strptr sym = None ->
  add_symbol load m (Some sym) = UndefinedBehaviour.
Proof.
  intros Hf Hn. unfold add_symbol.
  apply defined_function_test in Hf. rewrite Hf, Hn. reflexivity.
Qed.

Lemma add_symbol_get load (m : symbol_map) sym name :
  StdMap.sorted m -> defined_function sym -> elf_strptr sym = Some name ->
  exists m' : symbol_map,
    add_symbol load m (Some sym) = Returns m' /\
    StdMap.sorted m' /\
    forall k, StdMap.get k m' =
              if decide (k = symbol_key load sym)
              then keep_larger (StdMap.get k m) (name, st_size sym)
              else StdMap.get k m.
Proof.
  intros Hs Hf Hname. unfold add_symbol.
  apply defined_function_test in Hf. rewrite Hf, Hname.
  fold (symbol_key load sym).
  pose proof (emplace_spec m (symbol_key load sym) (name, st_size sym) Hs)
    as Hem.
  destruct (StdMap.emplace _ _ m) as [[it success] m'].
  destruct Hem as (Hs' & Hins & Hit & Hget). rewrite Hit.
  eexists. split; [reflexivity|].
  destruct (StdMap.get (symbol_key load sym) m) as [[name0 size]|] eqn:Hold;
    cbn [default from_option id] in *; subst success; cbn [negb andb].
  - destruct (st_size sym >? size) eqn:Hgt.
    + destruct (assign_spec m' it _ _ (name, st_size sym) Hs' Hit)
        as [Hs'' Hget'].
      split; [exact Hs''|]. intros k. rewrite Hget', Hget.
      destruct (decide (k = symbol_key load sym)) as [->|Hne]; [|reflexivity].
      rewrite Hold. cbn. rewrite Hgt. reflexivity.
    + split; [exact Hs'|]. intros k. rewrite Hget.
      destruct (decide (k = symbol_key load sym)) as [->|Hne]; [|reflexivity].
      rewrite Hold. cbn. rewrite Hgt. reflexivity.
  - split; [exact Hs'|]. intros k. rewrite Hget.
    destruct (decide (k = symbol_key load sym)) as [->|Hne]; [|reflexivity].
    rewrite Hold. reflexivity.
Qed.

Lemma symbols_at_app k (l1 l2 : list (Z * (string * Z))) :
  symbols_at k (l1 ++ l2) = symbols_at k l1 ++ symbols_at k l2.
Proof. unfold symbols_at. rewrite filter_app, map_app. reflexivity. Qed.

Lemma scanned_entry_defined load sym name :
  defined_function sym -> elf_strptr sym = Some name ->
  scanned_entry load (Some sym) = Some (symbol_key load sym, (name, st_size sym)).
Proof.
  intros Hf Hn. unfold scanned_entry. cbn. rewrite decide_True by exact Hf.
  rewrite Hn. reflexivity.
Qed.

Lemma scanned_entry_skip load sym :
  ~ defined_function sym -> scanned_entry load (Some sym) = None.
Proof.
  intros Hn. unfold scanned_entry. cbn. rewrite decide_False by exact Hn.
  reflexivity.
Qed.

(** The loop over the symbols of a section. *)
Lemma for_each_add_symbol load symbols : forall m : symbol_map,
  StdMap.sorted m ->
  scan_result symbol_readable (omap (scanned_entry load)) symbols m
              (for_each (add_symbol load) symbols m).
Proof.
  induction symbols as [|[sym|] symbols IH]; intros m Hs.
  - left. split; [constructor|]. exists m. auto.
  - cbn [for_each].
    destruct (decide (defined_function sym)) as [Hf|Hn].
    + destruct (elf_strptr sym) as [name|] eqn:Hname.
      * destruct (add_symbol_get load m sym name Hs Hf Hname)
          as (m1 & Hadd & Hs1 & Hget1).
        rewrite Hadd. cbn [bind].
        destruct (IH m1 Hs1) as [(Hall & m' & Hrun & Hs' & Hget)|(Hnot & Hrun)].
        -- left. split.
           { constructor; [|exact Hall]. intros _. rewrite Hname. eauto. }
           exists m'. split; [exact Hrun|]. split; [exact Hs'|].
           intros k. rewrite Hget, Hget1. cbn [omap list_omap].
           rewrite (scanned_entry_defined load sym name Hf Hname).
           unfold symbols_at at 2. rewrite filter_cons. cbn [fst].
           destruct (decide (symbol_key load sym = k)) as [<-|Hne].
           ++ rewrite decide_True by reflexivity. reflexivity.
           ++ rewrite decide_False by congruence. reflexivity.
        -- right. split; [|exact Hrun].
           intros Hall. apply Hnot. inversion Hall. assumption.
      * right. split.
        -- intros Hall. inversion Hall as [|? ? Hsym _]. subst.
           destruct (Hsym Hf) as [name Hsome]. congruence.
        -- rewrite (add_symbol_unnamed load m sym Hf Hname). reflexivity.
    + rewrite (add_symbol_skip load m sym Hn). cbn [bind].
      destruct (IH m Hs) as [(Hall & m' & Hrun & Hs' & Hget)|(Hnot & Hrun)].
      * left. split.
        { constructor; [|exact Hall]. intros Hf. contradiction. }
        exists m'. split; [exact Hrun|]. split; [exact Hs'|].
        intros k. rewrite Hget. cbn [omap list_omap].
        rewrite (scanned_entry_skip load sym Hn). reflexivity.
      * right. split; [|exact Hrun].
        intros Hall. apply Hnot. inversion Hall. assumption.
  - right. split; [|reflexivity].
    intros Hall. inversion Hall as [|? ? Hsym _]. exact Hsym.
Qed.

Lemma add_section_symbols load (m : symbol_map) scn :
  is_Some (gelf_getshdr scn) ->
  add_section load m scn =
  for_each (add_symbol load) (symbols_of_section scn) m.
Proof.
  intros [shdr Hh]. unfold add_section, symbols_of_section. rewrite Hh.
  destruct (Z.eqb_spec (sh_type shdr) SHT_SYMTAB) as [Ha|Ha];
    destruct (Z.eqb_spec (sh_type shdr) SHT_DYNSYM) as [Hb|Hb]; cbn [negb andb];
    destruct (elf_getdata scn); try reflexivity.
  - rewrite decide_True by auto. reflexivity.
  - rewrite decide_True by auto. reflexivity.
  - rewrite decide_True by auto. reflexivity.
  - rewrite decide_False by tauto. reflexivity.
Qed.

(** The loop over the sections. *)
Lemma for_each_add_section load scns : forall m : symbol_map,
  StdMap.sorted m ->
  scan_result section_readable
    (fun scns => omap (scanned_entry load)
                      (concat (map symbols_of_section scns)))
    scns m (for_each (add_section load) scns m).
Proof.
  induction scns as [|scn scns IH]; intros m Hs.
  - left. split; [constructor|]. exists m. auto.
  - cbn [for_each].
    destruct (gelf_getshdr scn) as [shdr|] eqn:Hh.
    2:{ right. split.
        - intros Hall. inversion Hall as [|? ? [[? Hsome] _] _]. congruence.
        - unfold add_section. rewrite Hh. reflexivity. }
    rewrite (add_section_symbols load m scn) by (rewrite Hh; eauto).
    destruct (for_each_add_symbol load (symbols_of_section scn) m Hs)
      as [(Hsyms & m1 & Hrun1 & Hs1 & Hget1)|(Hnot & Hrun1)].
    + rewrite Hrun1. cbn [bind].
      destruct (IH m1 Hs1) as [(Hall & m' & Hrun & Hs' & Hget)|(Hnot & Hrun)].
      * left. split.
        { constructor; [|exact Hall]. split; [rewrite Hh; eauto|exact Hsyms]. }
        exists m'. split; [exact Hrun|]. split; [exact Hs'|].
        intros k. rewrite Hget, Hget1. cbn [map concat].
        rewrite omap_app, symbols_at_app, fold_left_app. reflexivity.
      * right. split; [|exact Hrun].
        intros Hall. apply Hnot. inversion Hall. assumption.
    + rewrite Hrun1. right. split; [|reflexivity].
      intros Hall. inversion Hall as [|? ? [_ Hsyms] _]. contradiction.
Qed.

(** The index built from an image whose sections, symbols and names libelf
    returns: sorted, with, under each address, what [keep_larger] leaves of
    the symbols scanned for it. Where libelf returns a null pointer the
    scan has no defined behaviour. *)
Lemma built_symbol_map load elf :
  (scan_readable elf /\
   exists m : symbol_map,
     for_each (add_section load) (elf_sections elf) [] = Returns m /\
     StdMap.sorted m /\
     forall k, StdMap.get k m =
               fold_left keep_larger (symbols_at k (scanned_symbols load elf))
                         None) \/
  (~ scan_readable elf /\
   for_each (add_section load) (elf_sections elf) [] = UndefinedBehaviour).
Proof.
  exact (for_each_add_section load (elf_sections elf) [] sorted_nil).
Qed.

(** The entry left by [keep_larger] is the first of the largest symbols. *)
Lemma keep_larger_first_largest (l : list (string * Z)) :
  match fold_left keep_larger l None with
  | None => l = []
  | Some kept =>
      exists l1 l2,
        l = l1 ++ kept :: l2 /\
        (forall x, x ∈ l1 -> snd x < snd kept) /\
        (forall x, x ∈ l2 -> snd x <= snd kept)
  end.
Proof.
  induction l as [|x l IH] using rev_ind; [reflexivity|].
  rewrite fold_left_app. cbn [fold_left].
  destruct (fold_left keep_larger l None) as [[name size]|].
  - destruct IH as (l1 & l2 & -> & H1 & H2). cbn [keep_larger snd] in *.
    destruct (Z.gtb_spec (snd x) size) as [Hgt|Hle].
    + exists (l1 ++ (name, size) :: l2), []. split; [reflexivity|]. split.
      * intros y Hy. apply elem_of_app in Hy as [Hy|Hy].
        -- specialize (H1 _ Hy). lia.
        -- apply elem_of_cons in Hy as [->|Hy]; [cbn; lia|].
           specialize (H2 _ Hy). lia.
      * intros y Hy. inversion Hy.
    + exists l1, (l2 ++ [x]). split; [rewrite <- app_assoc; reflexivity|].
      split; [exact H1|].
      intros y Hy. apply elem_of_app in Hy as [Hy|Hy]; [apply H2, Hy|].
      apply elem_of_cons in Hy as [->|Hy]; [cbn; lia|inversion Hy].
  - subst l. cbn. exists [], []. split; [reflexivity|].
    split; intros y Hy; inversion Hy.
Qed.

Lemma elem_symbols_at k (l : list (Z * (string * Z))) entry :
  entry ∈ symbols_at k l <-> (k, entry) ∈ l.
Proof.
  unfold symbols_at. rewrite list_elem_of_In, in_map_iff. split.
  - intros [[k' entry'] [Heq Hin]]. cbn in Heq. subst entry'.
    apply list_elem_of_In, list_elem_of_filter in Hin as [Hk Hin].
    cbn in Hk. subst k'. exact Hin.
  - intros Hin. exists (k, entry). split; [reflexivity|].
    apply list_elem_of_In, list_elem_of_filter. split; [reflexivity|exact Hin].
Qed.

(** What the index built by a scan holds for an address: nothing when no
    symbol was scanned for it, and otherwise the first of the largest
    symbols scanned for it. *)
Lemma built_entry (m : symbol_map) (scanned : list (Z * (string * Z))) k :
  StdMap.get k m = fold_left keep_larger (symbols_at k scanned) None ->
  match symbols_at k scanned with
  | [] => StdMap.get k m = None
  | _ :: _ =>
      exists before kept after,
        symbols_at k scanned = before ++ kept :: after /\
        StdMap.get k m = Some kept /\
        (forall x, x ∈ before -> snd x < snd kept) /\
        (forall x, x ∈ after -> snd x <= snd kept)
  end.
Proof.
  intros Hget.
  pose proof (keep_larger_first_largest (symbols_at k scanned)) as Hk.
  rewrite <- Hget in Hk.
  destruct (symbols_at k scanned) as [|x l] eqn:Hl.
  - cbn in Hget. exact Hget.
  - destruct (StdMap.get k m) as [kept|]; [|discriminate].
    destruct Hk as (l1 & l2 & Heq & H1 & H2). exists l1, kept, l2. auto.
Qed.

Lemma lookup_symbol_spec w (m : symbol_map) address info :
  StdMap.sorted m ->
  lookup_symbol w m address = Some info <->
  exists name,
    StdMap.get (m_value info) m = Some (name, m_size info) /\
    m_name info = default name (cxa_demangle w name) /\
    m_value info <= address /\
    (forall k, k ∈ StdMap.keys m -> k <= address -> k <= m_value info) /\
    address < add64 (m_value info) (m_size info).
Proof.
  intros Hs. unfold lookup_symbol. split.
  - destruct (StdMap.upper_bound address m) as [|prev] eqn:Hub; [discriminate|].
    destruct (upper_bound_prev m address prev Hs Hub)
      as ([value [name size]] & Hl & Hle & Hmax).
    rewrite Hl. cbn [fst snd] in *.
    destruct (Z.ltb_spec address (add64 value size)) as [Hlt|]; [|discriminate].
    intros [= <-]. cbn [m_value m_size m_name]. exists name.
    split; [eapply lookup_get; eassumption|].
    split; [destruct (cxa_demangle w name); reflexivity|].
    split; [exact Hle|]. split; [|exact Hlt].
    intros k Hk Hka. unfold StdMap.keys in Hk.
    apply list_elem_of_In, in_map_iff in Hk as [e' [<- Hin]].
    apply (Hmax e'); [apply list_elem_of_In, Hin|exact Hka].
  - intros (name & Hget & Hname & Hle & Hmax & Hlt).
    apply (get_elem m _ _ Hs) in Hget.
    destruct (upper_bound_greatest m address (m_value info, (name, m_size info))
                Hs Hget Hle) as (prev & -> & ->).
    { intros e' Hin Hk. apply Hmax; [|exact Hk].
      apply list_elem_of_In, in_map, list_elem_of_In, Hin. }
    cbn [fst snd]. destruct (Z.ltb_spec address (add64 (m_value info) (m_size info)));
      [|lia].
    destruct info as [n v sz]. cbn in *. subst n.
    destruct (cxa_demangle w name); reflexivity.
Qed.

Lemma load_symbol_map_builds w co elf :
  is_open co = true -> m_symbol_map co = None -> elf_begin w co = Some elf ->
  load_symbol_map w co =
    (m <- for_each (add_section (m_load_address co)) (elf_sections elf) [];;
     Returns (set_symbol_map m co)).
Proof.
  intros Ho Hm He. unfold load_symbol_map. rewrite Ho, Hm, He. reflexivity.
Qed.

Lemma set_symbol_map_same co m :
  m_symbol_map co = Some m -> set_symbol_map m co = co.
Proof. intros H. destruct co. cbn in *. subst. reflexivity. Qed.

(** C2, with the end of a symbol taken on 64 bits as the code takes it: on
    an open code object [find_symbol] returns the answer of the search in
    the index [m] and leaves the object with that index. The index is the
    one the object holds, when it holds one, and the object is then left as
    it is; otherwise it is the index built from the image, read by libelf,
    which has an entry exactly for the addresses a defined function symbol
    was scanned for, that of the first among the largest symbols scanned
    for the address. The search answers with an entry exactly when the
    entry has the greatest start at or below the address and the address
    is below start plus size, and with nothing otherwise. *)
Theorem find_symbol_nearest_below w co address :
  is_open co = true ->
  (forall m, m_symbol_map co = Some m -> StdMap.sorted m) ->
  (m_symbol_map co = None ->
   exists elf, elf_begin w co = Some elf /\ scan_readable elf) ->
  exists m : symbol_map,
    find_symbol w co address
      = Returns (lookup_symbol w m address, set_symbol_map m co) /\
    (forall m0, m_symbol_map co = Some m0 ->
                m = m0 /\ set_symbol_map m co = co) /\
    (forall info,
       lookup_symbol w m address = Some info <->
       exists name,
         StdMap.get (m_value info) m = Some (name, m_size info) /\
         m_name info = default name (cxa_demangle w name) /\
         m_value info <= address /\
         (forall k, k ∈ StdMap.keys m -> k <= address -> k <= m_value info) /\
         address < add64 (m_value info) (m_size info)) /\
    (forall elf, m_symbol_map co = None -> elf_begin w co = Some elf ->
       forall k,
         match symbols_at k (scanned_symbols (m_load_address co) elf) with
         | [] => StdMap.get k m = None
         | _ :: _ =>
             exists before kept after,
               symbols_at k (scanned_symbols (m_load_address co) elf)
                 = before ++ kept :: after /\
               StdMap.get k m = Some kept /\
               (forall x, x ∈ before -> snd x < snd kept) /\
               (forall x, x ∈ after -> snd x <= snd kept)
         end).
Proof.
  intros Ho Hinv Hbuild.
  destruct (m_symbol_map co) as [m|] eqn:Hm.
  - exists m. rewrite (set_symbol_map_same co m Hm).
    unfold find_symbol, load_symbol_map. rewrite Ho, Hm. cbn.
    rewrite Hm. split; [reflexivity|].
    split; [intros m0 [= <-]; auto|].
    split; [intros info; apply lookup_symbol_spec, Hinv; reflexivity|].
    intros elf Hnone. discriminate.
  - destruct (Hbuild eq_refl) as (elf & He & Hread).
    destruct (built_symbol_map (m_load_address co) elf)
      as [(_ & m & Hrun & Hs & Hget)|(Hnot & _)]; [|contradiction].
    exists m. unfold find_symbol.
    rewrite (load_symbol_map_builds w co elf Ho Hm He), Hrun. cbn.
    split; [reflexivity|]. split; [intros m0 Hm0; discriminate|].
    split; [intros info; apply lookup_symbol_spec, Hs|].
    intros elf' _ He'. assert (elf' = elf) by congruence. subst elf'.
    intros k. apply built_entry, Hget.
Qed.

Lemma find_symbol_nearest_below_witness :
  exists m : symbol_map,
    find_symbol example_opened_world example_opened 0x105
      = Returns (lookup_symbol example_opened_world m 0x105,
                 set_symbol_map m example_opened) /\
    exists kept, StdMap.get 0x400 m = Some kept /\ 4 <= snd kept.
Proof.
  destruct (find_symbol_nearest_below example_opened_world example_opened 0x105)
    as (m & Hfind & _ & _ & Hbuilt).
  - reflexivity.
  - intros m Hm. discriminate.
  - intros _. exists example_elf. split; [reflexivity|].
    repeat constructor; cbn; eauto; intros [Ht Hu]; try discriminate;
      exfalso; apply Hu; reflexivity.
  - exists m. split; [exact Hfind|].
    specialize (Hbuilt example_elf eq_refl eq_refl 0x400).
    change (symbols_at 0x400 (scanned_symbols (m_load_address example_opened)
                                              example_elf))
      with [("small"%string, 4); ("big"%string, 8)] in Hbuilt.
    destruct Hbuilt as (before & kept & after & Heq & Hget & Hb & Ha).
    exists kept. split; [exact Hget|].
    assert (Hin : ("small"%string, 4) ∈ before ++ kept :: after)
      by (rewrite <- Heq; left).
    apply elem_of_app in Hin as [Hin|Hin]; [specialize (Hb _ Hin); cbn in Hb; lia|].
    apply elem_of_cons in Hin as [<-|Hin]; [cbn; lia|].
    specialize (Ha _ Hin). cbn in Ha. lia.
Defined.

(** The examples of the specification: [f] with offset 5 for 0x105, nothing
    for 0x200, and for two symbols at one address the one of size 8. *)
Example find_symbol_examples :
  let found address :=
    x <- find_symbol example_opened_world example_opened address;;
    Returns (fst x) in
  found 0x105 = Returns (Some (mkSymbolInfo "f" 0x100 0x10)) /\
  found 0x200 = Returns None /\
  found 0x403 = Returns (Some (mkSymbolInfo "big" 0x400 8)).
Proof. vm_compute. auto. Qed.

(** C2, as stated with the plain sum, fails where start plus size passes
    the end of the 64-bit address space: the only symbol of the image
    starts at 2^64 - 8 with size 16, the address 2^64 - 4 is at or above
    its start and below its start plus 16, and [find_symbol] answers with
    nothing. *)
Lemma find_symbol_wrap_counterexample :
  exists co',
    find_symbol example_wrap_world example_opened 0xFFFFFFFFFFFFFFFC
      = Returns (None, co') /\
    m_symbol_map co' = Some [(0xFFFFFFFFFFFFFFF8, ("f"%string, 16))] /\
    0xFFFFFFFFFFFFFFF8 <= 0xFFFFFFFFFFFFFFFC < 0xFFFFFFFFFFFFFFF8 + 16.
Proof.
  eexists. split; [vm_compute; reflexivity|]. split; [reflexivity|lia].
Qed.

(** C10: a defined function symbol scanned for an address without an entry
    is recorded with its name and size; scanned for an address that has an
    entry, it replaces the entry if its size is strictly larger and leaves
    it as it is otherwise, in particular for an equal size; the entries of
    the other addresses stay. So the index built from an image holds, for
    each address a symbol was scanned for, the first scanned symbol among
    those of the largest size, and nothing for the other addresses. *)
Theorem add_symbol_keeps_first_of_equal load (m : symbol_map) sym name :
  StdMap.sorted m ->
  defined_function sym -> elf_strptr sym = Some name ->
  exists m' : symbol_map,
    add_symbol load m (Some sym) = Returns m' /\
    (StdMap.get (symbol_key load sym) m = None ->
     StdMap.get (symbol_key load sym) m' = Some (name, st_size sym)) /\
    (forall name0 size0,
       StdMap.get (symbol_key load sym) m = Some (name0, size0) ->
       StdMap.get (symbol_key load sym) m' =
         if st_size sym >? size0 then Some (name, st_size sym)
         else Some (name0, size0)) /\
    (forall name0,
       StdMap.get (symbol_key load sym) m = Some (name0, st_size sym) ->
       StdMap.get (symbol_key load sym) m' = Some (name0, st_size sym)) /\
    (forall k, k <> symbol_key load sym ->
               StdMap.get k m' = StdMap.get k m) /\
    forall elf, scan_readable elf ->
      exists built : symbol_map,
        for_each (add_section load) (elf_sections elf) [] = Returns built /\
        forall k,
          match symbols_at k (scanned_symbols load elf) with
          | [] => StdMap.get k built = None
          | _ :: _ =>
              exists before kept after,
                symbols_at k (scanned_symbols load elf)
                  = before ++ kept :: after /\
                StdMap.get k built = Some kept /\
                (forall x, x ∈ before -> snd x < snd kept) /\
                (forall x, x ∈ after -> snd x <= snd kept)
          end.
Proof.
  intros Hs Hf Hname.
  destruct (add_symbol_get load m sym name Hs Hf Hname) as (m' & Hadd & _ & Hget).
  exists m'. split; [exact Hadd|].
  split; [|split; [|split; [|split]]].
  - intros Hold. rewrite Hget, decide_True by reflexivity. rewrite Hold.
    reflexivity.
  - intros name0 size0 Hold.
    rewrite Hget, decide_True by reflexivity. rewrite Hold. reflexivity.
  - intros name0 Hold. rewrite Hget, decide_True by reflexivity.
    rewrite Hold. cbn.
    destruct (Z.gtb_spec (st_size sym) (st_size sym)); [lia|reflexivity].
  - intros k Hne. rewrite Hget, decide_False by exact Hne. reflexivity.
  - intros elf Hread.
    destruct (built_symbol_map load elf)
      as [(_ & built & Hrun & _ & Hbuilt)|(Hnot & _)]; [|contradiction].
    exists built. split; [exact Hrun|]. intros k. apply built_entry, Hbuilt.
Qed.

Lemma add_symbol_keeps_first_of_equal_witness :
  exists m' : symbol_map,
    add_symbol 0 [(0x500, ("first"%string, 8))]
               (Some (mkSym (Some "second"%string) 18 1 0x500 8))
      = Returns m' /\
    StdMap.get 0x500 m' = Some ("first"%string, 8).
Proof.
  destruct (add_symbol_keeps_first_of_equal 0 [(0x500, ("first"%string, 8))]
              (mkSym (Some "second"%string) 18 1 0x500 8) "second")
    as (m' & Hadd & _ & _ & Hequal & _).
  - repeat constructor.
  - split; [reflexivity|discriminate].
  - reflexivity.
  - exists m'. split; [exact Hadd|]. apply Hequal. reflexivity.
Defined.

(** In the index of the example image the address 0x500, where two symbols
    of size 8 were scanned, holds the first of them. *)
Example equal_sizes_keep_first :
  exists built : symbol_map,
    for_each (add_section 0) (elf_sections example_elf) [] = Returns built /\
    StdMap.get 0x500 built = Some ("first"%string, 8).
Proof. eexists. split; vm_compute; reflexivity. Qed.

(** ** The disassembly window *)

Lemma load_debug_info_loaded w co lines units :
  is_open co = true ->
  m_line_number_map co = Some lines ->
  m_compilation_unit_low_high_pc_map co = Some units ->
  load_debug_info w co = Returns co.
Proof.
  intros Ho Hl Hu. unfold load_debug_info. rewrite Ho, Hl, Hu. reflexivity.
Qed.

Lemma load_debug_info_absent w co :
  is_open co = true -> m_line_number_map co = None ->
  dwarf_begin w co = None ->
  load_debug_info w co = Returns co.
Proof.
  intros Ho Hl Hd. unfold load_debug_info. rewrite Ho, Hl, Hd. reflexivity.
Qed.

(** C6, where the code departs from it: on an open code object whose image
    holds no debug information, [dwarf_begin] fails, [load_debug_info]
    returns without building the maps, and [disassemble] reads the
    line-number map through the disengaged [std::optional]. *)
Theorem disassemble_without_debug_info w d turns co pc :
  is_Some (largest_instruction_size d) ->
  is_open co = true ->
  m_line_number_map co = None ->
  dwarf_begin w co = None ->
  disassemble w d turns co pc = UndefinedBehaviour.
Proof.
  intros [size Hsize] Ho Hl Hd. unfold disassemble, disassembly_window.
  rewrite Hsize, (load_debug_info_absent w co Ho Hl Hd). cbn [bind].
  rewrite Hl. reflexivity.
Qed.

Lemma disassemble_without_debug_info_witness :
  disassemble example_opened_world example_decoder 8 example_opened 0x300
  = UndefinedBehaviour.
Proof.
  apply disassemble_without_debug_info; [eexists|..]; reflexivity.
Defined.

(** The other way of having no line-number information: debug information
    is there and yields no entry. Both maps are built, empty, and the window
    starts at the address asked for. *)
Lemma disassembly_window_no_entries w co pc :
  is_open co = true ->
  m_line_number_map co = None ->
  dwarf_begin w co = Some [] ->
  disassembly_window w co pc =
    Returns (pc, add64 pc context_byte_size, set_debug_maps [] [] co).
Proof.
  intros Ho Hl Hd. unfold disassembly_window, load_debug_info.
  rewrite Ho, Hl, Hd. reflexivity.
Qed.

Lemma clamp_window_miss (units : low_high_pc_map) pc start_pc end_pc low high :
  StdMap.sorted units ->
  (low, high) ∈ units -> low <= pc -> high <= pc ->
  (forall l h, (l, h) ∈ units -> l <= pc -> l <= low) ->
  clamp_window units pc start_pc end_pc = (start_pc, end_pc).
Proof.
  intros Hs Hin Hlo Hhi Hmax. unfold clamp_window.
  destruct (upper_bound_greatest units pc (low, high) Hs Hin Hlo)
    as (prev & -> & ->).
  { intros [l h] Hin' Hle. apply (Hmax l h); assumption. }
  destruct (Z.ltb_spec pc high); [lia|reflexivity].
Qed.

Lemma clamp_window_nearest (units : low_high_pc_map) pc start_pc end_pc low high :
  StdMap.sorted units ->
  (low, high) ∈ units -> low <= pc < high ->
  (forall l h, (l, h) ∈ units -> l <= pc -> l <= low) ->
  clamp_window units pc start_pc end_pc =
    (Z.max start_pc low, Z.min end_pc high).
Proof.
  intros Hs Hin [Hlo Hhi] Hmax. unfold clamp_window.
  destruct (upper_bound_greatest units pc (low, high) Hs Hin Hlo)
    as (prev & -> & ->).
  { intros [l h] Hin' Hle. apply (Hmax l h); assumption. }
  destruct (Z.ltb_spec pc high); [reflexivity|lia].
Qed.

Lemma instruction_loop_bounds d pc lo end_pc turns :
  0 <= lo ->
  (forall a s t, lo <= a < end_pc ->
                 disassemble_instruction d a = Some (s, t) ->
                 0 <= s /\ a + s < 2 ^ 64) ->
  forall addr listing done,
    lo <= addr ->
    instruction_loop d turns pc addr end_pc = Returns (listing, done) ->
    forall a, a ∈ printed_addresses listing -> lo <= a < end_pc.
Proof.
  intros Hlo Hdec. induction turns as [|turns IH];
    intros addr listing done Haddr Hrun a Ha; cbn [instruction_loop] in Hrun.
  - injection Hrun as <- _. inversion Ha.
  - destruct (Z.ltb_spec addr end_pc) as [Hlt|Hge].
    + destruct (readable d addr); cbn [negb] in Hrun.
      * destruct (disassemble_instruction d addr) as [[size text]|] eqn:Hd;
          [|discriminate].
        destruct (Hdec addr size text ltac:(lia) Hd) as [Hs Hfit].
        destruct (instruction_loop d turns pc (add64 addr size) end_pc)
          as [[rest done']| | | |] eqn:Hrest; try discriminate.
        cbn in Hrun. injection Hrun as <- _.
        unfold printed_addresses in Ha. cbn in Ha.
        apply elem_of_cons in Ha as [->|Ha]; [lia|].
        apply (IH (add64 addr size) rest done'); [|exact Hrest|exact Ha].
        unfold add64. rewrite wrap64_small by lia. lia.
      * injection Hrun as <- _. inversion Ha.
    + injection Hrun as <- _. inversion Ha.
Qed.

(** What lines 498 to 511 do for the one unit they look at: when the
    compilation unit with the greatest low bound at or below the address
    contains the address, the window is the window chosen before it,
    clamped at both ends to that unit, and, as long as no instruction
    decoded in the unit reaches past the end of the 64-bit address space,
    every instruction printed starts inside the unit. *)
Lemma disassemble_clamps_to_nearest_unit w d turns co pc lines
    (units : low_high_pc_map) low high :
  is_open co = true ->
  m_line_number_map co = Some lines ->
  m_compilation_unit_low_high_pc_map co = Some units ->
  StdMap.sorted units ->
  (low, high) ∈ units -> 0 <= low -> low <= pc < high ->
  (forall l h, (l, h) ∈ units -> l <= pc -> l <= low) ->
  (forall a s t, low <= a < high ->
                 disassemble_instruction d a = Some (s, t) ->
                 0 <= s /\ a + s < 2 ^ 64) ->
  let start_pc := Z.max (window_start lines pc) low in
  let end_pc := Z.min (add64 pc context_byte_size) high in
  disassembly_window w co pc = Returns (start_pc, end_pc, co) /\
  low <= start_pc /\ end_pc <= high /\
  forall listing done co',
    disassemble w d turns co pc = Returns (listing, done, co') ->
    forall a, a ∈ printed_addresses listing -> low <= a < high.
Proof.
  intros Ho Hl Hu Hs Hin Hlow Hpc Hmax Hdec start_pc end_pc.
  assert (Hwin : disassembly_window w co pc = Returns (start_pc, end_pc, co)).
  { unfold disassembly_window.
    rewrite (load_debug_info_loaded w co lines units Ho Hl Hu). cbn [bind].
    rewrite Hl, Hu.
    rewrite (clamp_window_nearest units pc _ _ low high Hs Hin Hpc Hmax).
    reflexivity. }
  split; [exact Hwin|]. split; [subst start_pc; lia|].
  split; [subst end_pc; lia|].
  intros listing done co' Hrun a Ha. unfold disassemble in Hrun.
  destruct (largest_instruction_size d); [|discriminate].
  rewrite Hwin in Hrun. cbn [bind] in Hrun.
  destruct (find_symbol w co pc) as [found| | | |]; try discriminate.
  cbn [bind] in Hrun.
  destruct (instruction_loop d turns pc start_pc end_pc)
    as [[listing' done']| | | |] eqn:Hloop; try discriminate.
  cbn in Hrun. injection Hrun as <- _ _.
  assert (Hb : low <= a < end_pc).
  { apply (instruction_loop_bounds d pc low end_pc turns Hlow) with
      (addr := start_pc) (listing := listing') (done := done'); auto.
    - intros a0 s t Ha0. apply Hdec. subst end_pc. lia.
    - subst start_pc. lia. }
  subst end_pc. lia.
Qed.

Lemma disassemble_clamps_to_nearest_unit_witness :
  disassembly_window example_opened_world example_one_unit 0x300
  = Returns (0x300, 0x310, example_one_unit).
Proof.
  refine (proj1 (disassemble_clamps_to_nearest_unit example_opened_world
                   example_decoder 8 example_one_unit 0x300 []
                   [(0x100, 0x310)] 0x100 0x310 _ _ _ _ _ _ _ _ _));
    try reflexivity.
  - repeat constructor.
  - left.
  - lia.
  - lia.
  - intros l h Hin _. apply elem_of_cons in Hin as [Heq|Hin];
      [injection Heq as -> _; lia|inversion Hin].
  - intros a s t Ha Hd. injection Hd as <- _. lia.
Defined.

(** With a unit [0x100, 0x310) and a unit [0x200, 0x210) inside it, the
    listing for 0x300, an address of the first unit only, runs to 0x320 and
    prints the instruction at 0x310. *)
Example disassemble_nested_units_listing :
  exists listing done co',
    disassemble example_nested_world example_decoder 16 example_opened 0x300
      = Returns (listing, done, co') /\
    m_compilation_unit_low_high_pc_map co'
      = Some [(0x100, 0x310); (0x200, 0x210)] /\
    0x100 <= 0x300 < 0x310 /\
    0x310 ∈ printed_addresses listing.
Proof.
  eexists _, _, _. split; [vm_compute; reflexivity|].
  split; [reflexivity|]. split; [lia|].
  vm_compute. do 4 right. left.
Qed.

(** ** open *)

Lemma same_environment_refl w : same_environment w w.
Proof. repeat split. Qed.

Lemma same_environment_trans w1 w2 w3 :
  same_environment w1 w2 -> same_environment w2 w3 -> same_environment w1 w3.
Proof.
  unfold same_environment. intros H12 H23.
  decompose [and] H12. decompose [and] H23. repeat split; congruence.
Qed.

Lemma emit_all_spec events : forall w,
  same_environment w (emit_all events w) /\
  descriptors (emit_all events w) = descriptors w /\
  trace (emit_all events w) = trace w ++ events.
Proof.
  induction events as [|e events IH]; intros w; cbn [emit_all fold_left].
  - split; [apply same_environment_refl|]. split; [reflexivity|].
    rewrite app_nil_r. reflexivity.
  - destruct (IH (emit e w)) as (Henv & Hd & Ht). fold (emit_all events (emit e w)).
    split; [|split].
    + eapply same_environment_trans; [|exact Henv]. repeat split.
    + rewrite Hd. reflexivity.
    + rewrite Ht. cbn. rewrite <- app_assoc. reflexivity.
Qed.


(** *** Descriptors *)

Lemma lowest_free_fresh fuel : forall n (used : gset Z),
  (size used <= fuel)%nat ->
  (lowest_free fuel n used ∉ used) /\ (n <= lowest_free fuel n used).
Proof.
  induction fuel as [|fuel IH]; intros n used Hsize; cbn [lowest_free].
  - assert (used = ∅) as ->.
    { apply leibniz_equiv, size_empty_inv. lia. }
    split; [set_solver|lia].
  - destruct (decide (n ∈ used)) as [Hin|Hout]; [|split; [exact Hout|lia]].
    destruct (IH (n + 1) (used ∖ {[n]})) as [Hfresh Hle].
    + rewrite size_difference by (apply singleton_subseteq_l; exact Hin).
      rewrite size_singleton.
      assert (0 < size used)%nat; [|lia].
      destruct (size used) eqn:Hz; [|lia].
      apply size_empty_inv in Hz. set_solver.
    + split; [|lia]. intros Hr. apply Hfresh.
      apply elem_of_difference. split; [exact Hr|].
      rewrite elem_of_singleton. lia.
Qed.

Lemma fresh_descriptor_fresh w : descriptors w !! fresh_descriptor w = None.
Proof.
  apply not_elem_of_dom. unfold fresh_descriptor.
  apply lowest_free_fresh. reflexivity.
Qed.

(** *** The program headers *)

Lemma scan_program_headers_ge elf n : forall i m,
  m <= fst (scan_program_headers elf n i m).
Proof.
  induction n as [|n IH]; intros i m; cbn [scan_program_headers]; [cbn; lia|].
  destruct (gelf_getphdr elf i) as [phdr|]; [|cbn; lia].
  destruct (p_type phdr =? PT_LOAD).
  - etransitivity; [|apply IH]. lia.
  - apply IH.
Qed.



(** A scan stops at the first header that cannot be read, with the size
    reached by then. *)
Lemma scan_program_headers_stops elf k : forall n i m,
  (k < n)%nat -> gelf_getphdr elf (i + k) = None ->
  (forall j, (j < k)%nat -> is_Some (gelf_getphdr elf (i + j))) ->
  scan_program_headers elf n i m =
    (fold_left (segment_step elf) (seq i k) m, false).
Proof.
  induction k as [|k IH]; intros [|n] i m Hk Hnone Hsome; try lia;
    cbn [scan_program_headers].
  - rewrite Nat.add_0_r in Hnone. rewrite Hnone. reflexivity.
  - destruct (Hsome O ltac:(lia)) as [phdr Hp]. rewrite Nat.add_0_r in Hp.
    rewrite Hp. cbn [seq fold_left]. unfold segment_step at 2. rewrite Hp.
    apply IH; [lia| |].
    + rewrite <- Hnone. f_equal. lia.
    + intros j Hj. replace (S i + j)%nat with (i + S j)%nat by lia.
      apply Hsome. lia.
Qed.

(** *** The steps of open *)

Lemma open_steps w co u events got :
  parse_uri (m_uri co) = Returns u -> acquire w u = (events, got) ->
  open w co =
    Returns (match got with
             | GaveUp => (emit_all events w, co)
             | Acquired buffer => materialize (emit_all events w) co buffer
             end).
Proof.
  intros Hp Ha. unfold open. rewrite Hp. cbn [bind]. rewrite Ha.
  destruct got; reflexivity.
Qed.

Lemma open_returns w co w1 co1 :
  open w co = Returns (w1, co1) ->
  exists u events got,
    parse_uri (m_uri co) = Returns u /\ acquire w u = (events, got) /\
    (w1, co1) = match got with
                | GaveUp => (emit_all events w, co)
                | Acquired buffer => materialize (emit_all events w) co buffer
                end.
Proof.
  intros H. destruct (parse_uri (m_uri co)) as [u| | | |] eqn:Hp;
    try (unfold open in H; rewrite Hp in H; discriminate).
  destruct (acquire w u) as [events got] eqn:Ha.
  rewrite (open_steps w co u events got Hp Ha) in H.
  exists u, events, got. split; [reflexivity|]. split; [exact Ha|].
  congruence.
Qed.

Lemma materialize_written w co buffer :
  tmpfile_available w = true ->
  Z.of_nat (length buffer) <= tmpfile_capacity w ->
  materialize w co buffer =
    let fd := fresh_descriptor w in
    let w1 := store_temporary w fd buffer in
    match libelf w buffer with
    | None => (emit (Warning "elf_begin failed for `%s'") w1, co)
    | Some elf =>
        match elf_getphdrnum elf with
        | None =>
            (emit (Warning "elf_getphdrnum failed for `%s'")
                  (emit (ElfOpened fd) w1), co)
        | Some phnum =>
            match scan_program_headers elf phnum 0 (m_mem_size co) with
            | (mem_size, false) =>
                (emit (Warning "gelf_getphdr failed for `%s'")
                      (emit (ElfOpened fd) w1), set_mem_size mem_size co)
            | (mem_size, true) =>
                (emit (ElfOpened fd) w1, set_fd fd (set_mem_size mem_size co))
            end
        end
    end.
Proof.
  intros Ha Hc. unfold materialize, store_temporary. rewrite Ha.
  cbn [negb]. cbv zeta.
  cbn [tmpfile_capacity emit set_descriptor descriptors libelf].
  rewrite Z.min_l by exact Hc. rewrite Z.eqb_refl. cbn [negb].
  rewrite Nat2Z.id, take_ge by reflexivity.
  rewrite lookup_insert_eq. reflexivity.
Qed.

Lemma materialize_keeps w co buffer :
  tmpfile_available w = false \/ tmpfile_capacity w < Z.of_nat (length buffer) ->
  snd (materialize w co buffer) = co.
Proof.
  unfold materialize. intros [Ha|Hc].
  - rewrite Ha. reflexivity.
  - destruct (tmpfile_available w); [|reflexivity]. cbn [negb]. cbv zeta.
    cbn [tmpfile_capacity emit set_descriptor].
    rewrite Z.min_r by lia.
    destruct (Z.eqb_spec (tmpfile_capacity w) (Z.of_nat (length buffer)));
      [lia|reflexivity].
Qed.

Lemma set_mem_size_same co : set_mem_size (m_mem_size co) co = co.
Proof. destruct co; reflexivity. Qed.

(** A call that leaves an object open that was not has gone through every
    step. *)
Lemma materialize_opens w co buffer w1 co1 :
  m_fd co = None ->
  materialize w co buffer = (w1, co1) -> is_open co1 = true ->
  tmpfile_available w = true /\
  Z.of_nat (length buffer) <= tmpfile_capacity w /\
  exists elf phnum,
    libelf w buffer = Some elf /\ elf_getphdrnum elf = Some phnum /\
    scan_program_headers elf phnum 0 (m_mem_size co) = (m_mem_size co1, true) /\
    co1 = set_fd (fresh_descriptor w) (set_mem_size (m_mem_size co1) co) /\
    w1 = emit (ElfOpened (fresh_descriptor w))
              (store_temporary w (fresh_descriptor w) buffer).
Proof.
  intros Hfd Hm Ho.
  assert (Hclosed : forall co', m_fd co' = None -> is_open co' = true -> False).
  { intros co' H1 H2. unfold is_open in H2. rewrite H1 in H2. discriminate. }
  destruct (tmpfile_available w) eqn:Ha.
  2:{ exfalso. pose proof (materialize_keeps w co buffer (or_introl Ha)) as Hk.
      rewrite Hm in Hk. cbn in Hk. subst co1. eauto. }
  destruct (Z.le_gt_cases (Z.of_nat (length buffer)) (tmpfile_capacity w))
    as [Hc|Hc].
  2:{ exfalso. pose proof (materialize_keeps w co buffer (or_intror Hc)) as Hk.
      rewrite Hm in Hk. cbn in Hk. subst co1. eauto. }
  split; [reflexivity|]. split; [exact Hc|].
  rewrite (materialize_written w co buffer Ha Hc) in Hm. cbv zeta in Hm.
  destruct (libelf w buffer) as [elf|] eqn:Hl;
    [|injection Hm as _ <-; exfalso; eauto].
  destruct (elf_getphdrnum elf) as [phnum|] eqn:Hn;
    [|injection Hm as _ <-; exfalso; eauto].
  destruct (scan_program_headers elf phnum 0 (m_mem_size co)) as [mem [|]] eqn:Hs.
  - injection Hm as <- <-. exists elf, phnum. cbn.
    repeat split; assumption || reflexivity.
  - injection Hm as _ <-. exfalso. apply (Hclosed (set_mem_size mem co)); auto.
Qed.

Lemma read_file_to_end content offset :
  0 <= offset <= Z.of_nat (length content) ->
  read_file content offset (Z.of_nat (length content) - offset) =
    drop (Z.to_nat offset) content.
Proof.
  intros Ho. unfold read_file.
  assert (Hlen : length (drop (Z.to_nat offset) content) =
                 Z.to_nat (Z.of_nat (length content) - offset)).
  { rewrite length_drop. lia. }
  rewrite take_ge by lia. rewrite Hlen, Nat.sub_diag. cbn.
  apply app_nil_r.
Qed.

(** C3: a size parameter that is present and converts to zero makes [open]
    return at once, whatever the scheme: nothing is read, no temporary file
    is made and the object is as before. Reading from the offset to the end
    of the file is what a file URI without a size parameter leads to. *)
Theorem open_explicit_zero_size w co u offset :
  parse_uri (m_uri co) = Returns u ->
  parse_offset u = Returns offset ->
  (forall value,
     params u !! "size" = Some value -> Str.stoul value 0 = Returns 0 ->
     open w co = Returns (w, co)) /\
  (params u !! "size" = None -> protocol u = "file" ->
   forall content,
     files w (decoded_path u) = Some content ->
     0 <= offset <= Z.of_nat (length content) ->
     Z.of_nat (length content) - offset <= max_alloc w ->
     open w co =
       Returns (materialize
                  (emit_all [FileOpened (decoded_path u);
                             FileRead (decoded_path u) offset
                                      (Z.of_nat (length content) - offset)] w)
                  co (drop (Z.to_nat offset) content))).
Proof.
  intros Hp Hoff. split.
  - intros value Hsize Hzero.
    rewrite (open_steps w co u [] GaveUp Hp); [reflexivity|].
    unfold acquire. rewrite Hoff, Hsize, Hzero. reflexivity.
  - intros Hsize Hproto content Hfile Hrange Halloc.
    apply (open_steps w co u _ (Acquired _) Hp).
    unfold acquire. rewrite Hoff, Hsize. unfold acquire_from.
    rewrite Hproto, Hfile. cbn [String.eqb Ascii.eqb Bool.eqb andb Z.eqb].
    destruct (Z.ltb_spec (Z.of_nat (length content)) offset); [lia|].
    unfold read_from_file.
    destruct (Z.gtb_spec (Z.of_nat (length content) - offset) (max_alloc w));
      [lia|].
    rewrite read_file_to_end by exact Hrange. reflexivity.
Qed.

Lemma open_explicit_zero_size_witness :
  open example_world (example_code_object "file:///tmp/a.co?offset=0&size=0")
  = Returns (example_world,
             example_code_object "file:///tmp/a.co?offset=0&size=0").
Proof.
  assert (Hp : parse_uri "file:///tmp/a.co?offset=0&size=0"
               = Returns example_zero_size_uri) by (vm_compute; reflexivity).
  assert (Ho : parse_offset example_zero_size_uri = Returns 0)
    by (vm_compute; reflexivity).
  apply (proj1 (open_explicit_zero_size example_world
                  (example_code_object "file:///tmp/a.co?offset=0&size=0")
                  example_zero_size_uri 0 Hp Ho) "0").
  - vm_compute. reflexivity.
  - reflexivity.
Defined.

(** C3, as stated, fails on its own example: without a size parameter the
    object is read and ends up open; with [size=0] nothing is read and the
    object is not open. *)
Lemma open_size_zero_counterexample :
  (exists w' co',
     open example_world (example_code_object "file:///tmp/a.co?offset=0")
       = Returns (w', co') /\
     is_open co' = true /\
     trace w' = [ FileOpened "/tmp/a.co"; FileRead "/tmp/a.co" 0 4;
                  TemporaryCreated 0; Written 0 4; ElfOpened 0 ]) /\
  (exists w' co',
     open example_world
          (example_code_object "file:///tmp/a.co?offset=0&size=0")
       = Returns (w', co') /\
     is_open co' = false /\ trace w' = []).
Proof.
  split; eexists _, _; (split; [vm_compute; reflexivity|]); split; reflexivity.
Qed.

Lemma store_temporary_descriptor w fd buffer :
  descriptors (store_temporary w fd buffer) !! fd = Some buffer.
Proof. cbn. apply lookup_insert_eq. Qed.

(** C5: when the bytes have been acquired and written to the temporary file
    and the ELF reading then fails, [open] returns without recording the
    descriptor: the handle of the object is what it was, so that an object
    that was not open is still not open, while the temporary file stays
    open in the process. The size in memory is untouched when [elf_begin] or
    [elf_getphdrnum] fails; when a program header cannot be read it is the
    largest of the size before and the ends of the loadable segments read
    until then. *)
Theorem open_elf_failure_not_open w co u events buffer :
  parse_uri (m_uri co) = Returns u ->
  acquire w u = (events, Acquired buffer) ->
  tmpfile_available w = true ->
  Z.of_nat (length buffer) <= tmpfile_capacity w ->
  let fd := fresh_descriptor (emit_all events w) in
  ((libelf w buffer = None \/
    exists elf, libelf w buffer = Some elf /\ elf_getphdrnum elf = None) ->
   exists w',
     open w co = Returns (w', co) /\ descriptors w' !! fd = Some buffer) /\
  (forall elf phnum k,
     libelf w buffer = Some elf -> elf_getphdrnum elf = Some phnum ->
     (k < phnum)%nat -> gelf_getphdr elf k = None ->
     (forall j, (j < k)%nat -> is_Some (gelf_getphdr elf j)) ->
     exists w' co',
       open w co = Returns (w', co') /\
       co' = set_mem_size (load_segments_end elf k (m_mem_size co)) co /\
       m_fd co' = m_fd co /\ is_open co' = is_open co /\
       m_mem_size co <= m_mem_size co' /\
       descriptors w' !! fd = Some buffer).
Proof.
  intros Hp Ha Hav Hcap fd.
  destruct (emit_all_spec events w) as ((_ & _ & Hav' & Hcap' & _ & Hlib & _) & _).
  rewrite (open_steps w co u events (Acquired buffer) Hp Ha).
  rewrite materialize_written by congruence. cbv zeta. fold fd. rewrite Hlib.
  split.
  - intros [Hnone|(elf & Hl & Hn)].
    + rewrite Hnone. eexists. split; [reflexivity|].
      cbn [emit descriptors]. apply store_temporary_descriptor.
    + rewrite Hl, Hn. eexists. split; [reflexivity|].
      cbn [emit descriptors]. apply store_temporary_descriptor.
  - intros elf phnum k Hl Hn Hk Hnone Hsome. rewrite Hl, Hn.
    rewrite (scan_program_headers_stops elf k phnum 0 (m_mem_size co) Hk Hnone Hsome).
    fold (load_segments_end elf k (m_mem_size co)).
    eexists _, _. split; [reflexivity|]. split; [reflexivity|].
    split; [reflexivity|]. split; [reflexivity|]. split.
    + cbn [m_mem_size set_mem_size].
      pose proof (scan_program_headers_ge elf phnum 0 (m_mem_size co)) as Hge.
      rewrite (scan_program_headers_stops elf k phnum 0 (m_mem_size co) Hk Hnone Hsome)
        in Hge. exact Hge.
    + cbn [emit descriptors]. apply store_temporary_descriptor.
Qed.

Lemma open_elf_failure_not_open_witness :
  exists w',
    open example_world (example_code_object "file:///tmp/bad.co")
      = Returns (w', example_code_object "file:///tmp/bad.co") /\
    descriptors w' !! 0 = Some [x00; x01].
Proof.
  assert (Hp : parse_uri "file:///tmp/bad.co"
               = Returns (mkUri "file" "/tmp/bad.co" ∅))
    by (vm_compute; reflexivity).
  assert (Ha : acquire example_world (mkUri "file" "/tmp/bad.co" ∅)
               = ([FileOpened "/tmp/bad.co"; FileRead "/tmp/bad.co" 0 2],
                  Acquired [x00; x01]))
    by (vm_compute; reflexivity).
  apply (proj1 (open_elf_failure_not_open example_world
                  (example_code_object "file:///tmp/bad.co") _ _ _ Hp Ha
                  eq_refl ltac:(vm_compute; discriminate))).
  left. reflexivity.
Defined.

(** C5, as stated, fails: the bytes of [/tmp/bad.co] reach the temporary
    file, [elf_begin] fails and the object is not open; and for
    [/tmp/cut.co], whose second program header cannot be read, the size in
    memory has left zero. *)
Lemma open_elf_failure_counterexample :
  (exists w' co',
     open example_world (example_code_object "file:///tmp/bad.co")
       = Returns (w', co') /\
     descriptors w' !! 0 = Some [x00; x01] /\
     libelf example_world [x00; x01] = None /\
     is_open co' = false) /\
  (exists w' co',
     open example_world (example_code_object "file:///tmp/cut.co")
       = Returns (w', co') /\
     descriptors w' !! 0 = Some [x7f; x00] /\
     is_open co' = false /\ m_mem_size co' = 0x1000).
Proof.
  split; eexists _, _; (split; [vm_compute; reflexivity|]);
    repeat split; reflexivity.
Qed.

(** *** Calling open again *)




(* ===================================================================== *)
(** * Part III: further properties of the code                            *)
(* ===================================================================== *)

(** ** Fault-wave aggregation, continued *)

Lemma wrap64_bounds z : 0 <= wrap64 z < 2 ^ 64.
Proof. unfold wrap64. apply Z.mod_pos_bound. lia. Qed.

Lemma add64_8_cases k :
  0 <= k < 2 ^ 64 ->
  add64 k 8 = if k + 8 <? 2 ^ 64 then k + 8 else k + 8 - 2 ^ 64.
Proof.
  intros Hk. unfold add64, wrap64.
  destruct (Z.ltb_spec (k + 8) (2 ^ 64)) as [Hlt|Hge].
  - apply Z.mod_small. lia.
  - replace (k + 8) with ((k + 8 - 2 ^ 64) + 1 * 2 ^ 64) at 1 by lia.
    rewrite Z.mod_add by lia. apply Z.mod_small. lia.
Qed.

Lemma add64_8_inj k1 k2 :
  0 <= k1 < 2 ^ 64 -> 0 <= k2 < 2 ^ 64 ->
  add64 k1 8 = add64 k2 8 -> k1 = k2.
Proof.
  intros H1 H2. rewrite !add64_8_cases by assumption.
  destruct (Z.ltb_spec (k1 + 8) (2 ^ 64)), (Z.ltb_spec (k2 + 8) (2 ^ 64)); lia.
Qed.

Section MemoryFaultMore.

Context {AgentStatus : Type} (UNSUPPORTED : AgentStatus).
Context `{AgentStatusEq : EqDecision AgentStatus}.
Context {QueueStatus : Type} (FAILURE : QueueStatus).
Context {OtherRegisters : Type} (xnack : Z -> bool).

Local Abbreviation Wave := (WaveStateInfo OtherRegisters).
Local Abbreviation Queue := (QueueInfo QueueStatus OtherRegisters).
Local Abbreviation Agent := (GPUAgentInfo AgentStatus QueueStatus OtherRegisters).
Local Abbreviation faulty := (is_faulty OtherRegisters xnack).
Local Abbreviation adv_wave := (advance_wave OtherRegisters xnack).
Local Abbreviation adv_queue := (advance_queue QueueStatus FAILURE OtherRegisters xnack).
Local Abbreviation find_faulty :=
  (FindFaultyWaves AgentStatus UNSUPPORTED QueueStatus FAILURE OtherRegisters xnack).
Local Abbreviation faulty_ws := (faulty_of_waves OtherRegisters xnack).
Local Abbreviation faulty_qs := (faulty_from QueueStatus OtherRegisters xnack).
Local Abbreviation faulty_all :=
  (faulty_waves AgentStatus QueueStatus OtherRegisters xnack).
Local Abbreviation wave_of := (wave_at AgentStatus QueueStatus OtherRegisters).

Lemma advance_waves_quiet (waves : list Wave) :
  (forall w, w ∈ waves -> faulty w = false) ->
  map adv_wave waves = waves /\ existsb faulty waves = false.
Proof.
  induction waves as [|w waves IH]; intros Hq; [split; reflexivity|].
  destruct IH as [IH1 IH2]; [intros w' Hw'; apply Hq; right; exact Hw'|].
  cbn [map existsb]. unfold advance_wave at 1.
  rewrite (Hq w) by left. rewrite IH1, IH2. split; reflexivity.
Qed.

Lemma advance_queues_quiet (queues : list Queue) :
  (forall q, q ∈ queues ->
     forall w, w ∈ pWaveList _ _ q -> faulty w = false) ->
  map adv_queue queues = queues /\ faulty_qs 0 queues = [] /\
  forall qi, faulty_qs qi queues = [].
Proof.
  intros Hq.
  assert (Hall : map adv_queue queues = queues /\
                 forall qi, faulty_qs qi queues = []).
  { induction queues as [|q queues IH]; [split; reflexivity|].
    destruct IH as [IH1 IH2]; [intros q' Hq'; apply Hq; right; exact Hq'|].
    destruct (advance_waves_quiet (pWaveList _ _ q) (Hq q ltac:(left)))
      as [Hw He].
    split.
    - cbn [map]. rewrite IH1. unfold advance_queue. rewrite Hw, He.
      destruct q; reflexivity.
    - intros qi. rewrite faulty_from_cons, IH2, app_nil_r.
      unfold faulty_of_queue.
      destruct (faulty_ws qi 0 (pWaveList _ _ q)) as [|[k p] l] eqn:Hf;
        [reflexivity|].
      assert (Hin : (k, p) ∈ faulty_ws qi 0 (pWaveList _ _ q))
        by (rewrite Hf; left).
      apply elem_faulty_of_waves in Hin as (_ & _ & w & Hl & Hfw & _).
      rewrite (Hq q ltac:(left) w) in Hfw; [discriminate|].
      apply list_elem_of_lookup. eauto. }
  destruct Hall as [H1 H2]. auto.
Qed.

(** With no faulty wave the map is empty and the store is left as it is. *)
Theorem FindFaultyWaves_no_faulty_wave (a : Agent) :
  (forall q, q ∈ pQueueList _ _ _ a ->
     forall w, w ∈ pWaveList _ _ q ->
               is_faulty OtherRegisters xnack w = false) ->
  FindFaultyWaves AgentStatus UNSUPPORTED QueueStatus FAILURE OtherRegisters
                  xnack a = (∅, a).
Proof.
  intros Hq.
  destruct (decide (agentStatus _ _ _ a = UNSUPPORTED)) as [Hu|Hs].
  - apply FindFaultyWaves_unsupported, Hu.
  - rewrite FindFaultyWaves_supported by exact Hs.
    destruct (advance_queues_quiet _ Hq) as (Hmap & Hnil & _).
    unfold faulty_waves. rewrite Hmap, Hnil. destruct a; reflexivity.
Qed.

(** *** Scanning twice *)

Lemma is_faulty_advance (w : Wave) : faulty (adv_wave w) = faulty w.
Proof. unfold advance_wave. destruct (faulty w) eqn:Hf; [|exact Hf]. exact Hf. Qed.

Lemma faulty_of_waves_advance qi (waves : list Wave) : forall wi,
  faulty_ws qi wi (map adv_wave waves) = map shift_key (faulty_ws qi wi waves).
Proof.
  induction waves as [|w waves IH]; intros wi; [reflexivity|].
  unfold faulty_of_waves in *. cbn [map number_from].
  rewrite !filter_cons. cbn [snd]. rewrite is_faulty_advance.
  destruct (decide (faulty w = true)) as [Hf|Hf].
  - cbn [map fst snd]. rewrite IH. f_equal.
    unfold advance_wave. rewrite Hf. reflexivity.
  - apply IH.
Qed.

Lemma faulty_from_advance (queues : list Queue) : forall qi,
  faulty_qs qi (map adv_queue queues) = map shift_key (faulty_qs qi queues).
Proof.
  induction queues as [|q queues IH]; intros qi; [reflexivity|].
  cbn [map]. rewrite !faulty_from_cons, map_app, IH. f_equal.
  unfold faulty_of_queue, advance_queue. cbn [pWaveList].
  apply faulty_of_waves_advance.
Qed.

Lemma faulty_keys_in_range (a : Agent) e :
  e ∈ faulty_all a -> 0 <= fst e < 2 ^ 64.
Proof.
  destruct e as [k p]. intros Hin.
  apply elem_faulty_waves in Hin as (w & _ & _ & ->). apply wrap64_bounds.
Qed.

Lemma filter_shift_key k (l : list (Z * WavePtr)) :
  0 <= k < 2 ^ 64 -> (forall e, e ∈ l -> 0 <= fst e < 2 ^ 64) ->
  filter (fun e : Z * WavePtr => fst e = add64 k 8) (map shift_key l) =
  map shift_key (filter (fun e : Z * WavePtr => fst e = k) l).
Proof.
  intros Hk. induction l as [|e l IH]; intros Hr; [reflexivity|].
  cbn [map]. rewrite !filter_cons. cbn [shift_key fst].
  rewrite IH by (intros e' He'; apply Hr; right; exact He').
  destruct (decide (fst e = k)) as [Heq|Hne].
  - rewrite decide_True by (rewrite Heq; reflexivity). reflexivity.
  - rewrite decide_False; [reflexivity|].
    intros Heq. apply Hne. apply add64_8_inj; [apply Hr; left|exact Hk|exact Heq].
Qed.

Lemma first_with_shift k (l : list (Z * WavePtr)) :
  0 <= k < 2 ^ 64 -> (forall e, e ∈ l -> 0 <= fst e < 2 ^ 64) ->
  first_with (add64 k 8) (map shift_key l) = first_with k l /\
  count_with (add64 k 8) (map shift_key l) = count_with k l.
Proof.
  intros Hk Hr. unfold first_with, count_with.
  rewrite (filter_shift_key k l Hk Hr).
  split; [|apply length_map].
  destruct (filter (fun e : Z * WavePtr => fst e = k) l); reflexivity.
Qed.

(** A second scan of the store the first scan left advances the faulty
    waves once more: the map has the entries of the first map under their
    keys plus 8, and every faulty wave is 16 bytes past where it trapped. *)
Theorem FindFaultyWaves_twice (a : Agent) :
  agentStatus _ _ _ a <> UNSUPPORTED ->
  let first := find_faulty a in
  let second := find_faulty (snd first) in
  (forall k, 0 <= k < 2 ^ 64 -> fst second !! add64 k 8 = fst first !! k) /\
  (forall p w, wave_of a p = Some w ->
     exists w2, wave_of (snd second) p = Some w2 /\
                trapsts _ (regs _ w2) = trapsts _ (regs _ w) /\
                pc _ (regs _ w2) =
                  if faulty w then add64 (add64 (pc _ (regs _ w)) 8) 8
                  else pc _ (regs _ w)).
Proof.
  intros Hs first second. subst first second.
  rewrite (FindFaultyWaves_supported UNSUPPORTED FAILURE xnack a Hs). cbn [fst snd].
  rewrite FindFaultyWaves_supported by exact Hs. cbn [fst snd pQueueList].
  unfold faulty_waves at 1. cbn [pQueueList].
  rewrite faulty_from_advance. fold (faulty_all a). split.
  - intros k Hk. rewrite !record_all_lookup.
    destruct (first_with_shift k (faulty_all a) Hk (faulty_keys_in_range a))
      as [-> ->]. reflexivity.
  - intros p w Hw. unfold wave_at in *. cbn [pQueueList].
    rewrite !lookup_map.
    destruct (pQueueList _ _ _ a !! fst p) as [q|]; [|discriminate].
    cbn in *. rewrite !lookup_map, Hw. cbn.
    exists (adv_wave (adv_wave w)). split; [reflexivity|].
    unfold advance_wave at 1 3. rewrite is_faulty_advance.
    unfold advance_wave. destruct (faulty w); split; reflexivity.
Qed.

End MemoryFaultMore.

Lemma FindFaultyWaves_no_faulty_wave_witness :
  example_FindFaultyWaves example_quiet_agent = (∅, example_quiet_agent).
Proof.
  apply FindFaultyWaves_no_faulty_wave.
  intros q Hq w Hw.
  repeat (apply elem_of_cons in Hq as [->|Hq]);
    [| |inversion Hq].
  - repeat (apply elem_of_cons in Hw as [->|Hw]); [reflexivity|reflexivity|inversion Hw].
  - inversion Hw.
Defined.

Lemma FindFaultyWaves_twice_witness :
  fst (example_FindFaultyWaves (snd (example_FindFaultyWaves (example_agent false))))
    !! add64 0x1008 8
  = fst (example_FindFaultyWaves (example_agent false)) !! 0x1008.
Proof.
  refine (proj1 (FindFaultyWaves_twice true true example_xnack
                   (example_agent false) _) 0x1008 _).
  - discriminate.
  - lia.
Defined.

(** ** The memory-fault handler *)

Section HandlerProperties.

Context {AgentStatus : Type} (UNSUPPORTED : AgentStatus).
Context `{AgentStatusEq : EqDecision AgentStatus}.
Context {QueueStatus : Type} (FAILURE : QueueStatus).
Context {EventType : Type} (MEMORY_FAULT : EventType).
Context `{EventTypeEq : EqDecision EventType}.
Context {OtherRegisters : Type} (xnack : Z -> bool).
Context {HsaEventType : Type} (GPU_FAULT : HsaEventType).
Context `{HsaEventTypeEq : EqDecision HsaEventType}.
Context (clean_up : Z -> QueueInfo QueueStatus OtherRegisters ->
                    QueueInfo QueueStatus OtherRegisters).
Context (process : Z -> QueueInfo QueueStatus OtherRegisters ->
                   bool * QueueInfo QueueStatus OtherRegisters).

Local Abbreviation handle :=
  (HSADebugAgentHandleMemoryFault AgentStatus UNSUPPORTED QueueStatus FAILURE
     EventType MEMORY_FAULT OtherRegisters xnack HsaEventType GPU_FAULT
     clean_up process).
Local Abbreviation State :=
  (DebugAgent AgentStatus QueueStatus EventType OtherRegisters).

Lemma handler_not_initialized (event : hsa_amd_event_t HsaEventType) (g : State) :
  g_debugAgentInitialSuccess _ _ _ _ g = false ->
  handle event g = Returns (HSA_STATUS_ERROR, g).
Proof.
  intros H. unfold HSADebugAgentHandleMemoryFault. rewrite H. reflexivity.
Qed.

Lemma handler_other_event (event : hsa_amd_event_t HsaEventType) (g : State) :
  event_type _ event <> GPU_FAULT ->
  handle event g = Returns (HSA_STATUS_ERROR, g).
Proof.
  intros H. unfold HSADebugAgentHandleMemoryFault.
  destruct (g_debugAgentInitialSuccess _ _ _ _ g); [|reflexivity].
  cbn [negb]. rewrite decide_True by exact H. reflexivity.
Qed.

Lemma handler_waits (event : hsa_amd_event_t HsaEventType) (g : State) :
  g_debugAgentInitialSuccess _ _ _ _ g = true ->
  event_type _ event = GPU_FAULT ->
  debugAgentAccessLock _ _ _ _ g = true ->
  handle event g = Diverges.
Proof.
  intros Hi Ht Hl. unfold HSADebugAgentHandleMemoryFault.
  rewrite Hi, Hl. cbn [negb]. rewrite decide_False by tauto. reflexivity.
Qed.

Lemma handler_no_event_record (event : hsa_amd_event_t HsaEventType) (g : State) :
  g_debugAgentInitialSuccess _ _ _ _ g = true ->
  event_type _ event = GPU_FAULT ->
  debugAgentAccessLock _ _ _ _ g = false ->
  pDebugAgentEvent _ _ _ _ g = None ->
  exists g' : State,
    handle event g = Returns (HSA_STATUS_ERROR, g') /\
    debugAgentAccessLock _ _ _ _ g' = true /\
    g_debugAgentInitialSuccess _ _ _ _ g' = true.
Proof.
  intros Hi Ht Hl He. unfold HSADebugAgentHandleMemoryFault.
  rewrite Hi, Hl, He. cbn [negb]. rewrite decide_False by tauto.
  eexists. split; [reflexivity|]. split; reflexivity.
Qed.

Lemma handler_unlocks (event : hsa_amd_event_t HsaEventType) (g : State) info :
  g_debugAgentInitialSuccess _ _ _ _ g = true ->
  event_type _ event = GPU_FAULT ->
  debugAgentAccessLock _ _ _ _ g = false ->
  pDebugAgentEvent _ _ _ _ g = Some info ->
  exists status (g' : State),
    handle event g = Returns (status, g') /\
    debugAgentAccessLock _ _ _ _ g' = false.
Proof.
  intros Hi Ht Hl He. unfold HSADebugAgentHandleMemoryFault.
  rewrite Hi, Hl, He. cbn [negb]. rewrite decide_False by tauto.
  destruct (g_gdbAttached _ _ _ _ g).
  - eexists _, _. split; reflexivity.
  - destruct (process_queues _ _ clean_up process _ _) as [[|] queues];
      cbn [negb].
    + destruct (FindFaultyWaves _ _ _ _ _ _ _) as [waves a'].
      eexists _, _. split; reflexivity.
    + eexists _, _. split; reflexivity.
Qed.

(** The handler returns with the lock held exactly when it took the lock and
    found no event record: that path returns an error without unlocking.
    Every other path leaves the lock free, and a call that took no lock
    changes nothing. A later fault event then waits for the lock for ever. *)
Theorem handler_lock_balance (event : hsa_amd_event_t HsaEventType) (g : State) :
  debugAgentAccessLock _ _ _ _ g = false ->
  exists status (g' : State),
    handle event g = Returns (status, g') /\
    (debugAgentAccessLock _ _ _ _ g' = true <->
     g_debugAgentInitialSuccess _ _ _ _ g = true /\
     event_type _ event = GPU_FAULT /\
     pDebugAgentEvent _ _ _ _ g = None) /\
    (debugAgentAccessLock _ _ _ _ g' = true -> status = HSA_STATUS_ERROR) /\
    (g_debugAgentInitialSuccess _ _ _ _ g = false \/
     event_type _ event <> GPU_FAULT -> g' = g /\ status = HSA_STATUS_ERROR) /\
    (debugAgentAccessLock _ _ _ _ g' = true ->
     forall event', event_type _ event' = GPU_FAULT ->
                    handle event' g' = Diverges).
Proof.
  intros Hfree.
  destruct (g_debugAgentInitialSuccess _ _ _ _ g) eqn:Hinit.
  2:{ exists HSA_STATUS_ERROR, g.
      split; [apply handler_not_initialized, Hinit|]. rewrite Hfree.
      split; [split; [discriminate|intros (H & _); discriminate]|].
      split; [discriminate|]. split; [auto|discriminate]. }
  destruct (decide (event_type _ event = GPU_FAULT)) as [Hty|Hty].
  2:{ exists HSA_STATUS_ERROR, g.
      split; [apply handler_other_event, Hty|]. rewrite Hfree.
      split; [split; [discriminate|intros (_ & H & _); contradiction]|].
      split; [discriminate|]. split; [auto|discriminate]. }
  destruct (pDebugAgentEvent _ _ _ _ g) as [info|] eqn:Hinfo.
  - destruct (handler_unlocks event g info Hinit Hty Hfree Hinfo)
      as (status & g' & Hrun & Hl).
    exists status, g'. split; [exact Hrun|]. rewrite Hl.
    split; [split; [discriminate|intros (_ & _ & H); discriminate]|].
    split; [discriminate|].
    split; [intros [H|H]; [discriminate|contradiction]|discriminate].
  - destruct (handler_no_event_record event g Hinit Hty Hfree Hinfo)
      as (g' & Hrun & Hl & Hi').
    exists HSA_STATUS_ERROR, g'. split; [exact Hrun|]. rewrite Hl.
    split; [split; auto|]. split; [reflexivity|].
    split; [intros [H|H]; [discriminate|contradiction]|].
    intros _ event' Hty'. apply handler_waits; assumption.
Qed.



End HandlerProperties.

Lemma handler_lock_balance_witness :
  exists status g',
    example_handler (mkHsaEvent bool true 0x7F00DEADB000 1)
                    (example_debug_agent None) = Returns (status, g') /\
    status = HSA_STATUS_ERROR /\
    debugAgentAccessLock _ _ _ _ g' = true.
Proof.
  destruct (handler_lock_balance true true true example_xnack true
              (fun _ q => q) (fun _ q => (true, q))
              (mkHsaEvent bool true 0x7F00DEADB000 1)
              (example_debug_agent None) eq_refl)
    as (status & g' & Hrun & Hlock & Herr & _).
  exists status, g'. split; [exact Hrun|].
  assert (Hheld : debugAgentAccessLock _ _ _ _ g' = true)
    by (apply Hlock; repeat split).
  split; [apply Herr, Hheld|exact Hheld].
Defined.


(** ** open, continued *)

Lemma acquire_with_request w u offset size :
  parse_offset u = Returns offset -> size_request u size ->
  acquire w u = acquire_from w u offset size.
Proof.
  intros Ho [[Hnone ->]|(value & Hv & Hs & Hnz)]; unfold acquire; rewrite Ho.
  - rewrite Hnone. reflexivity.
  - rewrite Hv, Hs. destruct (Z.eqb_spec size 0); [contradiction|reflexivity].
Qed.

Lemma string_eqb_false s1 s2 : s1 <> s2 -> String.eqb s1 s2 = false.
Proof. intros H. apply String.eqb_neq, H. Qed.

(** A scheme other than [file] and [memory] makes [open] warn and return:
    the object is as before, nothing is read and no temporary file is
    made. *)
Theorem open_unsupported_protocol w co u offset size :
  parse_uri (m_uri co) = Returns u ->
  parse_offset u = Returns offset -> size_request u size ->
  protocol u <> "file" -> protocol u <> "memory" ->
  open w co = Returns (emit (Warning unsupported_protocol_warning) w, co).
Proof.
  intros Hp Ho Hs Hf Hm.
  rewrite (open_steps w co u [Warning unsupported_protocol_warning] GaveUp Hp);
    [reflexivity|].
  rewrite (acquire_with_request w u offset size Ho Hs). unfold acquire_from.
  rewrite (string_eqb_false _ _ Hf), (string_eqb_false _ _ Hm). reflexivity.
Qed.

Lemma open_unsupported_protocol_witness :
  open example_world (example_code_object "http://host/a.co")
  = Returns (emit (Warning unsupported_protocol_warning) example_world,
             example_code_object "http://host/a.co").
Proof.
  assert (Hp : parse_uri "http://host/a.co" = Returns (mkUri "http" "host/a.co" ∅))
    by (vm_compute; reflexivity).
  apply (open_unsupported_protocol example_world
           (example_code_object "http://host/a.co") _ 0 0 Hp).
  - reflexivity.
  - left. split; reflexivity.
  - discriminate.
  - discriminate.
Defined.

(** The [memory] scheme, for an offset that converts. Without a size
    parameter, and with a size that is not zero and an offset that is,
    [open] warns of an invalid URI and returns with the object as before. A
    size parameter that converts to zero makes it return at once, without a
    warning, whatever the offset. With an offset and a size that are not
    zero, a buffer that cannot be made leaves the call to go on with an
    empty one, a read of the memory that fails makes [open] warn and
    return, and otherwise the bytes read go on to the temporary file. *)
Theorem open_memory_scheme w co u offset :
  parse_uri (m_uri co) = Returns u ->
  parse_offset u = Returns offset ->
  protocol u = "memory" ->
  let invalid :=
    Returns (emit (Warning "invalid uri `%s' (offset and size must be != 0")
                  w, co) in
  (params u !! "size" = None -> open w co = invalid) /\
  (forall value size,
     params u !! "size" = Some value -> Str.stoul value 0 = Returns size ->
     (size = 0 -> open w co = Returns (w, co)) /\
     (size <> 0 -> offset = 0 -> open w co = invalid) /\
     (size <> 0 -> offset <> 0 -> max_alloc w < size ->
      open w co = Returns (materialize w co [])) /\
     (size <> 0 -> offset <> 0 -> size <= max_alloc w ->
      match read_memory w offset size with
      | None =>
          open w co =
            Returns (emit_all [MemoryRead offset size;
                               Warning "could not read memory at 0x%lx"] w, co)
      | Some buffer =>
          open w co =
            Returns (materialize (emit (MemoryRead offset size) w) co buffer)
      end)).
Proof.
  intros Hp Ho Hm invalid. subst invalid.
  assert (Hfrom : forall size,
            acquire_from w u offset size =
            if (offset =? 0) || (size =? 0) then
              ([Warning "invalid uri `%s' (offset and size must be != 0"],
               GaveUp)
            else if size >? max_alloc w then ([], Acquired [])
            else match read_memory w offset size with
                 | Some buffer => ([MemoryRead offset size], Acquired buffer)
                 | None =>
                     ([MemoryRead offset size;
                       Warning "could not read memory at 0x%lx"], GaveUp)
                 end).
  { intros size. unfold acquire_from. rewrite Hm. reflexivity. }
  split.
  - intros Hnone.
    assert (Ha : acquire w u = acquire_from w u offset 0)
      by (unfold acquire; rewrite Ho, Hnone; reflexivity).
    rewrite Hfrom, orb_true_r in Ha.
    rewrite (open_steps w co u _ _ Hp Ha). reflexivity.
  - intros value size Hv Hs.
    assert (Ha : acquire w u =
                 if size =? 0 then ([], GaveUp)
                 else acquire_from w u offset size)
      by (unfold acquire; rewrite Ho, Hv, Hs; reflexivity).
    rewrite Hfrom in Ha.
    split; [|split; [|split]].
    + intros ->. cbn in Ha. rewrite (open_steps w co u _ _ Hp Ha). reflexivity.
    + intros Hsz ->.
      destruct (Z.eqb_spec size 0) as [|_]; [contradiction|]. cbn in Ha.
      rewrite (open_steps w co u _ _ Hp Ha). reflexivity.
    + intros Hsz Hoz Halloc.
      destruct (Z.eqb_spec size 0) as [|_]; [contradiction|].
      destruct (Z.eqb_spec offset 0) as [|_]; [contradiction|].
      cbn [orb] in Ha.
      destruct (Z.gtb_spec size (max_alloc w)); [|lia].
      rewrite (open_steps w co u _ _ Hp Ha). reflexivity.
    + intros Hsz Hoz Halloc.
      destruct (Z.eqb_spec size 0) as [|_]; [contradiction|].
      destruct (Z.eqb_spec offset 0) as [|_]; [contradiction|].
      cbn [orb] in Ha.
      destruct (Z.gtb_spec size (max_alloc w)); [lia|].
      destruct (read_memory w offset size) as [buffer|];
        rewrite (open_steps w co u _ _ Hp Ha); reflexivity.
Qed.

Lemma open_memory_scheme_witness :
  open example_world (example_code_object "memory://buf?offset=0x10&size=0")
  = Returns (example_world,
             example_code_object "memory://buf?offset=0x10&size=0") /\
  open example_world (example_code_object "memory://buf?offset=0&size=0x20")
  = Returns (emit (Warning "invalid uri `%s' (offset and size must be != 0")
                  example_world,
             example_code_object "memory://buf?offset=0&size=0x20").
Proof.
  split.
  - assert (Hp : parse_uri "memory://buf?offset=0x10&size=0"
                 = Returns (mkUri "memory" "buf"
                              (<["size" := "0"]> (<["offset" := "0x10"]> ∅))))
      by (vm_compute; reflexivity).
    refine (proj1 (proj2 (open_memory_scheme example_world
                            (example_code_object "memory://buf?offset=0x10&size=0")
                            _ 16 Hp _ eq_refl) "0" 0 _ _) eq_refl);
      vm_compute; reflexivity.
  - assert (Hp : parse_uri "memory://buf?offset=0&size=0x20"
                 = Returns (mkUri "memory" "buf"
                              (<["size" := "0x20"]> (<["offset" := "0"]> ∅))))
      by (vm_compute; reflexivity).
    refine (proj1 (proj2 (proj2 (open_memory_scheme example_world
                            (example_code_object "memory://buf?offset=0&size=0x20")
                            _ 0 Hp _ eq_refl) "0x20" 32 _ _)) _ eq_refl);
      try (vm_compute; reflexivity). discriminate.
Defined.

Lemma read_file_length content offset size :
  length (read_file content offset size) = Z.to_nat size.
Proof.
  unfold read_file. rewrite length_app, length_replicate, length_take. lia.
Qed.

(** The [file] scheme: a file that cannot be opened, or that is shorter than
    the offset when no size is given, makes [open] warn and return with the
    object as before. With a size given the length of the file is not
    looked at: exactly that many bytes go on to the temporary file, zeros
    standing for what the file does not have. *)
Theorem open_file_scheme w co u offset size :
  parse_uri (m_uri co) = Returns u ->
  parse_offset u = Returns offset -> size_request u size ->
  protocol u = "file" ->
  (files w (decoded_path u) = None ->
   open w co = Returns (emit (Warning "could not open `%s'") w, co)) /\
  (forall content,
     files w (decoded_path u) = Some content ->
     (size = 0 -> Z.of_nat (length content) < offset ->
      open w co =
        Returns (emit_all [FileOpened (decoded_path u);
                           Warning "invalid uri `%s' (file size < offset)"] w,
                 co)) /\
     (size <> 0 -> size <= max_alloc w ->
      open w co =
        Returns (materialize
                   (emit_all [FileOpened (decoded_path u);
                              FileRead (decoded_path u) offset size] w)
                   co (read_file content offset size)) /\
      length (read_file content offset size) = Z.to_nat size)).
Proof.
  intros Hp Ho Hs Hf.
  pose proof (acquire_with_request w u offset size Ho Hs) as Ha.
  unfold acquire_from in Ha. rewrite Hf in Ha.
  cbn [String.eqb Ascii.eqb Bool.eqb andb] in Ha. split.
  - intros Hnone. rewrite Hnone in Ha.
    rewrite (open_steps w co u _ _ Hp Ha). reflexivity.
  - intros content Hsome. rewrite Hsome in Ha. split.
    + intros -> Hshort. cbn [Z.eqb] in Ha.
      destruct (Z.ltb_spec (Z.of_nat (length content)) offset); [|lia].
      rewrite (open_steps w co u _ _ Hp Ha). reflexivity.
    + intros Hnz Halloc.
      destruct (Z.eqb_spec size 0); [contradiction|].
      unfold read_from_file in Ha.
      destruct (Z.gtb_spec size (max_alloc w)); [lia|].
      rewrite (open_steps w co u _ _ Hp Ha).
      split; [reflexivity|apply read_file_length].
Qed.

Lemma open_file_scheme_witness :
  open example_world (example_code_object "file:///tmp/none.co")
  = Returns (emit (Warning "could not open `%s'") example_world,
             example_code_object "file:///tmp/none.co").
Proof.
  assert (Hp : parse_uri "file:///tmp/none.co"
               = Returns (mkUri "file" "/tmp/none.co" ∅))
    by (vm_compute; reflexivity).
  apply (proj1 (open_file_scheme example_world
                  (example_code_object "file:///tmp/none.co") _ 0 0 Hp
                  eq_refl ltac:(left; split; reflexivity) eq_refl)).
  reflexivity.
Defined.

(** An offset or a size that [std::stoul] rejects does not stop [open]: the
    exception is swallowed by the empty handler and the call goes on with
    an empty buffer, which it writes to a temporary file and has libelf
    read. *)
Theorem open_malformed_number w co u :
  parse_uri (m_uri co) = Returns u ->
  (parse_offset u = Throws \/
   exists offset value,
     parse_offset u = Returns offset /\ params u !! "size" = Some value /\
     Str.stoul value 0 = Throws) ->
  open w co = Returns (materialize w co []).
Proof.
  intros Hp Hbad.
  apply (open_steps w co u [] (Acquired []) Hp).
  unfold acquire.
  destruct Hbad as [->|(offset & value & -> & -> & ->)]; reflexivity.
Qed.

Lemma open_malformed_number_witness :
  open example_world (example_code_object "file:///tmp/a.co?offset=zz")
  = Returns (materialize example_world
               (example_code_object "file:///tmp/a.co?offset=zz") []).
Proof.
  assert (Hp : parse_uri "file:///tmp/a.co?offset=zz"
               = Returns (mkUri "file" "/tmp/a.co" (<["offset" := "zz"]> ∅)))
    by (vm_compute; reflexivity).
  apply (open_malformed_number example_world
           (example_code_object "file:///tmp/a.co?offset=zz") _ Hp).
  left. vm_compute. reflexivity.
Defined.

(** A scan that succeeds has read every header. *)
Lemma scan_program_headers_succeeds elf n : forall i m r,
  scan_program_headers elf n i m = (r, true) ->
  (forall j, (j < n)%nat -> is_Some (gelf_getphdr elf (i + j))) /\
  r = fold_left (segment_step elf) (seq i n) m.
Proof.
  induction n as [|n IH]; intros i m r H; cbn [scan_program_headers] in H.
  - injection H as <-. split; [intros j Hj; lia|reflexivity].
  - destruct (gelf_getphdr elf i) as [phdr|] eqn:Hp; [|discriminate].
    apply IH in H as [Hsome Hr]. split.
    + intros [|j] Hj; [rewrite Nat.add_0_r, Hp; eauto|].
      replace (i + S j)%nat with (S i + j)%nat by lia. apply Hsome. lia.
    + cbn [seq fold_left]. unfold segment_step at 2. rewrite Hp. exact Hr.
Qed.

(** A call of [open] that opens an object has found a descriptor that was
    not in use, holding the bytes acquired, which libelf reads as an image
    all of whose program headers can be read; the size in memory is then the
    largest of the size before and the ends of the loadable segments. *)
Theorem open_success_footprint w co w1 co1 :
  m_fd co = None ->
  open w co = Returns (w1, co1) ->
  is_open co1 = true ->
  exists fd buffer elf phnum,
    m_fd co1 = Some fd /\
    descriptors w !! fd = None /\
    descriptors w1 !! fd = Some buffer /\
    libelf w buffer = Some elf /\
    elf_getphdrnum elf = Some phnum /\
    (forall j, (j < phnum)%nat -> is_Some (gelf_getphdr elf j)) /\
    m_mem_size co1 = load_segments_end elf phnum (m_mem_size co).
Proof.
  intros Hfd Hopen Ho.
  destruct (open_returns w co w1 co1 Hopen) as (u & events & got & Hp & Ha & Hres).
  destruct got as [|buffer].
  { injection Hres as _ ->. unfold is_open in Ho. rewrite Hfd in Ho.
    discriminate. }
  symmetry in Hres.
  destruct (emit_all_spec events w) as ((_ & _ & _ & _ & _ & Hlib & _) & Hd0 & _).
  destruct (materialize_opens _ co buffer w1 co1 Hfd Hres Ho)
    as (_ & _ & elf & phnum & Hl & Hn & Hscan & Hco1 & Hw1).
  destruct (scan_program_headers_succeeds elf phnum 0 _ _ Hscan) as [Hall Hmem].
  exists (fresh_descriptor (emit_all events w)), buffer, elf, phnum.
  split; [rewrite Hco1; reflexivity|].
  split; [rewrite <- Hd0; apply fresh_descriptor_fresh|].
  split.
  { rewrite Hw1. cbn [emit descriptors]. apply store_temporary_descriptor. }
  split; [rewrite <- Hlib; exact Hl|]. split; [exact Hn|].
  split; [exact Hall|exact Hmem].
Qed.

Lemma open_success_footprint_witness :
  exists fd buffer elf phnum,
    m_fd example_opened = Some fd /\
    descriptors example_opened_world !! fd = Some buffer /\
    libelf example_world buffer = Some elf /\
    m_mem_size example_opened = load_segments_end elf phnum 0.
Proof.
  assert (Hopen : open example_world (example_code_object "file:///tmp/a.co")
                  = Returns (example_opened_world, example_opened))
    by (vm_compute; reflexivity).
  destruct (open_success_footprint example_world
              (example_code_object "file:///tmp/a.co")
              example_opened_world example_opened eq_refl Hopen eq_refl)
    as (fd & buffer & elf & phnum & H1 & _ & H3 & H4 & _ & _ & H7).
  exists fd, buffer, elf, phnum. auto.
Defined.

Lemma materialize_preserves w co buffer :
  let w' := fst (materialize w co buffer) in
  let co' := snd (materialize w co buffer) in
  same_environment w w' /\
  (forall fd bytes, descriptors w !! fd = Some bytes ->
                    descriptors w' !! fd = Some bytes) /\
  (exists events, trace w' = trace w ++ events) /\
  (exists size fd, co' = set_mem_size size co \/
                   co' = set_fd fd (set_mem_size size co)) /\
  m_mem_size co <= m_mem_size co'.
Proof.
  cbv zeta.
  assert (Hkeep : forall fd bytes,
            descriptors w !! fd = Some bytes -> fd <> fresh_descriptor w).
  { intros fd bytes Hfd ->. rewrite fresh_descriptor_fresh in Hfd. discriminate. }
  assert (Hself : exists size fd, co = set_mem_size size co \/
                                  co = set_fd fd (set_mem_size size co)).
  { exists (m_mem_size co), 0. left. symmetry. apply set_mem_size_same. }
  unfold materialize.
  destruct (tmpfile_available w) eqn:Hav; cbn [negb].
  2:{ cbn [fst snd emit descriptors trace].
      split; [repeat split|]. split; [auto|].
      split; [eexists; reflexivity|]. split; [exact Hself|lia]. }
  cbv zeta.
  set (fd := fresh_descriptor w) in *.
  set (size := Z.min _ _).
  set (w2 := emit (Written fd size) _).
  assert (Henv : same_environment w w2) by (repeat split).
  assert (Hdesc : forall fd' bytes, descriptors w !! fd' = Some bytes ->
                                    descriptors w2 !! fd' = Some bytes).
  { intros fd' bytes H. subst w2. cbn.
    rewrite !lookup_insert_ne by (intros Heq; apply (Hkeep _ _ H); symmetry;
                                  exact Heq).
    exact H. }
  assert (Htrace : trace w2 = trace w ++ [TemporaryCreated fd; Written fd size]).
  { subst w2. cbn. rewrite <- app_assoc. reflexivity. }
  destruct (negb (size =? Z.of_nat (length buffer))).
  { cbn [fst snd emit descriptors trace]. split; [exact Henv|].
    split; [exact Hdesc|]. split; [|split; [exact Hself|lia]].
    rewrite Htrace, <- app_assoc. eexists; reflexivity. }
  destruct (descriptors w2 !! fd ≫= libelf w2) as [elf|].
  2:{ cbn [fst snd emit descriptors trace]. split; [exact Henv|].
      split; [exact Hdesc|]. split; [|split; [exact Hself|lia]].
      rewrite Htrace, <- app_assoc. eexists; reflexivity. }
  destruct (elf_getphdrnum elf) as [phnum|].
  2:{ cbn [fst snd emit descriptors trace]. split; [exact Henv|].
      split; [exact Hdesc|]. split; [|split; [exact Hself|lia]].
      rewrite Htrace, <- !app_assoc. eexists; reflexivity. }
  pose proof (scan_program_headers_ge elf phnum 0 (m_mem_size co)) as Hge.
  destruct (scan_program_headers elf phnum 0 (m_mem_size co)) as [mem [|]];
    cbn [fst snd emit descriptors trace] in *.
  - split; [exact Henv|]. split; [exact Hdesc|]. split; [|split].
    + rewrite Htrace, <- !app_assoc. eexists; reflexivity.
    + exists mem, fd. right. reflexivity.
    + exact Hge.
  - split; [exact Henv|]. split; [exact Hdesc|]. split; [|split].
    + rewrite Htrace, <- !app_assoc. eexists; reflexivity.
    + exists mem, fd. left. reflexivity.
    + exact Hge.
Qed.

(** Whatever a call of [open] does, it only adds: the files, the memory and
    the libraries are not touched, every descriptor that was open still is
    with the same bytes, and the trace is extended. In the object only the
    handle and the size in memory can change: the size never decreases, an
    object that was open stays open, and the URI, the load address, the
    identifiers and the three maps, built or not, are as before. *)
Theorem open_preserves w co w1 co1 :
  open w co = Returns (w1, co1) ->
  same_environment w w1 /\
  (forall fd bytes, descriptors w !! fd = Some bytes ->
                    descriptors w1 !! fd = Some bytes) /\
  (exists events, trace w1 = trace w ++ events) /\
  m_mem_size co <= m_mem_size co1 /\
  (is_open co = true -> is_open co1 = true) /\
  m_uri co1 = m_uri co /\ m_load_address co1 = m_load_address co /\
  m_code_object_id co1 = m_code_object_id co /\
  m_process_id co1 = m_process_id co /\
  m_symbol_map co1 = m_symbol_map co /\
  m_line_number_map co1 = m_line_number_map co /\
  m_compilation_unit_low_high_pc_map co1 =
    m_compilation_unit_low_high_pc_map co.
Proof.
  intros Hopen.
  destruct (open_returns w co w1 co1 Hopen) as (u & events & got & Hp & Ha & Hres).
  destruct (emit_all_spec events w) as (Henv0 & Hd0 & Ht0).
  destruct got as [|buffer].
  - injection Hres as -> ->. split; [exact Henv0|]. rewrite Hd0.
    split; [auto|]. split; [eauto|]. split; [lia|]. repeat split; auto.
  - pose proof (materialize_preserves (emit_all events w) co buffer) as Hm.
    rewrite <- Hres in Hm. cbn [fst snd] in Hm.
    destruct Hm as (Henv & Hdesc & (events' & Ht) & (size & fd & Hco) & Hge).
    split; [eapply same_environment_trans; eassumption|].
    split; [intros fd' bytes H; apply Hdesc; rewrite Hd0; exact H|].
    split; [exists (events ++ events'); rewrite Ht, Ht0, app_assoc; reflexivity|].
    split; [exact Hge|].
    destruct Hco as [-> | ->]; repeat split; auto.
Qed.

Lemma open_preserves_witness :
  m_mem_size (example_code_object "file:///tmp/cut.co")
  <= m_mem_size
       (set_mem_size 0x1000 (example_code_object "file:///tmp/cut.co")).
Proof.
  assert (Hopen : exists w1,
            open example_world (example_code_object "file:///tmp/cut.co")
            = Returns (w1, set_mem_size 0x1000
                             (example_code_object "file:///tmp/cut.co")))
    by (eexists; vm_compute; reflexivity).
  destruct Hopen as [w1 Hopen].
  exact (proj1 (proj2 (proj2 (proj2 (open_preserves _ _ _ _ Hopen))))).
Defined.

(** Once [open] has opened an object, a look-up in the world it left passes
    the assertion and has libelf read the temporary file as it did during
    [open]. With an index in the object the look-up searches it and leaves
    the object as it is. Without one it builds the index and searches it
    when libelf returns every section header, every symbol of the symbol
    tables and the name of every defined function; where libelf returns a
    null pointer for one of them, which [open] did not ask for, the look-up
    has no defined behaviour. *)
Theorem find_symbol_after_open w co w1 co1 address :
  m_fd co = None ->
  open w co = Returns (w1, co1) ->
  is_open co1 = true ->
  exists elf,
    elf_begin w1 co1 = Some elf /\
    (forall m, m_symbol_map co = Some m ->
       find_symbol w1 co1 address = Returns (lookup_symbol w1 m address, co1)) /\
    (m_symbol_map co = None -> scan_readable elf ->
       exists m : symbol_map,
         for_each (add_section (m_load_address co)) (elf_sections elf) []
           = Returns m /\
         find_symbol w1 co1 address
           = Returns (lookup_symbol w1 m address, set_symbol_map m co1)) /\
    (m_symbol_map co = None -> ~ scan_readable elf ->
       find_symbol w1 co1 address = UndefinedBehaviour).
Proof.
  intros Hfd Hopen Ho.
  destruct (open_returns w co w1 co1 Hopen) as (u & events & got & Hp & Ha & Hres).
  destruct got as [|buffer].
  { injection Hres as _ ->. unfold is_open in Ho. rewrite Hfd in Ho.
    discriminate. }
  symmetry in Hres.
  destruct (materialize_opens _ co buffer w1 co1 Hfd Hres Ho)
    as (_ & _ & elf & phnum & Hl & _ & _ & Hco1 & Hw1).
  assert (Helf : elf_begin w1 co1 = Some elf).
  { unfold elf_begin. rewrite Hco1 at 1. cbn [m_fd set_fd option_bind mbind].
    rewrite Hw1. cbn [emit descriptors libelf].
    rewrite store_temporary_descriptor. cbn. exact Hl. }
  assert (Hmap : m_symbol_map co1 = m_symbol_map co)
    by (rewrite Hco1; reflexivity).
  assert (Hload : m_load_address co1 = m_load_address co)
    by (rewrite Hco1; reflexivity).
  exists elf. split; [exact Helf|].
  split; [|split].
  - intros m Hm. unfold find_symbol, load_symbol_map.
    rewrite Ho, Hmap, Hm. cbn. rewrite Hmap, Hm. reflexivity.
  - intros Hm Hread.
    destruct (built_symbol_map (m_load_address co) elf)
      as [(_ & m & Hrun & _)|(Hnot & _)]; [|contradiction].
    exists m. split; [exact Hrun|]. unfold find_symbol.
    rewrite (load_symbol_map_builds w1 co1 elf Ho
               ltac:(rewrite Hmap; exact Hm) Helf), Hload, Hrun.
    reflexivity.
  - intros Hm Hnot.
    destruct (built_symbol_map (m_load_address co) elf)
      as [(Hread & _)|(_ & Hrun)]; [contradiction|].
    unfold find_symbol.
    rewrite (load_symbol_map_builds w1 co1 elf Ho
               ltac:(rewrite Hmap; exact Hm) Helf), Hload, Hrun.
    reflexivity.
Qed.

Lemma find_symbol_after_open_witness :
  exists elf,
    elf_begin example_opened_world example_opened = Some elf /\
    (scan_readable elf ->
     exists m : symbol_map,
       for_each (add_section 0) (elf_sections elf) [] = Returns m /\
       find_symbol example_opened_world example_opened 0x105
         = Returns (lookup_symbol example_opened_world m 0x105,
                    set_symbol_map m example_opened)).
Proof.
  assert (Hopen : open example_world (example_code_object "file:///tmp/a.co")
                  = Returns (example_opened_world, example_opened))
    by (vm_compute; reflexivity).
  destruct (find_symbol_after_open example_world
              (example_code_object "file:///tmp/a.co")
              example_opened_world example_opened 0x105 eq_refl Hopen eq_refl)
    as (elf & Helf & _ & Hbuild & _).
  exists elf. split; [exact Helf|]. exact (Hbuild eq_refl).
Defined.

(** ** The URI *)

Lemma find_delimiter_short s :
  (String.length s < 2)%nat -> Str.find s "://" 0 = Str.npos.
Proof.
  intros Hlen. unfold Str.find, Str.size.
  destruct (Z.gtb_spec 0 (Z.of_nat (String.length s))); [lia|].
  destruct s as [|c [|c' s]]; cbn in Hlen; [reflexivity| |lia].
  destruct c as [[] [] [] [] [] [] [] []]; reflexivity.
Qed.

Lemma parse_uri_short (uri : string) :
  (String.length uri < 2)%nat -> parse_uri uri = Throws.
Proof.
  intros Hlen. unfold parse_uri.
  rewrite (find_delimiter_short _ Hlen).
  assert (Hsub : Str.substr uri 0 Str.npos = Returns uri).
  { unfold Str.substr, Str.size.
    destruct (Z.gtb_spec 0 (Z.of_nat (String.length uri))); [lia|].
    f_equal. rewrite Z.sub_0_r, Z.min_r by (unfold Str.npos; lia).
    rewrite Nat2Z.id. cbn [Z.to_nat].
    clear. induction uri as [|c s IH]; [reflexivity|].
    cbn. f_equal. exact IH. }
  rewrite Hsub. cbn [bind].
  change (add64 Str.npos (Str.size "://")) with 2.
  assert (Hpath : Str.find_first_of uri "#?" 2 = Str.npos).
  { unfold Str.find_first_of, Str.size.
    destruct (Z.gtb_spec 2 (Z.of_nat (String.length uri))); [reflexivity|lia]. }
  rewrite Hpath. rewrite Z.eqb_refl. cbn [negb].
  unfold Str.substr at 1, Str.size.
  destruct (Z.gtb_spec 2 (Z.of_nat (String.length uri))); [reflexivity|lia].
Qed.

(** A URI of fewer than two characters makes [open] throw: without [://]
    the end of the protocol wraps around to position 2, past the end of the
    string, and [substr] is called there, before the [try] block. *)
Theorem open_short_uri_throws w co :
  (String.length (m_uri co) < 2)%nat -> open w co = Throws.
Proof.
  intros Hlen. unfold open. rewrite (parse_uri_short _ Hlen). reflexivity.
Qed.

Lemma open_short_uri_throws_witness :
  open example_world (example_code_object "a") = Throws.
Proof. apply open_short_uri_throws. cbn. lia. Defined.

(** When one of its two queries fails the constructor leaves an object that
    is not open and whose URI is empty, and [open] on that object throws. *)
Theorem construct_failure_then_open_throws
    initial_load_address initial_mem_size process_id code_object_id
    load_address uri_name w :
  load_address = None \/ uri_name = None ->
  let co := fst (construct initial_load_address initial_mem_size process_id
                           code_object_id load_address uri_name) in
  is_open co = false /\ m_uri co = EmptyString /\
  m_mem_size co = initial_mem_size /\
  (exists format,
     snd (construct initial_load_address initial_mem_size process_id
                    code_object_id load_address uri_name) = [Warning format]) /\
  open w co = Throws.
Proof.
  intros Hfail co. subst co. unfold construct.
  destruct load_address as [address|].
  - destruct uri_name as [value|]; [destruct Hfail; discriminate|].
    cbn [fst snd]. split; [reflexivity|]. split; [reflexivity|].
    split; [reflexivity|]. split; [eexists; reflexivity|].
    unfold open. rewrite parse_uri_short; [reflexivity|cbn; lia].
  - cbn [fst snd]. split; [reflexivity|]. split; [reflexivity|].
    split; [reflexivity|]. split; [eexists; reflexivity|].
    unfold open. rewrite parse_uri_short; [reflexivity|cbn; lia].
Qed.

Lemma construct_failure_then_open_throws_witness :
  open example_world (fst (construct 0 0 1 1 (Some 0x7000) None)) = Throws.
Proof.
  apply (construct_failure_then_open_throws 0 0 1 1 (Some 0x7000) None
           example_world).
  right. reflexivity.
Defined.




(** ** The debug maps *)

Lemma add_line_spec load (m : line_number_map) line :
  StdMap.sorted m ->
  StdMap.sorted (add_line load m line) /\
  (forall k v, StdMap.get k m = Some v ->
               StdMap.get k (add_line load m line) = Some v) /\
  (forall k v, StdMap.get k (add_line load m line) = Some v ->
               StdMap.get k m = Some v \/ line_entry load line k v).
Proof.
  intros Hs. unfold add_line.
  set (addr := match dwarf_lineaddr line with Some a => a | None => 0 end).
  set (line_number := match dwarf_lineno line with Some n => n | None => 0 end).
  destruct (Z.eqb_spec addr 0) as [Ha|Ha]; cbn [negb andb]; [auto|].
  destruct (Z.eqb_spec line_number 0) as [Hn|Hn]; cbn [negb]; [auto|].
  pose proof (emplace_spec m (add64 load addr) (dwarf_linesrc line, line_number) Hs)
    as Hem.
  destruct (StdMap.emplace _ _ m) as [[it inserted] m'].
  destruct Hem as (Hs' & _ & _ & Hget). cbn [snd].
  split; [exact Hs'|]. split.
  - intros k v Hk. rewrite Hget.
    destruct (decide (k = add64 load addr)) as [->|]; [|exact Hk].
    rewrite Hk. reflexivity.
  - intros k v Hk. rewrite Hget in Hk.
    destruct (decide (k = add64 load addr)) as [->|]; [|left; exact Hk].
    destruct (StdMap.get (add64 load addr) m) as [v0|] eqn:Hold.
    + left. exact Hk.
    + right. cbn in Hk. injection Hk as <-.
      subst addr line_number.
      destruct (dwarf_lineaddr line) as [a|] eqn:Hla; [|contradiction].
      destruct (dwarf_lineno line) as [n|] eqn:Hln; [|contradiction].
      exists a, n. repeat split; auto.
Qed.

Lemma fold_add_line load lines : forall m : line_number_map,
  StdMap.sorted m ->
  StdMap.sorted (fold_left (add_line load) lines m) /\
  (forall k v, StdMap.get k m = Some v ->
               StdMap.get k (fold_left (add_line load) lines m) = Some v) /\
  (forall k v, StdMap.get k (fold_left (add_line load) lines m) = Some v ->
               StdMap.get k m = Some v \/
               exists line, line ∈ lines /\ line_entry load line k v).
Proof.
  induction lines as [|line lines IH]; intros m Hs; cbn [fold_left].
  - split; [exact Hs|]. split; auto.
  - destruct (add_line_spec load m line Hs) as (Hs1 & Hkeep1 & Hnew1).
    destruct (IH _ Hs1) as (Hs2 & Hkeep2 & Hnew2).
    split; [exact Hs2|]. split; [auto|].
    intros k v Hk. destruct (Hnew2 k v Hk) as [H|(l & Hl & He)].
    + destruct (Hnew1 k v H) as [H'|H']; [left; exact H'|].
      right. exists line. split; [left|exact H'].
    + right. exists l. split; [right; exact Hl|exact He].
Qed.

Lemma load_units_returns load units : forall (lines : line_number_map)
    (ranges : low_high_pc_map),
  StdMap.sorted lines -> StdMap.sorted ranges ->
  Forall unit_readable units ->
  exists lines' ranges',
    load_units load units lines ranges = Returns (lines', ranges') /\
    StdMap.sorted lines' /\ StdMap.sorted ranges' /\
    (forall k v, StdMap.get k lines' = Some v ->
       StdMap.get k lines = Some v \/
       exists cu cu_lines line,
         cu ∈ units /\ dwarf_getsrclines cu = Some cu_lines /\
         line ∈ cu_lines /\ line_entry load line k v) /\
    (forall low high, StdMap.get low ranges' = Some high ->
       StdMap.get low ranges = Some high \/
       exists cu lowpc highpc,
         cu ∈ units /\ dwarf_lowpc cu = Some lowpc /\
         dwarf_highpc cu = Some highpc /\
         low = add64 load lowpc /\ high = add64 load highpc).
Proof.
  induction units as [|cu units IH]; intros lines ranges Hsl Hsr Hall;
    cbn [load_units].
  - exists lines, ranges. repeat split; auto.
  - apply Forall_cons in Hall as [[Hdie [cu_lines Hlines]] Hall].
    rewrite Hdie, Hlines. cbn [negb].
    set (ranges1 := match dwarf_lowpc cu, dwarf_highpc cu with
                    | Some lowpc, Some highpc =>
                        snd (StdMap.emplace (add64 load lowpc)
                                            (add64 load highpc) ranges)
                    | _, _ => ranges
                    end).
    assert (Hr1 : StdMap.sorted ranges1 /\
                  forall low high, StdMap.get low ranges1 = Some high ->
                    StdMap.get low ranges = Some high \/
                    exists lowpc highpc,
                      dwarf_lowpc cu = Some lowpc /\
                      dwarf_highpc cu = Some highpc /\
                      low = add64 load lowpc /\ high = add64 load highpc).
    { subst ranges1.
      destruct (dwarf_lowpc cu) as [lowpc|]; [|split; auto].
      destruct (dwarf_highpc cu) as [highpc|]; [|split; auto].
      pose proof (emplace_spec ranges (add64 load lowpc) (add64 load highpc) Hsr)
        as Hem.
      destruct (StdMap.emplace _ _ ranges) as [[it inserted] r'].
      destruct Hem as (Hs' & _ & _ & Hget). cbn [snd]. split; [exact Hs'|].
      intros low high Hk. rewrite Hget in Hk.
      destruct (decide (low = add64 load lowpc)) as [->|]; [|left; exact Hk].
      destruct (StdMap.get (add64 load lowpc) ranges) eqn:Hold.
      - left. exact Hk.
      - right. cbn in Hk. injection Hk as <-. eauto 6. }
    destruct Hr1 as [Hsr1 Hnew1].
    destruct (fold_add_line load cu_lines lines Hsl) as (Hsl1 & _ & Hnewl).
    destruct (IH _ _ Hsl1 Hsr1 Hall)
      as (lines' & ranges' & Hrun & Hsl' & Hsr' & Hl & Hr).
    exists lines', ranges'. split; [exact Hrun|]. split; [exact Hsl'|].
    split; [exact Hsr'|]. split.
    + intros k v Hk. destruct (Hl k v Hk) as [H|(cu' & ls & line & Hin & Hg & Hli & He)].
      * destruct (Hnewl k v H) as [H'|(line & Hli & He)]; [left; exact H'|].
        right. exists cu, cu_lines, line. split; [left|auto].
      * right. exists cu', ls, line. split; [right; exact Hin|auto].
    + intros low high Hk.
      destruct (Hr low high Hk) as [H|(cu' & lo & hi & Hin & H')].
      * destruct (Hnew1 low high H) as [H'|(lo & hi & H')]; [left; exact H'|].
        right. exists cu, lo, hi. split; [left|exact H'].
      * right. exists cu', lo, hi. split; [right; exact Hin|exact H'].
Qed.



(** The first line recorded for an address is the one kept. *)
Example line_map_keeps_first :
  load_debug_info (example_dwarf_world example_dwarf) example_opened
  = Returns (set_debug_maps [(0x100, ("kernel.cpp", 10))] [(0x100, 0x200)]
                            example_opened).
Proof. vm_compute. reflexivity. Qed.

Lemma load_units_hangs load units : forall (lines : line_number_map)
    (ranges : low_high_pc_map),
  Exists (fun cu => ~ unit_readable cu) units ->
  load_units load units lines ranges = Diverges.
Proof.
  induction units as [|cu units IH]; intros lines ranges Hbad.
  - inversion Hbad.
  - cbn [load_units].
    destruct (dwarf_offdie cu) eqn:Hdie; cbn [negb]; [|reflexivity].
    destruct (dwarf_getsrclines cu) as [cu_lines|] eqn:Hlines; [|reflexivity].
    apply IH. apply Exists_cons in Hbad as [Hbad|Hbad]; [|exact Hbad].
    exfalso. apply Hbad. split; [exact Hdie|]. rewrite Hlines. eauto.
Qed.

(** When the DIE or the lines of some unit cannot be had, the loop over the
    units comes back to that unit for ever: [load_debug_info] does not
    return, and neither does [disassemble], which calls it first. *)
Theorem load_debug_info_hangs w d turns co pc dbg :
  is_Some (largest_instruction_size d) ->
  is_open co = true -> m_line_number_map co = None ->
  dwarf_begin w co = Some dbg ->
  Exists (fun cu => ~ unit_readable cu) dbg ->
  load_debug_info w co = Diverges /\
  disassemble w d turns co pc = Diverges.
Proof.
  intros [size Hsize] Ho Hl Hd Hbad.
  assert (Hload : load_debug_info w co = Diverges).
  { unfold load_debug_info. rewrite Ho, Hl, Hd.
    rewrite (load_units_hangs _ _ _ _ Hbad). reflexivity. }
  split; [exact Hload|].
  unfold disassemble, disassembly_window. rewrite Hsize, Hload. reflexivity.
Qed.

Lemma load_debug_info_hangs_witness :
  load_debug_info
    (example_dwarf_world [mkCU true (Some 0x100) (Some 0x200) None])
    example_opened = Diverges.
Proof.
  refine (proj1 (load_debug_info_hangs
                   (example_dwarf_world [mkCU true (Some 0x100) (Some 0x200) None])
                   example_decoder 8 example_opened 0x100
                   [mkCU true (Some 0x100) (Some 0x200) None] _ eq_refl eq_refl
                   eq_refl _)).
  - eexists. reflexivity.
  - left. intros [_ [x Hx]]. discriminate.
Defined.

(** ** The start of the window *)

Lemma sorted_lookup_lt {V : Type} (m : list (Z * V)) : forall i j e e',
  StdMap.sorted m -> m !! i = Some e -> m !! j = Some e' ->
  (i < j)%nat -> fst e < fst e'.
Proof.
  induction m as [|x m IH]; intros i j e e' Hs Hi Hj Hlt; [discriminate|].
  apply sorted_cons in Hs as [Hall Hs].
  destruct j as [|j]; [lia|]. cbn in Hj.
  destruct i as [|i]; cbn in Hi.
  - injection Hi as <-. apply Hall. apply list_elem_of_lookup. eauto.
  - apply (IH i j e e' Hs Hi Hj). lia.
Qed.

Lemma walk_back_S (m : line_number_map) pc it :
  walk_back m pc (S it) =
  match m !! it with
  | Some entry =>
      if sub64 pc (fst entry) >=? context_byte_size then it
      else match it with
           | O => it
           | S _ => walk_back m pc it
           end
  | None => it
  end.
Proof. reflexivity. Qed.

Lemma walk_back_spec (m : line_number_map) pc : forall it,
  (it < length m)%nat ->
  let j := walk_back m pc (S it) in
  (j <= it)%nat /\
  (forall l e, (j < l <= it)%nat -> m !! l = Some e ->
               sub64 pc (fst e) < context_byte_size) /\
  ((exists e, m !! j = Some e /\ context_byte_size <= sub64 pc (fst e)) \/
   j = O).
Proof.
  induction it as [|it IH]; intros Hlen; cbv zeta; rewrite walk_back_S.
  - destruct (m !! O) as [entry|] eqn:He.
    + destruct (Z.geb_spec (sub64 pc (fst entry)) context_byte_size).
      * split; [lia|]. split; [intros l e Hl; lia|]. left. eauto.
      * split; [lia|]. split; [intros l e Hl; lia|]. right. reflexivity.
    + split; [lia|]. split; [intros l e Hl; lia|]. right. reflexivity.
  - destruct (m !! S it) as [entry|] eqn:He.
    2:{ apply lookup_ge_None in He. lia. }
    destruct (Z.geb_spec (sub64 pc (fst entry)) context_byte_size) as [Hge|Hlt].
    + split; [lia|]. split; [intros l e Hl; lia|]. left. eauto.
    + destruct (IH ltac:(lia)) as (Hj & Hnear & Hstop).
      split; [lia|]. split; [|exact Hstop].
      intros l e Hl Hle. destruct (decide (l = S it)) as [->|Hne].
      * rewrite He in Hle. injection Hle as <-. exact Hlt.
      * apply (Hnear l e); [lia|exact Hle].
Qed.

(** The window starts at the address asked for when the line map has no
    entry at or below it. Otherwise it starts at an entry at or below the
    address: every entry between the start and the address is less than 32
    bytes from the address, and the start itself is 32 bytes or more from
    it, however far, or is the first entry of the map. *)
Theorem window_start_walks_back (lines : line_number_map) pc :
  StdMap.sorted lines ->
  (forall k, k ∈ StdMap.keys lines -> 0 <= k) -> pc < 2 ^ 64 ->
  let start := window_start lines pc in
  ((forall k, k ∈ StdMap.keys lines -> pc < k) -> start = pc) /\
  ((exists k, k ∈ StdMap.keys lines /\ k <= pc) ->
   start ∈ StdMap.keys lines /\ start <= pc /\
   (forall k, k ∈ StdMap.keys lines -> start < k -> k <= pc ->
              pc - k < context_byte_size) /\
   (context_byte_size <= pc - start \/
    forall k, k ∈ StdMap.keys lines -> start <= k)).
Proof.
  intros Hs Hpos Hpc start. subst start. unfold window_start.
  assert (Hkey : forall i e, lines !! i = Some e -> fst e ∈ StdMap.keys lines).
  { intros i e He. unfold StdMap.keys.
    apply list_elem_of_In, in_map, list_elem_of_In, list_elem_of_lookup. eauto. }
  assert (Hidx : forall k, k ∈ StdMap.keys lines ->
                           exists i e, lines !! i = Some e /\ fst e = k).
  { intros k Hk. unfold StdMap.keys in Hk.
    apply list_elem_of_In, in_map_iff in Hk as [e [<- Hin]].
    apply list_elem_of_In, list_elem_of_lookup in Hin as [i Hi]. eauto. }
  destruct (StdMap.upper_bound pc lines) as [|prev] eqn:Hub.
  - split; [reflexivity|]. intros (k & Hk & Hle).
    destruct (Hidx k Hk) as (i & e & He & <-).
    pose proof (upper_bound_begin lines pc Hs Hub e
                  ltac:(apply list_elem_of_lookup; eauto)). lia.
  - destruct (upper_bound_prev lines pc prev Hs Hub) as (ep & Hp & Hple & Hmax).
    assert (Hlen : (prev < length lines)%nat) by (eapply lookup_lt_Some; eassumption).
    destruct (walk_back_spec lines pc prev Hlen) as (Hj & Hnear & Hstop).
    set (j := walk_back lines pc (S prev)) in *.
    destruct (lines !! j) as [ej|] eqn:Hej.
    2:{ apply lookup_ge_None in Hej. lia. }
    assert (Hjle : fst ej <= fst ep).
    { destruct (decide (j = prev)) as [Heq|Hne].
      - rewrite Heq, Hp in Hej. injection Hej as <-. lia.
      - pose proof (sorted_lookup_lt lines j prev ej ep Hs Hej Hp ltac:(lia)). lia. }
    assert (Hsub : forall e : Z * (string * Z),
               0 <= fst e <= pc -> sub64 pc (fst e) = pc - fst e).
    { intros e He. unfold sub64. apply wrap64_small. lia. }
    split.
    { intros Hall. specialize (Hall _ (Hkey _ _ Hp)). lia. }
    intros _. split; [eapply Hkey; eassumption|]. split; [lia|]. split.
    + intros k Hk Hlt Hle. destruct (Hidx k Hk) as (l & e & Hl & <-).
      rewrite <- (Hsub e) by (split; [apply Hpos, Hk|exact Hle]).
      apply (Hnear l e); [|exact Hl]. split.
      * destruct (le_lt_dec l j) as [Hlj|]; [|lia].
        destruct (decide (l = j)) as [Heq|Hne].
        { rewrite Heq, Hej in Hl. injection Hl as <-. lia. }
        pose proof (sorted_lookup_lt lines l j e ej Hs Hl Hej ltac:(lia)). lia.
      * destruct (le_lt_dec l prev) as [|Hgt]; [lia|].
        pose proof (sorted_lookup_lt lines prev l ep e Hs Hp Hl Hgt).
        specialize (Hmax e ltac:(apply list_elem_of_lookup; eauto) Hle). lia.
    + destruct Hstop as [(e & He & Hfar)|Hzero].
      * left. injection He as <-.
        rewrite <- (Hsub ej); [exact Hfar|].
        split; [eapply Hpos, Hkey; eassumption|lia].
      * right. intros k Hk. destruct (Hidx k Hk) as (l & e & Hl & <-).
        rewrite Hzero in Hej.
        destruct l as [|l]; [rewrite Hej in Hl; injection Hl as <-; lia|].
        pose proof (sorted_lookup_lt lines O (S l) ej e Hs Hej Hl ltac:(lia)). lia.
Qed.

Lemma window_start_walks_back_witness :
  window_start example_sparse_lines 0x1004 ∈ StdMap.keys example_sparse_lines /\
  (context_byte_size <= 0x1004 - window_start example_sparse_lines 0x1004 \/
   forall k, k ∈ StdMap.keys example_sparse_lines ->
             window_start example_sparse_lines 0x1004 <= k).
Proof.
  destruct (window_start_walks_back example_sparse_lines 0x1004) as [_ H].
  - unfold StdMap.sorted. cbn. repeat constructor; lia.
  - intros k Hk. cbn in Hk.
    apply elem_of_cons in Hk as [->|Hk]; [lia|].
    apply elem_of_cons in Hk as [->|Hk]; [lia|inversion Hk].
  - lia.
  - destruct H as (H1 & _ & _ & H4).
    + exists 0x100. split; [cbn; left|lia].
    + split; assumption.
Defined.

(** With the entries 0x100 and 0x1000 the listing for 0x1004 starts at
    0x100: the entry at 0x1000 is less than 32 bytes away and the one before
    it is taken, wherever it is. *)
Example window_start_far_back : window_start example_sparse_lines 0x1004 = 0x100.
Proof. reflexivity. Qed.

(** ** The instruction lines *)

(** The lines of a listing: the first is for the start of the window; an
    instruction line is below the end of the window, bears the mark of the
    current instruction exactly when its address is the one asked for, and
    is followed, if at all, by the line for its address plus the size of its
    instruction; a line for memory that cannot be read is the last one. *)
Theorem instruction_loop_listing d pc end_pc turns : forall addr listing done,
  instruction_loop d turns pc addr end_pc = Returns (listing, done) ->
  (forall line, listing !! O = Some line -> line_address line = addr) /\
  (forall i a current text,
     listing !! i = Some (Instruction a current text) ->
     current = (a =? pc) /\ a < end_pc /\ readable d a = true /\
     exists size,
       disassemble_instruction d a = Some (size, text) /\
       forall line, listing !! S i = Some line ->
                    line_address line = add64 a size) /\
  (forall i a, listing !! i = Some (CannotAccess a) ->
     S i = length listing /\ readable d a = false /\ done = true) /\
  (done = false -> length listing = turns).
Proof.
  induction turns as [|turns IH]; intros addr listing done Hrun;
    cbn [instruction_loop] in Hrun.
  - injection Hrun as <- <-.
    repeat split; intros; try discriminate; reflexivity.
  - destruct (Z.ltb_spec addr end_pc) as [Hlt|Hge].
    2:{ injection Hrun as <- <-.
        repeat split; intros; try discriminate. }
    destruct (readable d addr) eqn:Hread; cbn [negb] in Hrun.
    2:{ injection Hrun as <- <-. split; [|split; [|split]].
        - intros line [= <-]. reflexivity.
        - intros [|i] a current text H; discriminate.
        - intros [|i] a H; [|discriminate]. injection H as <-. auto.
        - discriminate. }
    destruct (disassemble_instruction d addr) as [[size text]|] eqn:Hdec;
      [|discriminate].
    destruct (instruction_loop d turns pc (add64 addr size) end_pc)
      as [[rest done']| | | |] eqn:Hrest; try discriminate.
    cbn in Hrun. injection Hrun as <- <-.
    destruct (IH _ _ _ Hrest) as (Hfirst & Hins & Hcan & Hdone).
    split; [|split; [|split]].
    + intros line [= <-]. reflexivity.
    + intros [|i] a current txt H; cbn in H.
      * injection H as <- <- <-. split; [reflexivity|]. split; [exact Hlt|].
        split; [exact Hread|]. exists size. split; [exact Hdec|].
        intros line Hline. cbn in Hline. apply Hfirst, Hline.
      * apply (Hins i a current txt H).
    + intros [|i] a H; cbn in H; [discriminate|].
      destruct (Hcan i a H) as (Hlast & Hr & Hd). cbn [length]. auto.
    + intros Hd. cbn [length]. f_equal. apply Hdone, Hd.
Qed.

Lemma instruction_loop_listing_witness :
  exists listing,
    instruction_loop example_partial_decoder 8 0x104 0x100 0x120
      = Returns (listing, true) /\
    S 2 = length listing /\
    forall line, listing !! 1%nat = Some line -> line_address line = add64 0x100 4.
Proof.
  eexists. split; [vm_compute; reflexivity|].
  destruct (instruction_loop_listing example_partial_decoder 0x104 0x120 8 0x100
              _ true ltac:(vm_compute; reflexivity))
    as (_ & Hins & Hcan & _).
  split.
  - exact (proj1 (Hcan 2%nat 0x108 eq_refl)).
  - destruct (Hins O 0x100 false "s_nop 0"%string eq_refl)
      as (_ & _ & _ & size & Hdec & Hnext).
    injection Hdec as <-. exact Hnext.
Defined.

(** ** The name a code object is saved under *)

Lemma str_app_cons c (a b : string) :
  (String c a ++ b)%string = String c (a ++ b).
Proof. reflexivity. Qed.

Lemma str_app_nil_l (b : string) : ("" ++ b)%string = b.
Proof. reflexivity. Qed.

Lemma str_app_assoc (a b c : string) :
  ((a ++ b) ++ c)%string = (a ++ (b ++ c))%string.
Proof.
  induction a as [|x a IH]; [reflexivity|].
  rewrite !str_app_cons, IH. reflexivity.
Qed.

Lemma str_length_app (a b : string) :
  String.length (a ++ b) = (String.length a + String.length b)%nat.
Proof.
  induction a as [|x a IH]; [reflexivity|].
  rewrite str_app_cons. cbn [String.length]. rewrite IH. reflexivity.
Qed.

Lemma substring_whole (s : string) : String.substring 0 (String.length s) s = s.
Proof. induction s as [|c s IH]; cbn; [reflexivity|]. rewrite IH. reflexivity. Qed.

Lemma find_first_of_start (s set : string) :
  Str.find_first_of s set 0 =
  match Str.first_of set s with
  | Some i => Z.of_nat i
  | None => Str.npos
  end.
Proof.
  unfold Str.find_first_of, Str.size.
  destruct (Z.gtb_spec 0 (Z.of_nat (String.length s))) as [Hgt|_]; [lia|].
  cbn [Z.to_nat]. rewrite substring_whole.
  destruct (Str.first_of set s); [f_equal; lia|reflexivity].
Qed.

Lemma first_of_bound set : forall s i,
  Str.first_of set s = Some i -> (i < String.length s)%nat.
Proof.
  induction s as [|c s IH]; intros i H; cbn in H; [discriminate|].
  destruct (Str.mem c set).
  - injection H as <-. cbn. lia.
  - destruct (Str.first_of set s) as [j|]; [|discriminate].
    injection H as <-. specialize (IH j eq_refl). cbn. lia.
Qed.

Lemma first_of_app_clean set : forall p s,
  Str.first_of set p = None ->
  Str.first_of set (p ++ s) =
  (fun i => (String.length p + i)%nat) <$> Str.first_of set s.
Proof.
  induction p as [|c p IH]; intros s H.
  - rewrite str_app_nil_l. destruct (Str.first_of set s); reflexivity.
  - rewrite str_app_cons. cbn [Str.first_of String.length] in *.
    destruct (Str.mem c set); [discriminate|].
    destruct (Str.first_of set p) as [j|] eqn:Hp; [discriminate|].
    rewrite (IH s eq_refl). destruct (Str.first_of set s); reflexivity.
Qed.

Lemma first_of_split set : forall s i,
  Str.first_of set s = Some i ->
  exists a c b,
    s = (a ++ String c b)%string /\ String.length a = i /\
    Str.first_of set a = None /\ Str.mem c set = true.
Proof.
  induction s as [|c s IH]; intros i H; cbn in H; [discriminate|].
  destruct (Str.mem c set) eqn:Hc.
  - injection H as <-. exists EmptyString, c, s. auto.
  - destruct (Str.first_of set s) as [j|] eqn:Hs; [|discriminate].
    injection H as <-.
    destruct (IH j eq_refl) as (a & c' & b & -> & Hlen & Ha & Hc').
    exists (String c a), c', b. cbn [Str.first_of String.length].
    rewrite Hc, Ha, Hlen. auto.
Qed.

Lemma assign_at_app (p : string) c b x :
  Str.assign_at (p ++ String c b) (String.length p) x = (p ++ String x b)%string.
Proof.
  induction p as [|y p IH]; [reflexivity|].
  rewrite !str_app_cons. cbn [Str.assign_at String.length]. rewrite IH.
  reflexivity.
Qed.

Lemma underscored_clean : forall s,
  Str.first_of reserved s = None -> underscored s = s.
Proof.
  induction s as [|c s IH]; intros H; [reflexivity|].
  cbn [Str.first_of] in H. cbn [underscored].
  destruct (Str.mem c reserved); [discriminate|].
  destruct (Str.first_of reserved s); [discriminate|].
  rewrite (IH eq_refl). reflexivity.
Qed.

Lemma underscored_app (a b : string) :
  underscored (a ++ b) = (underscored a ++ underscored b)%string.
Proof.
  induction a as [|c a IH]; [reflexivity|].
  rewrite str_app_cons. cbn [underscored]. rewrite IH, str_app_cons.
  reflexivity.
Qed.

Lemma replace_reserved_from : forall turns prefix s,
  Str.first_of reserved prefix = None ->
  (String.length s <= turns)%nat ->
  Str.size (prefix ++ s) < Str.npos ->
  replace_reserved turns (prefix ++ s) = ((prefix ++ underscored s)%string, true).
Proof.
  induction turns as [|turns IH]; intros prefix s Hp Hlen Hsize;
    cbn [replace_reserved]; rewrite find_first_of_start, (first_of_app_clean _ _ _ Hp).
  - destruct s; [|cbn in Hlen; lia]. reflexivity.
  - destruct (Str.first_of reserved s) as [i|] eqn:Hs; cbn [fmap option_fmap option_map].
    2:{ rewrite (underscored_clean s Hs). reflexivity. }
    pose proof (first_of_bound _ _ _ Hs) as Hi.
    unfold Str.size in Hsize. rewrite str_length_app in Hsize.
    destruct (Z.eqb_spec (Z.of_nat (String.length prefix + i)) Str.npos) as [Heq|_];
      [lia|]. cbn [negb]. rewrite Nat2Z.id.
    destruct (first_of_split _ _ _ Hs) as (a & c & b & -> & Ha & Hclean & Hc).
    rewrite <- Ha, <- str_length_app, <- str_app_assoc, assign_at_app.
    change (String "_" b) with ("_" ++ b)%string. rewrite <- str_app_assoc.
    rewrite IH.
    + rewrite underscored_app, (underscored_clean a Hclean).
      cbn [underscored]. rewrite Hc. rewrite !str_app_assoc. reflexivity.
    + rewrite !first_of_app_clean by
        (try assumption; rewrite first_of_app_clean by assumption;
         rewrite Hclean; reflexivity).
      reflexivity.
    + rewrite str_length_app in Hlen. cbn [String.length] in Hlen. lia.
    + unfold Str.size. rewrite !str_length_app in *.
      cbn [String.length] in *. lia.
Qed.

Lemma underscored_get : forall s i,
  String.get i (underscored s) =
  (fun c => if Str.mem c reserved then "_"%char else c) <$> String.get i s.
Proof.
  induction s as [|c s IH]; intros i; [reflexivity|].
  destruct i as [|i]; cbn [underscored String.get]; [reflexivity|]. apply IH.
Qed.

(** The loop that prepares the name of the saved file is over within as many
    turns as the URI has characters, and leaves the URI with an underscore
    at each place of one of [:/#?&=]: the other characters are where they
    were, the length is the same and none of the six characters is left. *)
Theorem replace_reserved_underscores (uri : string) (turns : nat) :
  Str.size uri < Str.npos -> (String.length uri <= turns)%nat ->
  exists name,
    replace_reserved turns uri = (name, true) /\
    String.length name = String.length uri /\
    Str.first_of reserved name = None /\
    forall i, String.get i name =
              (fun c => if Str.mem c reserved then "_"%char else c)
                <$> String.get i uri.
Proof.
  intros Hsize Hturns. exists (underscored uri).
  split; [apply (replace_reserved_from turns EmptyString uri eq_refl Hturns Hsize)|].
  split; [|split; [|apply underscored_get]].
  - clear. induction uri as [|c s IH]; cbn; [reflexivity|]. rewrite IH.
    reflexivity.
  - clear. induction uri as [|c s IH]; [reflexivity|].
    cbn [underscored Str.first_of]. rewrite IH.
    destruct (Str.mem c reserved) eqn:Hc; [reflexivity|]. rewrite Hc.
    reflexivity.
Qed.

Lemma replace_reserved_underscores_witness :
  exists name,
    replace_reserved 32 "file:///tmp/a.co#offset=0&size=8" = (name, true) /\
    String.length name = 32%nat.
Proof.
  destruct (replace_reserved_underscores "file:///tmp/a.co#offset=0&size=8" 32)
    as (name & H & Hlen & _).
  - vm_compute. reflexivity.
  - vm_compute. lia.
  - exists name. split; assumption.
Defined.

Example replace_reserved_example :
  replace_reserved 32 "file:///tmp/a.co#offset=0&size=8"
  = ("file____tmp_a.co_offset_0_size_8"%string, true).
Proof. vm_compute. reflexivity. Qed.

(** ** Saving what was opened *)

(** Once [open] has opened an object, [save] hands the stream on the
    directory, a slash and the URI with its underscores exactly the bytes
    that [open] acquired, and answers with the state of that stream; it
    answers [false] without them when the read comes short, and ends with an
    exception when the buffer cannot be allocated. *)
Theorem save_after_open w st co w1 co1 directory :
  m_fd co = None ->
  open w co = Returns (w1, co1) -> is_open co1 = true ->
  Str.size (m_uri co) < Str.npos ->
  exists u events buffer,
    parse_uri (m_uri co) = Returns u /\
    acquire w u = (events, Acquired buffer) /\
    save w1 st co1 directory =
      let size := Z.of_nat (length buffer) in
      if size >? max_alloc w then Throws
      else if read_gives st size =? size then
        Returns (ofstream_good st
                   (directory ++ "/" ++ underscored (m_uri co))%string buffer)
      else Returns false.
Proof.
  intros Hfd Hopen Ho Hsize.
  destruct (open_returns w co w1 co1 Hopen) as (u & events & got & Hp & Ha & Hres).
  destruct got as [|buffer].
  { injection Hres as _ ->. unfold is_open in Ho. rewrite Hfd in Ho.
    discriminate. }
  exists u, events, buffer. split; [exact Hp|]. split; [exact Ha|].
  symmetry in Hres.
  destruct (materialize_opens _ co buffer w1 co1 Hfd Hres Ho)
    as (_ & _ & elf & phnum & _ & _ & _ & Hco1 & Hw1).
  destruct (emit_all_spec events w) as (Henv & _ & _).
  assert (Hmax : max_alloc w1 = max_alloc w).
  { rewrite Hw1. cbn. apply Henv. }
  assert (Huri : m_uri co1 = m_uri co) by (rewrite Hco1; reflexivity).
  assert (Hcontent : (fd ← m_fd co1; descriptors w1 !! fd) = Some buffer).
  { rewrite Hco1 at 1. cbn [m_fd set_fd option_bind mbind].
    rewrite Hw1. cbn [emit descriptors].
    apply store_temporary_descriptor. }
  unfold save. rewrite Ho. cbn [negb]. rewrite Hcontent, Hmax, Huri.
  pose proof (replace_reserved_from _ EmptyString (m_uri co) eq_refl (le_n _)
                Hsize) as Hname.
  rewrite !str_app_nil_l in Hname. rewrite Hname. cbn [fst]. cbv zeta.
  destruct (Z.of_nat (length buffer) >? max_alloc w); [reflexivity|].
  destruct (read_gives st (Z.of_nat (length buffer)) =? Z.of_nat (length buffer));
    reflexivity.
Qed.

Lemma save_after_open_witness :
  exists u events buffer,
    parse_uri "file:///tmp/a.co" = Returns u /\
    acquire example_world u = (events, Acquired buffer) /\
    save example_opened_world example_storage example_opened "/tmp/dump" =
      let size := Z.of_nat (length buffer) in
      if size >? max_alloc example_world then Throws
      else if read_gives example_storage size =? size then
        Returns (ofstream_good example_storage
                   ("/tmp/dump" ++ "/" ++ underscored "file:///tmp/a.co")%string
                   buffer)
      else Returns false.
Proof.
  assert (Hopen : open example_world (example_code_object "file:///tmp/a.co")
                  = Returns (example_opened_world, example_opened))
    by (vm_compute; reflexivity).
  exact (save_after_open example_world example_storage
           (example_code_object "file:///tmp/a.co")
           example_opened_world example_opened "/tmp/dump"
           eq_refl Hopen eq_refl ltac:(vm_compute; reflexivity)).
Defined.

(** The opened image is saved as [/tmp/dump/file____tmp_a.co]. *)
Example save_example :
  save example_opened_world example_storage example_opened "/tmp/dump"
  = Returns true /\
  underscored "file:///tmp/a.co" = "file____tmp_a.co"%string.
Proof. split; vm_compute; reflexivity. Qed.

(** ** Moving and destroying *)

Lemma find_symbol_builds w co address found co' :
  m_symbol_map co = None ->
  find_symbol w co address = Returns (found, co') ->
  is_open co = true /\
  exists elf (index : symbol_map),
    elf_begin w co = Some elf /\
    for_each (add_section (m_load_address co)) (elf_sections elf) []
      = Returns index /\
    co' = set_symbol_map index co.
Proof.
  intros Hm H. unfold find_symbol, load_symbol_map in H.
  destruct (is_open co); cbn [negb] in H; [|discriminate].
  split; [reflexivity|]. rewrite Hm in H.
  destruct (elf_begin w co) as [elf|]; cbn [bind] in H.
  - destruct (for_each (add_section (m_load_address co)) (elf_sections elf) [])
      as [index| | | |] eqn:Hrun; try discriminate.
    exists elf, index. split; [reflexivity|]. split; [exact Hrun|].
    cbn [bind m_symbol_map set_symbol_map] in H.
    injection H as _ <-. reflexivity.
  - rewrite Hm in H. discriminate.
Qed.

(** A moved object has the handle and no symbol index: a search in it reads
    the temporary file again and answers as the original does. The object
    moved from has no handle, a search in it fails the assertion, and
    destroying it closes nothing, so that the descriptor is closed once,
    with the new object. *)
Theorem move_construct_transfers w co address found co' moved_from :
  m_symbol_map co = None ->
  find_symbol w co address = Returns (found, co') ->
  let new := fst (move_construct co' moved_from) in
  let old := snd (move_construct co' moved_from) in
  m_fd new = m_fd co /\ m_symbol_map new = None /\
  (forall a, exists answer new',
     find_symbol w co' a = Returns (answer, co') /\
     find_symbol w new a = Returns (answer, new') /\
     m_symbol_map new' = m_symbol_map co') /\
  (forall a, find_symbol w old a = Aborts) /\
  destroy old w = w /\
  (forall fd, m_fd co = Some fd ->
     descriptors (destroy new w) !! fd = None /\
     forall fd', fd' <> fd ->
       descriptors (destroy new w) !! fd' = descriptors w !! fd') /\
  destroy old (destroy new w) = destroy new w.
Proof.
  intros Hm H new old.
  destruct (find_symbol_builds w co address found co' Hm H)
    as (Ho & elf & index & Helf & Hrun & ->).
  subst new old. cbn [move_construct fst snd m_fd set_symbol_map m_symbol_map
                      m_load_address m_mem_size m_uri m_code_object_id
                      m_process_id].
  split; [reflexivity|]. split; [reflexivity|]. split; [|split; [|split; [|split]]].
  - intros a.
    exists (lookup_symbol w index a).
    exists (set_symbol_map index
              (mkCodeObject (m_load_address co) (m_mem_size co) (m_uri co)
                            (m_code_object_id co) (m_process_id co) (m_fd co)
                            None None None)).
    split; [|split].
    + unfold find_symbol, load_symbol_map.
      unfold is_open in *. cbn [m_fd set_symbol_map m_symbol_map].
      destruct (m_fd co); [|discriminate]. cbn. reflexivity.
    + unfold find_symbol, load_symbol_map.
      unfold is_open in *. cbn [m_fd m_symbol_map].
      destruct (m_fd co) as [fd|] eqn:Hfd; [|discriminate]. cbn [negb].
      unfold elf_begin in *. cbn [m_fd m_load_address]. rewrite Hfd in Helf.
      rewrite Helf, Hrun. cbn. reflexivity.
    + reflexivity.
  - intros a. reflexivity.
  - reflexivity.
  - intros fd Hfd. unfold destroy. cbn [m_fd]. rewrite Hfd.
    cbn [close_descriptor descriptors]. split.
    + apply lookup_delete_eq.
    + intros fd' Hne. apply lookup_delete_ne. congruence.
  - reflexivity.
Qed.

Lemma move_construct_transfers_witness :
  exists co',
    find_symbol example_opened_world example_opened 0x105
      = Returns (Some (mkSymbolInfo "f" 0x100 0x10), co') /\
    forall a, find_symbol example_opened_world
                (snd (move_construct co' "")) a = Aborts.
Proof.
  eexists. split; [vm_compute; reflexivity|].
  refine (proj1 (proj2 (proj2 (proj2
            (move_construct_transfers example_opened_world example_opened
               0x105 _ _ "" eq_refl _))))).
  vm_compute. reflexivity.
Defined.

(** ** The lines of a source file *)

Lemma byte_eqb_eq (a b : byte) : Byte.eqb a b = true <-> a = b.
Proof.
  split; [apply Byte.byte_dec_bl|apply Byte.byte_dec_lb].
Qed.

Lemma newline_terminated_cons_newline (line rest : list byte) :
  newline_terminated (line ++ x0a :: rest)
  = (line ++ [x0a]) ++ newline_terminated rest.
Proof.
  unfold newline_terminated. rewrite last_app. cbn [last].
  destruct rest as [|b rest]; cbn [last].
  - cbn. rewrite app_nil_r. reflexivity.
  - fold (last (b :: rest)).
    destruct (last (b :: rest)) as [c|] eqn:Hl.
    + destruct (Byte.eqb c x0a); rewrite <- ?app_assoc; reflexivity.
    + apply last_None in Hl. discriminate.
Qed.

Lemma getlines_from : forall content line,
  x0a ∉ line ->
  concat (map (fun l => l ++ [x0a]) (getlines content line))
  = newline_terminated (line ++ content) /\
  Forall (fun l => x0a ∉ l) (getlines content line).
Proof.
  induction content as [|b rest IH]; intros line Hline; cbn [getlines].
  - rewrite app_nil_r. destruct line as [|c line]; [split; [reflexivity|constructor]|].
    split; [|repeat constructor; exact Hline].
    cbn [map concat]. rewrite app_nil_r.
    unfold newline_terminated.
    destruct (last (c :: line)) as [d|] eqn:Hl.
    + destruct (Byte.eqb d x0a) eqn:Hd; [|reflexivity].
      apply byte_eqb_eq in Hd. subst d. exfalso. apply Hline.
      apply last_Some in Hl as [l' ->]. apply elem_of_app. right. left.
    + apply last_None in Hl. discriminate.
  - destruct (Byte.eqb b x0a) eqn:Hb.
    + apply byte_eqb_eq in Hb. subst b.
      destruct (IH [] ltac:(apply not_elem_of_nil)) as [Hjoin Hall].
      split; [|constructor; assumption].
      cbn [map concat].
      rewrite Hjoin. cbn [app]. symmetry. apply newline_terminated_cons_newline.
    + assert (Hne : b <> x0a).
      { intros ->. rewrite (proj2 (byte_eqb_eq x0a x0a) eq_refl) in Hb.
        discriminate. }
      destruct (IH (line ++ [b])) as [Hjoin Hall].
      { intros Hin. apply elem_of_app in Hin as [Hin|Hin]; [auto|].
        apply list_elem_of_singleton in Hin. auto. }
      split; [|exact Hall]. rewrite Hjoin, <- app_assoc. reflexivity.
Qed.

(** A file that is not in the map yet is read and its lines are stored: the
    lines, each with a newline after it, make up the file, with a newline
    added at its end if it is not empty and has none, and no line holds a
    newline. *)
Theorem get_source_file_index_reads w file_map0 file_name content :
  file_map0 !! file_name = None -> files w file_name = Some content ->
  exists lines,
    get_source_file_index w file_map0 file_name
      = (Some lines, <[file_name := lines]> file_map0) /\
    concat (map (fun l => l ++ [x0a]) lines) = newline_terminated content /\
    Forall (fun l => x0a ∉ l) lines.
Proof.
  intros Hmiss Hfile. exists (getlines content []).
  unfold get_source_file_index. rewrite Hmiss, Hfile. split; [reflexivity|].
  apply (getlines_from content []), not_elem_of_nil.
Qed.

Lemma get_source_file_index_reads_witness :
  exists lines,
    get_source_file_index example_source_world ∅ "kernel.cpp"
      = (Some lines, <["kernel.cpp" := lines]> ∅) /\
    concat (map (fun l => l ++ [x0a]) lines) = [x61; x0a; x0a; x62; x0a].
Proof.
  destruct (get_source_file_index_reads example_source_world ∅ "kernel.cpp"
              example_source (lookup_empty _) eq_refl)
    as (lines & Hget & Hjoin & _).
  exists lines. split; [exact Hget|exact Hjoin].
Defined.

Example getlines_example :
  getlines example_source [] = [[x61]; []; [x62]] /\
  getlines [x61; x0a] [] = [[x61]] /\ getlines [x0a] [] = [[]] /\
  getlines [] [] = [].
Proof. repeat split. Qed.

Lemma get_source_file_index_hit w file_map0 file_name lines :
  file_map0 !! file_name = Some lines ->
  get_source_file_index w file_map0 file_name = (Some lines, file_map0).
Proof. intros H. unfold get_source_file_index. rewrite H. reflexivity. Qed.

Lemma get_source_file_index_keeps w file_map0 file_name name lines :
  file_map0 !! name = Some lines ->
  snd (get_source_file_index w file_map0 file_name) !! name = Some lines.
Proof.
  intros H. unfold get_source_file_index.
  destruct (file_map0 !! file_name) as [found|] eqn:Hf; [exact H|].
  destruct (files w file_name); [|exact H]. cbn [snd].
  rewrite lookup_insert_ne; [exact H|]. intros ->. congruence.
Qed.

Lemma lookup_all_keeps calls : forall file_map0 name lines,
  file_map0 !! name = Some lines ->
  lookup_all file_map0 calls !! name = Some lines.
Proof.
  induction calls as [|call calls IH]; intros file_map0 name lines H;
    [exact H|].
  cbn [lookup_all fold_left]. apply IH, get_source_file_index_keeps, H.
Qed.

(** The lines a call has given for a file are what every later call gives
    for it, after any calls in between and whatever the files hold by then;
    a call that could not open the file leaves the map as it was, without
    an entry for it. *)
Theorem get_source_file_index_caches w file_map0 file_name found file_map1 :
  get_source_file_index w file_map0 file_name = (found, file_map1) ->
  match found with
  | Some lines =>
      forall calls w',
        get_source_file_index w' (lookup_all file_map1 calls) file_name
        = (Some lines, lookup_all file_map1 calls)
  | None => file_map1 = file_map0 /\ file_map0 !! file_name = None /\
            files w file_name = None
  end.
Proof.
  intros H. unfold get_source_file_index in H.
  destruct (file_map0 !! file_name) as [lines|] eqn:Hf.
  - injection H as <- <-. intros calls w'.
    apply get_source_file_index_hit, lookup_all_keeps, Hf.
  - destruct (files w file_name) as [content|] eqn:Hfile.
    + injection H as <- <-. intros calls w'.
      apply get_source_file_index_hit, lookup_all_keeps, lookup_insert_eq.
    + injection H as <- <-. auto.
Qed.

Lemma get_source_file_index_caches_witness :
  get_source_file_index example_world
    (lookup_all (<["kernel.cpp" := [[x61]; []; [x62]]]> ∅)
                [(example_world, "/tmp/a.co")]) "kernel.cpp"
  = (Some [[x61]; []; [x62]],
     lookup_all (<["kernel.cpp" := [[x61]; []; [x62]]]> ∅)
                [(example_world, "/tmp/a.co")]).
Proof.
  exact (get_source_file_index_caches example_source_world ∅ "kernel.cpp"
           (Some [[x61]; []; [x62]]) _ eq_refl
           [(example_world, "/tmp/a.co")] example_world).
Defined.

(** ** The source lines before an instruction *)

Lemma search_first_line_spec m file_name prev : forall turns first_line,
  0 <= prev < first_line -> first_line < 2 ^ 64 ->
  first_line - prev <= Z.of_nat turns ->
  let found := search_first_line turns m file_name prev first_line in
  prev <= found < first_line /\
  (found = prev \/ has_line m file_name found = true) /\
  (forall l, found < l < first_line -> has_line m file_name l = false).
Proof.
  induction turns as [|turns IH]; intros first_line Hprev Hmax Hturns;
    [lia|].
  cbn [search_first_line].
  assert (Hsub : sub64 first_line 1 = first_line - 1)
    by (unfold sub64; apply wrap64_small; lia).
  rewrite Hsub.
  destruct (Z.gtb_spec (first_line - 1) prev) as [Hgt|Hle].
  - destruct (has_line m file_name (first_line - 1)) eqn:Hhas.
    + split; [lia|]. split; [right; exact Hhas|]. intros l Hl. lia.
    + destruct (IH (first_line - 1) ltac:(lia) ltac:(lia) ltac:(lia))
        as (Hrange & Hstop & Hnone).
      split; [lia|]. split; [exact Hstop|].
      intros l Hl. destruct (decide (l = first_line - 1)) as [->|Hne];
        [exact Hhas|]. apply Hnone. lia.
  - split; [lia|]. split; [left; lia|]. intros l Hl. lia.
Qed.

Lemma print_line_numbered w file_map0 file_name line :
  1 <= line < 2 ^ 64 ->
  exists printed file_map1,
    print_line w file_map0 file_name line = Returns (printed, file_map1) /\
    printed_line printed = Some line.
Proof.
  intros Hline. unfold print_line.
  destruct (get_source_file_index w file_map0 file_name) as [[lines|] file_map1].
  2:{ eexists _, _. split; reflexivity. }
  destruct (Z.leb_spec line (Z.of_nat (length lines))) as [Hle|Hgt].
  2:{ eexists _, _. split; reflexivity. }
  assert (Hsub : sub64 line 1 = line - 1)
    by (unfold sub64; apply wrap64_small; lia).
  rewrite Hsub.
  destruct (lines !! Z.to_nat (line - 1)) as [text|] eqn:Ht.
  - eexists _, _. split; reflexivity.
  - apply lookup_ge_None in Ht. lia.
Qed.

Lemma print_lines_numbered w file_name : forall count file_map0 line,
  1 <= line -> line + Z.of_nat count <= 2 ^ 64 ->
  exists out file_map1,
    print_lines w file_map0 file_name line count = Returns (out, file_map1) /\
    omap printed_line out = seqZ line (Z.of_nat count).
Proof.
  induction count as [|count IH]; intros file_map0 line Hline Hmax;
    cbn [print_lines].
  - exists [], file_map0. split; reflexivity.
  - destruct (print_line_numbered w file_map0 file_name line ltac:(lia))
      as (printed & file_map1 & Hp & Hnum).
    rewrite Hp. cbn [bind fst snd].
    destruct (IH file_map1 (line + 1) ltac:(lia) ltac:(lia))
      as (out & file_map2 & Hrest & Hout).
    rewrite Hrest. cbn [bind fst snd].
    exists (printed :: out), file_map2. split; [reflexivity|].
    cbn [omap list_omap]. rewrite Hnum.
    change (omap printed_line out) with (omap printed_line out).
    rewrite seqZ_cons by lia.
    replace (Z.pred (Z.of_nat (S count))) with (Z.of_nat count) by lia.
    f_equal. exact Hout.
Qed.

(** At an address whose line is in the file of the previous one and after
    its line, an empty line and then consecutive source lines are printed,
    the last of them the line of the address. The first of them comes after
    the previous line and is the line of the address, or the line after the
    last one before it that has an address of its own in the line map, or
    the line after the previous one when there is none. *)
Theorem source_block_lines w m st addr line_number :
  StdMap.get addr m = Some (prev_file_name st, line_number) ->
  0 <= prev_line_number st < line_number -> line_number < 2 ^ 64 - 1 ->
  exists first_line out file_map1,
    source_block w m st addr
      = Returns (Blank :: out,
                 mkSourceState (prev_file_name st) line_number file_map1) /\
    omap printed_line out = seqZ first_line (line_number - first_line + 1) /\
    prev_line_number st < first_line <= line_number /\
    (first_line - 1 = prev_line_number st \/
     has_line m (prev_file_name st) (first_line - 1) = true) /\
    (forall l, first_line <= l < line_number ->
               has_line m (prev_file_name st) l = false).
Proof.
  intros Hget Hprev Hmax. unfold source_block. rewrite Hget.
  rewrite String.eqb_refl.
  destruct (Z.eqb_spec line_number (prev_line_number st)) as [Heq|_]; [lia|].
  destruct (Z.gtb_spec line_number (prev_line_number st)) as [_|Hle]; [|lia].
  cbn [negb orb andb app].
  destruct (search_first_line_spec m (prev_file_name st) (prev_line_number st)
              (Z.to_nat (line_number - prev_line_number st)) line_number
              Hprev ltac:(lia) ltac:(lia)) as (Hrange & Hstop & Hnone).
  set (found := search_first_line _ _ _ _ _) in *.
  assert (Hadd : add64 found 1 = found + 1)
    by (unfold add64; apply wrap64_small; lia).
  rewrite Hadd.
  destruct (print_lines_numbered w (prev_file_name st)
              (Z.to_nat (line_number - (found + 1) + 1)) (file_map st)
              (found + 1) ltac:(lia) ltac:(lia))
    as (out & file_map1 & Hprint & Hout).
  rewrite Hprint. cbn [bind fst snd].
  exists (found + 1), out, file_map1. split; [reflexivity|].
  split; [rewrite Hout; f_equal; lia|]. split; [lia|].
  replace (found + 1 - 1) with found by lia. split; [exact Hstop|].
  intros l Hl. apply Hnone. lia.
Qed.

Lemma source_block_lines_witness :
  exists first_line out file_map1,
    source_block example_source_world example_source_map
      (mkSourceState "kernel.cpp" 2 ∅) 0x108
      = Returns (Blank :: out, mkSourceState "kernel.cpp" 5 file_map1) /\
    omap printed_line out = seqZ first_line (5 - first_line + 1) /\
    2 < first_line <= 5.
Proof.
  destruct (source_block_lines example_source_world example_source_map
              (mkSourceState "kernel.cpp" 2 ∅) 0x108 5 eq_refl
              ltac:(cbn; lia) ltac:(lia))
    as (first_line & out & file_map1 & Hrun & Hout & Hrange & _).
  exists first_line, out, file_map1. auto.
Defined.

(** After line 2 at one address, line 5 at the next brings the lines 3, 4
    and 5, of which the file has only the third. *)
Example source_block_example :
  exists st,
    source_block example_source_world example_source_map
      (mkSourceState "kernel.cpp" 2 ∅) 0x108
    = Returns ([Blank; Numbered 3 (Some [x62]); Numbered 4 None;
                Numbered 5 None], st).
Proof. eexists. vm_compute. reflexivity. Qed.

(** ** Decoding the path *)

Lemma str_app_nil_r (s : string) : (s ++ "")%string = s.
Proof.
  induction s as [|c s IH]; [reflexivity|].
  rewrite str_app_cons, IH. reflexivity.
Qed.

Lemma substring_zero : forall s i, String.substring i 0 s = "".
Proof.
  induction s as [|c s IH]; intros i; destruct i as [|i]; try reflexivity.
  cbn [String.substring]. apply IH.
Qed.

Lemma substring_none : forall s i,
  String.get i s = None -> String.substring i (String.length s - i) s = "".
Proof.
  induction s as [|c s IH]; intros i H.
  - destruct i; reflexivity.
  - destruct i as [|i]; [discriminate|]. cbn [String.get] in H.
    cbn [String.length String.substring Nat.sub]. apply IH, H.
Qed.

Lemma substring_get : forall s i c,
  String.get i s = Some c ->
  String.substring i (String.length s - i) s
  = String c (String.substring (S i) (String.length s - S i) s).
Proof.
  induction s as [|x s IH]; intros i c H; [destruct i; discriminate|].
  destruct i as [|i].
  - injection H as ->. cbn [String.length Nat.sub String.substring].
    rewrite Nat.sub_0_r, substring_whole.
    destruct s; reflexivity.
  - cbn [String.get] in H. cbn [String.length Nat.sub]. 
    change (String.substring (S i) (String.length s - i) (String x s))
      with (String.substring i (String.length s - i) s).
    rewrite (IH i c H). reflexivity.
Qed.

Lemma percent_decode_from path : forall fuel i decoded,
  (forall j c, String.get j path = Some c -> c <> "%"%char) ->
  (String.length path - i <= fuel)%nat ->
  percent_decode fuel path (Z.of_nat i) decoded
  = Returns (decoded ++ String.substring i (String.length path - i) path)%string.
Proof.
  induction fuel as [|fuel IH]; intros i decoded Hplain Hfuel;
    cbn [percent_decode].
  - replace (String.length path - i)%nat with O by lia.
    rewrite substring_zero, str_app_nil_r. reflexivity.
  - unfold Str.size, Str.at_index. rewrite Nat2Z.id.
    destruct (Z.ltb_spec (Z.of_nat i) (Z.of_nat (String.length path)))
      as [Hlt|Hge].
    + destruct (String.get i path) as [c|] eqn:Hc.
      2:{ exfalso. clear - Hc Hlt. revert i Hc Hlt.
          induction path as [|x s IH]; intros i Hc Hlt; cbn in *; [lia|].
          destruct i as [|i]; [discriminate|]. apply (IH i Hc). lia. }
      destruct (Ascii.eqb_spec c "%") as [->|Hne];
        [exfalso; exact (Hplain i _ Hc eq_refl)|].
      cbn [andb].
      replace (Z.of_nat i + 1) with (Z.of_nat (S i)) by lia.
      rewrite (IH (S i) _ Hplain ltac:(lia)).
      rewrite (substring_get path i c Hc), str_app_assoc. reflexivity.
    + rewrite substring_none, str_app_nil_r; [reflexivity|].
      clear - Hge. revert i Hge.
      induction path as [|x s IH]; intros i Hge; [destruct i; reflexivity|].
      destruct i as [|i]; cbn in *; [lia|]. apply IH. lia.
Qed.

(** A path without a percent sign is its own decoding. *)
Theorem percent_decode_plain (path : string) (fuel : nat) :
  (forall j c, String.get j path = Some c -> c <> "%"%char) ->
  (String.length path <= fuel)%nat ->
  percent_decode fuel path 0 "" = Returns path.
Proof.
  intros Hplain Hfuel.
  change 0 with (Z.of_nat O).
  rewrite (percent_decode_from path fuel O "" Hplain ltac:(lia)).
  rewrite Nat.sub_0_r, substring_whole. reflexivity.
Qed.

Lemma percent_decode_plain_witness :
  percent_decode 10 "/tmp/a.co" 0 "" = Returns "/tmp/a.co"%string.
Proof.
  apply percent_decode_plain.
  - intros j c H.
    do 9 (destruct j as [|j]; [injection H as <-; discriminate|]).
    discriminate.
  - cbn. lia.
Defined.

(** ** A URI without query or fragment *)

Lemma index_after_plain needle_rest : forall p,
  (forall j c, String.get j p = Some c -> c <> ":"%char) ->
  String.index 0 "://" (p ++ String ":" (String "/" (String "/" needle_rest)))
  = Some (String.length p).
Proof.
  induction p as [|x p IH]; intros Hplain.
  - rewrite str_app_nil_l. cbn [String.index String.prefix String.length].
    destruct (ascii_dec ":" ":") as [_|Hne]; [|congruence].
    destruct (ascii_dec "/" "/") as [_|Hne]; [|congruence].
    destruct needle_rest; reflexivity.
  - rewrite str_app_cons. cbn [String.index String.prefix String.length].
    destruct (ascii_dec ":" x) as [<-|Hne];
      [exfalso; exact (Hplain O _ eq_refl eq_refl)|].
    rewrite IH; [reflexivity|]. intros j c H. apply (Hplain (S j) c H).
Qed.

Lemma substring_app_prefix (b : string) : forall a,
  String.substring 0 (String.length a) (a ++ b) = a.
Proof.
  induction a as [|x a IH]; [destruct b; reflexivity|].
  rewrite str_app_cons. cbn [String.length String.substring]. rewrite IH.
  reflexivity.
Qed.

Lemma substring_rest : forall b m,
  (String.length b <= m)%nat -> String.substring 0 m b = b.
Proof.
  induction b as [|x b IH]; intros m Hm; [destruct m; reflexivity|].
  destruct m as [|m]; cbn [String.length] in Hm; [lia|].
  cbn [String.substring]. rewrite IH by lia. reflexivity.
Qed.

Lemma substring_app_suffix (b : string) m : forall a,
  (String.length b <= m)%nat ->
  String.substring (String.length a) m (a ++ b) = b.
Proof.
  induction a as [|x a IH]; intros Hm.
  - rewrite str_app_nil_l. apply substring_rest, Hm.
  - rewrite str_app_cons. cbn [String.length String.substring]. apply IH, Hm.
Qed.

(** A URI made of a protocol without a colon, [://] and a path without
    [#], [?] and [%] is cut into the protocol in lower case and the path as
    it is, with no parameter. *)
Theorem parse_uri_plain (proto path : string) :
  (forall j c, String.get j proto = Some c -> c <> ":"%char) ->
  Str.first_of "#?" path = None ->
  (forall j c, String.get j path = Some c -> c <> "%"%char) ->
  Str.size (proto ++ "://" ++ path) < Str.npos ->
  parse_uri (proto ++ "://" ++ path) = Returns (mkUri (Str.lower proto) path ∅).
Proof.
  intros Hproto Hpath Hplain Hsize.
  set (head := (proto ++ "://")%string).
  assert (Huri : (proto ++ "://" ++ path)%string = (head ++ path)%string)
    by (unfold head; rewrite str_app_assoc; reflexivity).
  assert (Hhead : String.length head = (String.length proto + 3)%nat)
    by (unfold head; rewrite str_length_app; reflexivity).
  assert (Hlen : Str.size (proto ++ "://" ++ path)
                 = Z.of_nat (String.length proto) + 3
                   + Z.of_nat (String.length path)).
  { unfold Str.size. rewrite Huri, str_length_app, Hhead. lia. }
  assert (Hnpos : Str.npos = 2 ^ 64 - 1) by reflexivity.
  assert (Hfind : Str.find (proto ++ "://" ++ path) "://" 0
                  = Z.of_nat (String.length proto)).
  { unfold Str.find.
    destruct (Z.gtb_spec 0 (Str.size (proto ++ "://" ++ path))); [lia|].
    change (Z.to_nat 0) with O.
    change ("://" ++ path)%string with (String ":" (String "/" (String "/" path))).
    rewrite (index_after_plain path proto Hproto). reflexivity. }
  unfold parse_uri. rewrite Hfind.
  assert (Hprotocol : Str.substr (proto ++ "://" ++ path) 0
                        (Z.of_nat (String.length proto)) = Returns proto).
  { unfold Str.substr.
    destruct (Z.gtb_spec 0 (Str.size (proto ++ "://" ++ path))); [lia|].
    rewrite Z.min_l by lia. rewrite Nat2Z.id. change (Z.to_nat 0) with O.
    rewrite substring_app_prefix. reflexivity. }
  rewrite Hprotocol. cbn [bind].
  assert (Hend : add64 (Z.of_nat (String.length proto)) (Str.size "://")
                 = Z.of_nat (String.length head)).
  { unfold add64. change (Str.size "://") with 3. rewrite wrap64_small; lia. }
  rewrite Hend.
  assert (Hfirst : Str.find_first_of (proto ++ "://" ++ path) "#?"
                     (Z.of_nat (String.length head)) = Str.npos).
  { unfold Str.find_first_of.
    destruct (Z.gtb_spec (Z.of_nat (String.length head))
                (Str.size (proto ++ "://" ++ path))); [lia|].
    rewrite Nat2Z.id, Huri, substring_app_suffix, Hpath; [reflexivity|].
    rewrite str_length_app. lia. }
  rewrite Hfirst. rewrite Z.eqb_refl. cbn [negb].
  assert (Hrest : Str.substr (proto ++ "://" ++ path)
                    (Z.of_nat (String.length head)) Str.npos = Returns path).
  { unfold Str.substr.
    destruct (Z.gtb_spec (Z.of_nat (String.length head))
                (Str.size (proto ++ "://" ++ path))); [lia|].
    rewrite Nat2Z.id, Huri, substring_app_suffix; [reflexivity|].
    rewrite <- Huri. lia. }
  rewrite Hrest. cbn [bind].
  change (percent_decode (S (String.length path)) path 0 EmptyString)
    with (percent_decode (S (String.length path)) path (Z.of_nat O) "").
  rewrite (percent_decode_from path (S (String.length path)) O "" Hplain
             ltac:(lia)).
  rewrite Nat.sub_0_r, substring_whole, str_app_nil_l. cbn [bind].
  cbn [tokenize]. unfold Str.find at 1.
  destruct (Z.gtb_spec Str.npos (Str.size (proto ++ "://" ++ path))) as [_|Hle];
    [|lia].
  rewrite !Z.eqb_refl. reflexivity.
Qed.

Lemma parse_uri_plain_witness :
  parse_uri ("FILE" ++ "://" ++ "/tmp/a.co")
  = Returns (mkUri (Str.lower "FILE") "/tmp/a.co" ∅).
Proof.
  apply parse_uri_plain.
  - intros j c H.
    do 4 (destruct j as [|j]; [injection H as <-; discriminate|]).
    discriminate.
  - reflexivity.
  - intros j c H.
    do 9 (destruct j as [|j]; [injection H as <-; discriminate|]).
    discriminate.
  - vm_compute. reflexivity.
Defined.

(** ** The unit around the address *)

(** C7, where the code departs from it and from its own comment, [If pc is
    included in a [lowpc,highpc] interval, clamp start_pc and end_pc]: of
    the units that [load_debug_info] has just recorded, [disassemble] looks
    only at the one with the greatest low bound at or below the address.
    When that unit ends at or before the address, the window is left as it
    was chosen, 32 bytes past the address, although the address lies in
    another unit that was recorded. *)
Theorem disassemble_misses_enclosing_unit w co pc dbg :
  is_open co = true ->
  m_line_number_map co = None ->
  dwarf_begin w co = Some dbg ->
  Forall unit_readable dbg ->
  exists (lines : line_number_map) (units : low_high_pc_map),
    load_debug_info w co = Returns (set_debug_maps lines units co) /\
    forall low high low' high',
      (low, high) ∈ units -> low <= pc < high ->
      (low', high') ∈ units -> low' <= pc -> high' <= pc ->
      (forall l h, (l, h) ∈ units -> l <= pc -> l <= low') ->
      disassembly_window w co pc =
        Returns (window_start lines pc, add64 pc context_byte_size,
                 set_debug_maps lines units co).
Proof.
  intros Ho Hl Hd Hall.
  destruct (load_units_returns (m_load_address co) dbg [] [] sorted_nil
              sorted_nil Hall) as (lines & units & Hrun & _ & Hsu & _).
  assert (Hload : load_debug_info w co = Returns (set_debug_maps lines units co)).
  { unfold load_debug_info. rewrite Ho, Hl, Hd, Hrun. reflexivity. }
  exists lines, units. split; [exact Hload|].
  intros low high low' high' _ _ Hin' Hlo' Hhi' Hmax.
  unfold disassembly_window. rewrite Hload.
  cbn [bind set_debug_maps m_line_number_map
       m_compilation_unit_low_high_pc_map].
  rewrite (clamp_window_miss units pc _ _ low' high' Hsu Hin' Hlo' Hhi' Hmax).
  reflexivity.
Qed.

Lemma disassemble_misses_enclosing_unit_witness :
  disassembly_window example_nested_world example_opened 0x300
  = Returns (0x300, 0x320,
             set_debug_maps [] [(0x100, 0x310); (0x200, 0x210)] example_opened) /\
  exists listing done co',
    disassemble example_nested_world example_decoder 16 example_opened 0x300
      = Returns (listing, done, co') /\
    0x310 ∈ printed_addresses listing.
Proof.
  split.
  - destruct (disassemble_misses_enclosing_unit example_nested_world
                example_opened 0x300 example_nested_dwarf
                eq_refl eq_refl eq_refl) as (lines & units & Hload & Hwin).
    { repeat constructor; eexists; reflexivity. }
    assert (Hv : load_debug_info example_nested_world example_opened
                 = Returns (set_debug_maps [] [(0x100, 0x310); (0x200, 0x210)]
                              example_opened))
      by (vm_compute; reflexivity).
    rewrite Hv in Hload. injection Hload as <- <-.
    apply (Hwin 0x100 0x310 0x200 0x210).
    + left.
    + lia.
    + right. left.
    + lia.
    + lia.
    + intros l h Hin _.
      apply elem_of_cons in Hin as [Heq|Hin]; [injection Heq as -> _; lia|].
      apply elem_of_cons in Hin as [Heq|Hin]; [injection Heq as -> _; lia|].
      inversion Hin.
  - eexists _, _, _. split; [vm_compute; reflexivity|].
    vm_compute. do 4 right. left.
Defined.
